(** * Relay aggregation and timeline synchronisation core of the client service

    A shallow embedding of [ClientService] (the relay/client service of the
    repository) and the properties of its multi-relay subscription, publish
    quorum, timeline store, multi-timeline aggregator, replaceable-event cache,
    timeline key and relay-list lookup.

    Asynchronous code is modelled the way the single-threaded event loop runs
    it: every callback is one atomic step of a state machine, the inputs of the
    machine are the things the transport (the relay connection library) or the
    caller can do, and the outputs are the invocations of the caller's
    callbacks. *)

From Stdlib Require Import ZArith Lia OrderedTypeEx Ascii.
From Equations Require Import Equations.
From stdpp Require Import gmap strings list sorting pretty.

#[local] Set Warnings "-clear-no-such-hyp".

Open Scope string_scope.
Open Scope list_scope.
Open Scope Z_scope.

(** ** Events *)

(** [Event as NEvent] of nostr-tools: an immutable value, identified by [id]. *)
Record NEvent := {
  id : string;
  pubkey : string;
  created_at : Z;
  kind : Z;
  tags : list (list string);
  content : string;
  sig : string
}.

(** [type TTimelineRef = [string, number]]: event id and created_at. *)
Definition TTimelineRef : Type := string * Z.

Definition toRef (evt : NEvent) : TTimelineRef := (id evt, created_at evt).

(** ** Sorting

    [Array.prototype.sort] is stable.  [sortWith before] places [a] ahead of
    [b] when the comparator is negative on [(a, b)], and keeps the input order
    of elements the comparator does not separate. *)

Section StableSort.
Context {A : Type} (before : A -> A -> bool).

Fixpoint insertSorted (x : A) (l : list A) : list A :=
  match l with
  | [] => [x]
  | y :: l' => if before y x then y :: insertSorted x l' else x :: l
  end.

Fixpoint sortWith (l : list A) : list A :=
  match l with
  | [] => []
  | x :: l' => insertSorted x (sortWith l')
  end.
End StableSort.

(** [events.sort((a, b) => b.created_at - a.created_at)] *)
Definition newerFirst (a b : NEvent) : bool := created_at b <? created_at a.
Definition sortByCreatedAtDesc : list NEvent -> list NEvent := sortWith newerFirst.

(** [.slice(0, limit)] *)
Definition slice0 {A} (limit : nat) (l : list A) : list A := take limit l.

(** ** Filters

    A JavaScript object is the list of its own entries in insertion order,
    with distinct keys.  The values of a relay filter are numbers, strings and
    arrays of them. *)

Inductive scalar :=
| SNum (n : Z)
| SStr (s : string).

Inductive fvalue :=
| Scalar (v : scalar)
| Arr (vs : list scalar).

Definition Filter : Type := list (string * fvalue).

(** [TSubRequestFilter = Omit<Filter, 'since' | 'until'> & { limit: number }] *)
Record TSubRequestFilter := {
  filterFields : Filter;
  limit : nat
}.

(** ** Timeline store: the ordered reference list *)

(** The order the binary search of the live-event handler compares with:
    [evt.created_at > ref[1] || (evt.created_at === ref[1] && evt.id < ref[0])]. *)
Definition goesBefore (evt : NEvent) (ref : TTimelineRef) : bool :=
  (ref.2 <? created_at evt) || ((created_at evt =? ref.2) && String.ltb (id evt) ref.1).

(** [evt.created_at === ref[1] && evt.id === ref[0]] *)
Definition sameRef (evt : NEvent) (ref : TTimelineRef) : bool :=
  (created_at evt =? ref.2) && bool_decide (id evt = ref.1).

(** Result of the [while (left < right)] loop: the early [return] when the
    event is found, the final [left], or a read of [timeline.refs[mid]] past
    the end of the array (a TypeError in the source). *)
Inductive search_result :=
| AlreadyPresent
| InsertAt (pos : nat)
| RefUndefined.

(** The loop itself; [lo] and [hi] are the source's [left] and [right]. *)
Equations? search (evt : NEvent) (refs : list TTimelineRef) (lo hi : nat)
  : search_result by wf (hi - lo)%nat lt :=
  search evt refs lo hi with decide (lo < hi)%nat => {
    | right _ => InsertAt lo;
    | left Hlt with refs !! ((lo + hi) / 2)%nat => {
        | None => RefUndefined;
        | Some ref =>
            if sameRef evt ref then AlreadyPresent
            else if goesBefore evt ref
                 then search evt refs lo ((lo + hi) / 2)%nat
                 else search evt refs (S ((lo + hi) / 2)%nat) hi } }.
Proof.
  all: change (Nat.divmod (lo + hi) 1 0 1).1 with ((lo + hi) / 2)%nat;
       pose proof (Nat.div_mod_eq (lo + hi) 2);
       pose proof (Nat.mod_upper_bound (lo + hi) 2); lia.
Qed.

(** The tail of the live-event handler of [_subscribeTimeline], once the
    timeline is known to hold references: binary search, then
    [if (left >= timeline.refs.length) return] and
    [timeline.refs.splice(left, 0, [evt.id, evt.created_at])]. *)
Definition insertRef (refs : list TTimelineRef) (evt : NEvent) : list TTimelineRef :=
  match search evt refs 0 (length refs) with
  | InsertAt pos =>
      if (length refs <=? pos)%nat then refs
      else take pos refs ++ toRef evt :: drop pos refs
  | AlreadyPresent | RefUndefined => refs
  end.

(** An entry of [this.timelines]: a timeline of its own, or the list of the
    keys of the sub-timelines of a merged feed. *)
Inductive timeline :=
| Single (refs : list TTimelineRef) (filter : TSubRequestFilter) (urls : list string)
| Multi (keys : list string).

Abbreviation Timelines := (gmap string timeline).

(** The references of a timeline the handlers work on:
    [!timeline || Array.isArray(timeline) || !timeline.refs.length] is the
    [None] case. *)
Definition cachedRefs (timelines : Timelines) (key : string)
  : option (list TTimelineRef * TSubRequestFilter * list string) :=
  match timelines !! key with
  | Some (Single (r :: refs) filter urls) => Some (r :: refs, filter, urls)
  | _ => None
  end.

(** Live event after EOSE ([onevent] of [_subscribeTimeline], lines 583-613). *)
Definition liveInsert (key : string) (evt : NEvent) (timelines : Timelines) : Timelines :=
  match cachedRefs timelines key with
  | None => timelines
  | Some (refs, filter, urls) => <[key := Single (insertRef refs evt) filter urls]> timelines
  end.

(** End of stored events ([oneose] of [_subscribeTimeline], lines 628-654);
    [events] is the buffer already sorted and capped. *)
Definition finalize (key : string) (filter : TSubRequestFilter) (urls : list string)
    (events : list NEvent) (timelines : Timelines) : Timelines :=
  match cachedRefs timelines key with
  | None => <[key := Single (toRef <$> events) filter urls]> timelines
  | Some (refs, filter', urls') =>
      let firstRefCreatedAt := default 0 (snd <$> head refs) in
      let newRefs := toRef <$> List.filter (fun evt => firstRefCreatedAt <? created_at evt) events in
      if (limit filter <=? length events)%nat
      then <[key := Single newRefs filter' urls']> timelines
      else <[key := Single (newRefs ++ refs) filter' urls']> timelines
  end.

(** Tail append of [_loadMoreTimeline] (lines 696-701); [events] is the
    fetched page already sorted and capped, [now] is [dayjs().unix()], and
    [captured] is what the array [refs] of line 673 holds by now.  That array
    is the one the timeline holds, with all that was spliced into it or
    pushed to it since, unless [timeline.refs] was assigned another array
    while the call awaited its events (lines 648 and 652); then it is the
    array as it was left.  The guard of line 696 reads [refs], the push of
    line 697 goes to [timeline.refs]. *)
Definition appendOlder (key : string) (captured : list TTimelineRef) (events : list NEvent)
    (now : Z) (timelines : Timelines) : Timelines :=
  match timelines !! key with
  | Some (Single refs filter urls) =>
      let lastRefCreatedAt := default now (snd <$> last captured) in
      <[key := Single
                 (refs ++ (toRef <$> List.filter (fun evt => created_at evt <? lastRefCreatedAt) events))
                 filter urls]> timelines
  | _ => timelines
  end.

(** [this.timelines[key] = subs.map((sub) => sub.timelineKey)] of
    [subscribeTimeline]. *)
Definition registerMerged (key : string) (keys : list string) (timelines : Timelines)
  : Timelines := <[key := Multi keys]> timelines.

(** Every write to [this.timelines] in the source is one of these.  The
    write of a load-more is the push at its end, with the array [refs] it
    captured at its beginning: what ran while it awaited its events stands
    before it in a sequence of writes. *)
Inductive timelineWrite :=
| WLive (key : string) (evt : NEvent)
| WEose (key : string) (filter : TSubRequestFilter) (urls : list string) (buffered : list NEvent)
| WLoadMore (key : string) (captured : list TTimelineRef) (limit : nat) (fetched : list NEvent)
    (now : Z)
| WMerged (key : string) (keys : list string).

Definition applyWrite (timelines : Timelines) (w : timelineWrite) : Timelines :=
  match w with
  | WLive key evt => liveInsert key evt timelines
  | WEose key filter urls buffered =>
      finalize key filter urls (slice0 (limit filter) (sortByCreatedAtDesc buffered)) timelines
  | WLoadMore key captured lim fetched now =>
      appendOlder key captured (slice0 lim (sortByCreatedAtDesc fetched)) now timelines
  | WMerged key keys => registerMerged key keys timelines
  end.

(** The array a load-more captured is still the one the timeline holds:
    [timeline.refs] was not assigned while the call awaited its events. *)
Definition capturesCurrent (timelines : Timelines) (w : timelineWrite) : Prop :=
  match w with
  | WLoadMore key captured _ _ _ =>
      forall refs filter urls, timelines !! key = Some (Single refs filter urls) -> captured = refs
  | _ => True
  end.

(** ** Caches

    [LRUCache] of lru-cache, as the list of its entries, most recently used
    first, and the time each entry was set or last read.  The caches of the
    service are built with [max], [ttl] (in milliseconds) and
    [updateAgeOnGet: true] (lines 55-64): an entry older than [ttl] is stale;
    [get] answers [undefined] for a stale entry and deletes it, and a [get]
    that finds its entry makes the entry new again. *)

Record LRUCache (V : Type) := {
  lru_max : nat;
  lru_ttl : Z;
  lru_entries : list (string * V);
  lru_starts : gmap string Z
}.
Arguments lru_max {V} _.
Arguments lru_ttl {V} _.
Arguments lru_entries {V} _.
Arguments lru_starts {V} _.

Definition lru_remove {V} (k : string) (l : list (string * V)) : list (string * V) :=
  List.filter (fun kv => negb (bool_decide (kv.1 = k))) l.

Definition lru_find {V} (k : string) (l : list (string * V)) : option V :=
  snd <$> List.find (fun kv => bool_decide (kv.1 = k)) l.

(** Whether the entry under [k] is stale at the time [now]: it is older
    than [ttl]; a [ttl] of zero is no [ttl]. *)
Definition lru_isStale {V} (now : Z) (k : string) (c : LRUCache V) : bool :=
  match lru_starts c !! k with
  | Some start => negb (lru_ttl c =? 0) && (lru_ttl c <? now - start)
  | None => false
  end.

(** [cache.get(k)] at the time [now]: a stale entry is deleted and
    [undefined] is the answer; otherwise the value is the answer, the entry
    becomes the most recently used and its age starts again. *)
Definition lru_get {V} (now : Z) (k : string) (c : LRUCache V) : option V * LRUCache V :=
  match lru_find k (lru_entries c) with
  | Some v =>
      if lru_isStale now k c
      then (None, {| lru_max := lru_max c; lru_ttl := lru_ttl c;
                     lru_entries := lru_remove k (lru_entries c);
                     lru_starts := delete k (lru_starts c) |})
      else (Some v, {| lru_max := lru_max c; lru_ttl := lru_ttl c;
                       lru_entries := (k, v) :: lru_remove k (lru_entries c);
                       lru_starts := <[k := now]> (lru_starts c) |})
  | None => (None, c)
  end.

(** [cache.set(k, v)] at the time [now]: the least recently used entries
    are evicted beyond [max].  (The start of an evicted entry stays in
    [lru_starts]; it is never read, since [get] looks for the entry first and
    [set] writes the start anew.) *)
Definition lru_set {V} (now : Z) (k : string) (v : V) (c : LRUCache V) : LRUCache V :=
  {| lru_max := lru_max c; lru_ttl := lru_ttl c;
     lru_entries := take (lru_max c) ((k, v) :: lru_remove k (lru_entries c));
     lru_starts := <[k := now]> (lru_starts c) |}.

(** The state of the [ClientService] instance the claims are about, and the
    clock its caches read ([performance.now()], in milliseconds). *)
Record ClientState := {
  timelines : Timelines;
  replaceableEventCacheMap : LRUCache NEvent;
  eventCacheMap : LRUCache (option NEvent);
  clock : Z
}.

(** [ttl: 1000 * 60 * 30] and [ttl: 1000 * 60 * 10] *)
Definition initialClient : ClientState :=
  {| timelines := ∅;
     replaceableEventCacheMap :=
       {| lru_max := 2000; lru_ttl := 1000 * 60 * 30; lru_entries := []; lru_starts := ∅ |};
     eventCacheMap :=
       {| lru_max := 3000; lru_ttl := 1000 * 60 * 10; lru_entries := []; lru_starts := ∅ |};
     clock := 0 |}.

Definition setTimelines (f : Timelines -> Timelines) (c : ClientState) : ClientState :=
  {| timelines := f (timelines c);
     replaceableEventCacheMap := replaceableEventCacheMap c;
     eventCacheMap := eventCacheMap c;
     clock := clock c |}.


(** The helpers of ['@/lib/event'] are not among the source files; the service
    is modelled over any implementation of them. *)
Class EventLib := {
  isReplaceableEvent : Z -> bool;
  getReplaceableCoordinateFromEvent : NEvent -> string;
  compareEvents : NEvent -> NEvent -> Z
}.

Section Caches.
Context `{EventLib}.

(** [eventDataLoader.prime(id, promise)]: DataLoader writes only when the
    cache map has nothing under the key. *)
Definition prime (now : Z) (key : string) (value : option NEvent)
    (cache : LRUCache (option NEvent)) : LRUCache (option NEvent) :=
  match lru_get now key cache with
  | (Some _, cache') => cache'
  | (None, cache') => lru_set now key value cache'
  end.

Definition addEventToCache (event : NEvent) (c : ClientState) : ClientState :=
  let events' := prime (clock c) (id event) (Some event) (eventCacheMap c) in
  if isReplaceableEvent (kind event) then
    let coordinate := getReplaceableCoordinateFromEvent event in
    let '(cachedEvent, cache) := lru_get (clock c) coordinate (replaceableEventCacheMap c) in
    let replace :=
      match cachedEvent with
      | None => true
      | Some cached => 0 <? compareEvents event cached
      end in
    {| timelines := timelines c;
       replaceableEventCacheMap :=
         if replace then lru_set (clock c) coordinate event cache else cache;
       eventCacheMap := events';
       clock := clock c |}
  else
    {| timelines := timelines c;
       replaceableEventCacheMap := replaceableEventCacheMap c;
       eventCacheMap := events';
       clock := clock c |}.
End Caches.

(** ** Timeline keys *)

(** [obj[key] = value] on an object: an own key keeps its place. *)
Fixpoint obj_set {V} (key : string) (value : V) (obj : list (string * V)) : list (string * V) :=
  match obj with
  | [] => [(key, value)]
  | (k, v) :: obj' => if bool_decide (k = key) then (k, value) :: obj' else (k, v) :: obj_set key value obj'
  end.

(** [String(v)] *)
Definition toString (v : scalar) : string :=
  match v with
  | SNum n => pretty n
  | SStr s => s
  end.

Definition toStringValue (v : fvalue) : string :=
  match v with
  | Scalar v => toString v
  | Arr vs => String.concat "," (toString <$> vs)
  end.

(** [Array.prototype.sort()] with no comparator orders by the string form of
    the elements. *)
Definition defaultSort {A} (str : A -> string) : list A -> list A :=
  sortWith (fun a b => String.ltb (str a) (str b)).

Definition entryString (entry : string * fvalue) : string :=
  entry.1 +:+ "," +:+ toStringValue entry.2.

(** The loop of [generateTimelineKey] (lines 238-245).  The sorted copy of an
    array value is stored first and the statement after the [if] then stores
    the value itself under the same key. *)
Definition stableFilter (filter : Filter) : Filter :=
  foldl (fun stable entry =>
           let stable' :=
             match entry.2 with
             | Arr vs => obj_set entry.1 (Arr (defaultSort toString vs)) stable
             | Scalar _ => stable
             end in
           obj_set entry.1 entry.2 stable')
        [] (defaultSort entryString filter).

(** [JSON.stringify] on the values that occur. *)
Definition dquote : string := String "034"%char "".

Definition hexDigit (n : N) : ascii :=
  default "0"%char (String.list_ascii_of_string "0123456789abcdef" !! N.to_nat n).

Definition jsonEscapeChar (c : ascii) : string :=
  let n := Ascii.N_of_ascii c in
  if (n =? 34)%N then String "\"%char dquote
  else if (n =? 92)%N then "\\"
  else if (n =? 8)%N then "\b"
  else if (n =? 9)%N then "\t"
  else if (n =? 10)%N then "\n"
  else if (n =? 12)%N then "\f"
  else if (n =? 13)%N then "\r"
  else if (n <? 32)%N then "\u00" +:+ String (hexDigit (n / 16)) (String (hexDigit (n mod 16)) "")
  else String c "".

Fixpoint jsonEscape (s : string) : string :=
  match s with
  | EmptyString => ""
  | String c s' => jsonEscapeChar c +:+ jsonEscape s'
  end.

Definition jsonString (s : string) : string := dquote +:+ jsonEscape s +:+ dquote.

Definition jsonScalar (v : scalar) : string :=
  match v with
  | SNum n => pretty n
  | SStr s => jsonString s
  end.

Definition jsonArray {A} (json : A -> string) (l : list A) : string :=
  "[" +:+ String.concat "," (json <$> l) +:+ "]".

Definition jsonValue (v : fvalue) : string :=
  match v with
  | Scalar v => jsonScalar v
  | Arr vs => jsonArray jsonScalar vs
  end.

Definition jsonObject (obj : Filter) : string :=
  "{" +:+ String.concat "," ((fun entry => jsonString entry.1 +:+ ":" +:+ jsonValue entry.2) <$> obj) +:+ "}".

(** [paramsStr] of [generateTimelineKey]. *)
Definition timelineParams (urls : list string) (filter : Filter) : string :=
  "{" +:+ jsonString "urls" +:+ ":" +:+ jsonArray jsonString (defaultSort (fun u => u) urls)
      +:+ "," +:+ jsonString "filter" +:+ ":" +:+ jsonObject (stableFilter filter) +:+ "}".

Section Keys.
(** [sha256] of @noble/hashes on the UTF-8 bytes, written in hexadecimal. *)
Variable sha256hex : string -> string.

Definition generateTimelineKey (urls : list string) (filter : Filter) : string :=
  sha256hex (timelineParams urls filter).

Definition generateMultipleTimelinesKey (subRequests : list (list string * Filter)) : string :=
  let keys := (fun r => generateTimelineKey r.1 r.2) <$> subRequests in
  sha256hex (jsonArray jsonString (defaultSort (fun k => k) keys)).
End Keys.

(** [Array.from(new Set(urls))]: first occurrences, in order. *)
Fixpoint dedupeFrom (seen : list string) (l : list string) : list string :=
  match l with
  | [] => []
  | x :: l' =>
      if bool_decide (x ∈ seen) then dedupeFrom seen l' else x :: dedupeFrom (x :: seen) l'
  end.
Definition dedupe : list string -> list string := dedupeFrom [].

(** The loops that collect events under an id set
    ([if (eventIdSet.has(evt.id)) return; eventIdSet.add(evt.id); events.push(evt)]). *)
Definition pushNew (acc : gset string * list NEvent) (evt : NEvent) : gset string * list NEvent :=
  if bool_decide (id evt ∈ acc.1) then acc else ({[id evt]} ∪ acc.1, acc.2 ++ [evt]).

(** [refs.findIndex(p)] *)
Fixpoint findIndex {A} (p : A -> bool) (l : list A) : option nat :=
  match l with
  | [] => None
  | x :: l' => if p x then Some 0%nat else S <$> findIndex p l'
  end.

(** ** Timeline store: subscribing and loading more *)

(** What a timeline subscription tells its caller. *)
Inductive timelineCall :=
| onEvents (events : list NEvent) (eosed : bool)
| onNew (evt : NEvent)
| onClose (url reason : string).

(** The variables a call of [_subscribeTimeline] closes over. *)
Record TimelineSub := {
  ts_key : string;
  ts_filter : TSubRequestFilter;
  ts_urls : list string;
  ts_needSort : bool;
  ts_cachedEvents : list NEvent;
  ts_events : list NEvent;
  ts_eosedAt : option Z;
  ts_cleared : bool  (* [onEvents = () => {}; onNew = () => {}] has run *)
}.

Definition withEvents (events : list NEvent) (eosedAt : option Z) (ts : TimelineSub) : TimelineSub :=
  {| ts_key := ts_key ts; ts_filter := ts_filter ts; ts_urls := ts_urls ts;
     ts_needSort := ts_needSort ts; ts_cachedEvents := ts_cachedEvents ts;
     ts_events := events; ts_eosedAt := eosedAt; ts_cleared := ts_cleared ts |}.

(** Truthiness of [eosedAt: number | null]. *)
Definition truthy (n : option Z) : bool :=
  match n with
  | Some t => negb (t =? 0)
  | None => false
  end.

(** A call of the caller's [onEvents] or [onNew] through the variable the
    closer overwrites. *)
Definition emit (ts : TimelineSub) (call : timelineCall) : list timelineCall :=
  if ts_cleared ts then [] else [call].

Definition toFilter (filter : TSubRequestFilter) : Filter :=
  obj_set "limit" (Scalar (SNum (Z.of_nat (limit filter)))) (filterFields filter).

Section TimelineStore.
Context `{EventLib}.
Variable sha256hex : string -> string.
(** [_fetchEvent], the batch function of [eventDataLoader]: what the network
    answers for an id the cache does not hold. *)
Variable _fetchEvent : string -> option NEvent.
(** [query(urls, { ...filter, until, limit })]: the events the relays
    deliver for the filter before the end of stored events. *)
Variable query : list string -> TSubRequestFilter -> Z -> nat -> list NEvent.

(** [eventDataLoader.load(id)] over [eventCacheMap]. *)
Definition load (key : string) (c : ClientState) : option NEvent * ClientState :=
  let '(hit, cache) := lru_get (clock c) key (eventCacheMap c) in
  match hit with
  | Some value =>
      (value, {| timelines := timelines c;
                 replaceableEventCacheMap := replaceableEventCacheMap c;
                 eventCacheMap := cache;
                 clock := clock c |})
  | None =>
      let value := _fetchEvent key in
      (value, {| timelines := timelines c;
                 replaceableEventCacheMap := replaceableEventCacheMap c;
                 eventCacheMap := lru_set (clock c) key value cache;
                 clock := clock c |})
  end.

(** [(await eventDataLoader.loadMany(ids)).filter((evt) => !!evt && !(evt instanceof Error))] *)
Fixpoint loadMany (keys : list string) (c : ClientState) : list NEvent * ClientState :=
  match keys with
  | [] => ([], c)
  | key :: keys' =>
      let '(value, c') := load key c in
      let '(events, c'') := loadMany keys' c' in
      (match value with Some evt => evt :: events | None => events end, c'')
  end.

(** [_subscribeTimeline] up to the call of [subscribe]: the closure, the
    [since] of the filter it subscribes with, and the immediate batch. *)
Definition _subscribeTimeline (urls : list string) (filter : TSubRequestFilter)
    (needSort : bool) (c : ClientState)
  : TimelineSub * option Z * list timelineCall * ClientState :=
  let relays := dedupe urls in
  let key := generateTimelineKey sha256hex relays (toFilter filter) in
  let '(cachedEvents, c') :=
    match cachedRefs (timelines c) key with
    | Some (refs, _, _) =>
        if needSort then loadMany (fst <$> slice0 (limit filter) refs) c else ([], c)
    | None => ([], c)
    end in
  let ts := {| ts_key := key; ts_filter := filter; ts_urls := urls; ts_needSort := needSort;
               ts_cachedEvents := cachedEvents; ts_events := []; ts_eosedAt := None;
               ts_cleared := false |} in
  match cachedEvents with
  | first :: _ =>
      let since := created_at first + 1 in
      (ts, if since =? 0 then None else Some since, [onEvents cachedEvents false], c')
  | [] => (ts, None, [], c')
  end.

(** [onevent] handed to [subscribe] (lines 572-614). *)
Definition ts_onevent (evt : NEvent) (ts : TimelineSub) (c : ClientState)
  : TimelineSub * ClientState * list timelineCall :=
  let c' := addEventToCache evt c in
  if negb (truthy (ts_eosedAt ts)) then
    (withEvents (ts_events ts ++ [evt]) (ts_eosedAt ts) ts, c', [])
  else
    let calls :=
      if default 0 (ts_eosedAt ts) <? created_at evt then emit ts (onNew evt) else [] in
    (ts, setTimelines (liveInsert (ts_key ts) evt) c', calls).

(** [oneose] handed to [subscribe] (lines 615-655); [now] is [dayjs().unix()]. *)
Definition ts_oneose (eosed : bool) (now : Z) (ts : TimelineSub) (c : ClientState)
  : TimelineSub * ClientState * list timelineCall :=
  let eosedAt :=
    if eosed && negb (truthy (ts_eosedAt ts)) then Some now else ts_eosedAt ts in
  let lim := limit (ts_filter ts) in
  if negb (ts_needSort ts) then
    (withEvents (ts_events ts) eosedAt ts, c, emit ts (onEvents (ts_events ts) (truthy eosedAt)))
  else
    let events := slice0 lim (sortByCreatedAtDesc (ts_events ts)) in
    let ts' := withEvents events eosedAt ts in
    if negb eosed then
      (ts', c, emit ts (onEvents (slice0 lim (events ++ ts_cachedEvents ts)) false))
    else
      let c' := setTimelines (finalize (ts_key ts) (ts_filter ts) (ts_urls ts) events) c in
      match cachedRefs (timelines c) (ts_key ts) with
      | None => (ts', c', emit ts (onEvents events true))
      | Some _ =>
          if (lim <=? length events)%nat
          then (ts', c', emit ts (onEvents events true))
          else (ts', c', emit ts (onEvents (slice0 lim (events ++ ts_cachedEvents ts)) true))
      end.

(** [onclose: onClose] *)
Definition ts_onclose (url reason : string) : list timelineCall := [onClose url reason].


(** [_loadMoreTimeline] (lines 669-703).  The page it answers with is
    made of the references and the cache as they are when it is called and of
    what the relays deliver; the push to the store is the one of a call during
    whose awaits [timeline.refs] was not assigned (see [appendOlder]). *)
Definition _loadMoreTimeline (key : string) (until : Z) (lim : nat) (now : Z) (c : ClientState)
  : list NEvent * ClientState :=
  match timelines c !! key with
  | Some (Single refs filter urls) =>
      let '(cachedEvents, c1) :=
        match findIndex (fun ref : TTimelineRef => ref.2 <=? until) refs with
        | Some startIdx => loadMany (fst <$> take lim (drop startIdx refs)) c
        | None => ([], c)
        end in
      if (lim <=? length cachedEvents)%nat then (cachedEvents, c1)
      else
        let until' := default until ((fun evt => created_at evt - 1) <$> last cachedEvents) in
        let lim' := (lim - length cachedEvents)%nat in
        let fetched := query urls filter until' lim' in
        let c2 := foldl (fun c evt => addEventToCache evt c) c1 fetched in
        let events := slice0 lim' (sortByCreatedAtDesc fetched) in
        (cachedEvents ++ events, setTimelines (appendOlder key refs events now) c2)
  | _ => ([], c)
  end.

(** [loadMoreTimeline] (lines 357-378); the sub-timelines of a merged key
    are loaded one after the other. *)
Definition loadMoreTimeline (key : string) (until : Z) (lim : nat) (now : Z) (c : ClientState)
  : list NEvent * ClientState :=
  match timelines c !! key with
  | None => ([], c)
  | Some (Single _ _ _) => _loadMoreTimeline key until lim now c
  | Some (Multi keys) =>
      let '(pages, c') :=
        foldl (fun '(pages, c) key =>
                 let '(page, c') := _loadMoreTimeline key until lim now c in
                 (pages ++ page, c'))
              ([], c) keys in
      (slice0 lim (sortByCreatedAtDesc (foldl pushNew (∅, []) pages).2), c')
  end.

End TimelineStore.

(** ** Multi-relay subscription ([subscribe], lines 380-529)

    The transport is the relay library (nostr-tools), which is not part of the
    repository.  What it does to a subscription is an input of the model:
    a connection attempt fails or succeeds, an open sub-subscription receives
    an event, reaches its end of stored events (once), or is closed with a
    reason; an authentication round ends.  An input the library cannot
    produce in the current state (an event on a sub-subscription that is not
    open, a second end of stored events) leaves the state as it is. *)

Inductive relayStatus :=
| Connecting     (* [await that.pool.ensureRelay(url, ...)] has not returned *)
| Unreachable    (* it failed: [startSub] returned [{ close: () => {} }] *)
| Opened         (* [relay.subscribe(filters, ...)] is live *)
| Released       (* [sub.close()] was called by [close()]; the library has yet
                    to call the [onclose] handler *)
| Closed.        (* the [onclose] handler has run *)

(** One call of [startSub]: an element of [subPromises]. *)
Record RelaySub := {
  rs_url : string;
  rs_status : relayStatus;
  rs_eosed : bool;           (* this sub-subscription has reached its own EOSE *)
  rs_closeRequested : bool;  (* [close()] ran while it was still connecting *)
  rs_authPending : bool      (* [relay.auth(...)] is under way *)
}.

Definition withStatus (st : relayStatus) (r : RelaySub) : RelaySub :=
  {| rs_url := rs_url r; rs_status := st; rs_eosed := rs_eosed r;
     rs_closeRequested := rs_closeRequested r; rs_authPending := rs_authPending r |}.

(** The variables [subscribe] closes over, and whether the listener for
    ['newEvent'] is attached. *)
Record Subscription := {
  relays : list string;
  _knownIds : gset string;
  startedCount : nat;
  eosedCount : nat;
  eosed : bool;
  closedCount : nat;
  closeReasons : list string;
  hasAuthed : gset string;     (* the urls whose [hasAuthed] is true *)
  subPromises : list RelaySub;
  listening : bool
}.

(** The callbacks handed to [subscribe], as the calls made to them. *)
Inductive subscribeCall :=
| onevent (evt : NEvent)
| oneose (eosed : bool)
| onclose (url reason : string)
| onAllClose (reasons : list string)
| startLogin.

Inductive transportInput :=
| ConnectFailed (i : nat)
| Connected (i : nat)
| Received (i : nat) (evt : NEvent) (valid : bool)
    (* [valid]: the library's [verifyEvent(event) && matchFilters(filters, event)] *)
| Eose (i : nat)
| RelayClosed (i : nat) (reason : string) (signer : bool)
    (* [signer]: [that.signer] is set when the handler runs *)
| AuthDone (i : nat) (ok : bool)
| NewEvent (evt : NEvent)        (* ['newEvent'] on the in-process bus *)
| Close.                         (* the caller runs [close()] *)

Section Subscribe.
(** [matchFilters(filters, evt)] of nostr-tools for the filters of the call,
    and whether a [startLogin] callback was given. *)
Variable matchFilters : NEvent -> bool.
Variable hasStartLogin : bool.

Definition setSub (i : nat) (r : RelaySub) (s : Subscription) : Subscription :=
  {| relays := relays s; _knownIds := _knownIds s; startedCount := startedCount s;
     eosedCount := eosedCount s; eosed := eosed s; closedCount := closedCount s;
     closeReasons := closeReasons s; hasAuthed := hasAuthed s;
     subPromises := <[i := r]> (subPromises s); listening := listening s |}.

(** [startSub()] up to its first [await]. *)
Definition startSub (url : string) (s : Subscription) : Subscription :=
  {| relays := relays s; _knownIds := _knownIds s; startedCount := S (startedCount s);
     eosedCount := eosedCount s; eosed := eosed s; closedCount := closedCount s;
     closeReasons := closeReasons s; hasAuthed := hasAuthed s;
     subPromises := subPromises s ++
       [{| rs_url := url; rs_status := Connecting; rs_eosed := false;
           rs_closeRequested := false; rs_authPending := false |}];
     listening := listening s |}.

(** [subscribe(urls, filter, callbacks)] up to its [return]. *)
Definition subscribe (urls : list string) : Subscription :=
  foldl (fun s url => startSub url s)
        {| relays := dedupe urls; _knownIds := ∅; startedCount := 0; eosedCount := 0;
           eosed := false; closedCount := 0; closeReasons := []; hasAuthed := ∅;
           subPromises := []; listening := true |}
        (dedupe urls).

(** [eosedCount++; eosed = eosedCount >= startedCount; oneose?.(eosed)],
    shared by the connection failure and the [oneose] handler. *)
Definition countEose (s : Subscription) : Subscription * list subscribeCall :=
  if eosed s then (s, [])
  else
    let n := S (eosedCount s) in
    let e := (startedCount s <=? n)%nat in
    ({| relays := relays s; _knownIds := _knownIds s; startedCount := startedCount s;
        eosedCount := n; eosed := e; closedCount := closedCount s;
        closeReasons := closeReasons s; hasAuthed := hasAuthed s;
        subPromises := subPromises s; listening := listening s |},
     [oneose e]).

(** [alreadyHaveEvent(id)]; also the test of [handleNewEventFromInternal]. *)
Definition alreadyHaveEvent (key : string) (s : Subscription) : bool * Subscription :=
  if bool_decide (key ∈ _knownIds s) then (true, s)
  else (false,
        {| relays := relays s; _knownIds := {[key]} ∪ _knownIds s;
           startedCount := startedCount s; eosedCount := eosedCount s; eosed := eosed s;
           closedCount := closedCount s; closeReasons := closeReasons s;
           hasAuthed := hasAuthed s; subPromises := subPromises s;
           listening := listening s |}).

Definition startsWith (prefix str : string) : bool :=
  bool_decide (String.substring 0 (String.length prefix) str = prefix).

(** The [onclose] handler of a sub-subscription (lines 454-494). *)
Definition handleClose (i : nat) (r : RelaySub) (reason : string) (signer : bool)
    (s : Subscription) : Subscription * list subscribeCall :=
  let closed := withStatus Closed r in
  if startsWith "auth-required" reason && negb (bool_decide (rs_url r ∈ hasAuthed s)) && signer
  then
    (setSub i {| rs_url := rs_url r; rs_status := Closed; rs_eosed := rs_eosed r;
                 rs_closeRequested := rs_closeRequested r; rs_authPending := true |} s, [])
  else if startsWith "auth-required" reason && negb (bool_decide (rs_url r ∈ hasAuthed s))
          && hasStartLogin
  then (setSub i closed s, [startLogin])
  else
    let n := S (closedCount s) in
    let reasons := closeReasons s ++ [reason] in
    ({| relays := relays s; _knownIds := _knownIds s; startedCount := startedCount s;
        eosedCount := eosedCount s; eosed := eosed s; closedCount := n;
        closeReasons := reasons; hasAuthed := hasAuthed s;
        subPromises := <[i := closed]> (subPromises s); listening := listening s |},
     onclose (rs_url r) reason ::
       (if (startedCount s <=? n)%nat then [onAllClose reasons] else [])).

(** The [.then] of [relay.auth(...)] (lines 467-472). *)
Definition authSucceeded (r : RelaySub) (s : Subscription) : Subscription :=
  let s' :=
    {| relays := relays s; _knownIds := _knownIds s; startedCount := startedCount s;
       eosedCount := eosedCount s; eosed := eosed s; closedCount := closedCount s;
       closeReasons := closeReasons s; hasAuthed := {[rs_url r]} ∪ hasAuthed s;
       subPromises := subPromises s; listening := listening s |} in
  if eosed s' then s' else startSub (rs_url r) s'.

(** [close()] (lines 516-527): the listener goes at once; [sub.close()]
    runs for every promise of [subPromises] as soon as it is resolved.
    Nothing guards [close()]: a further call runs [sub.close()] again, also on
    a sub-subscription that is closed already, and the relay library calls the
    [onclose] handler at every [sub.close()] (the input [RelayClosed]). *)
Definition releaseSub (r : RelaySub) : RelaySub :=
  match rs_status r with
  | Opened | Closed => withStatus Released r
  | Connecting =>
      {| rs_url := rs_url r; rs_status := Connecting; rs_eosed := rs_eosed r;
         rs_closeRequested := true; rs_authPending := rs_authPending r |}
  | _ => r
  end.

Definition close (s : Subscription) : Subscription :=
  {| relays := relays s; _knownIds := _knownIds s; startedCount := startedCount s;
     eosedCount := eosedCount s; eosed := eosed s; closedCount := closedCount s;
     closeReasons := closeReasons s; hasAuthed := hasAuthed s;
     subPromises := releaseSub <$> subPromises s; listening := false |}.

(** One turn of the event loop on a subscription. *)
Definition step (s : Subscription) (x : transportInput) : Subscription * list subscribeCall :=
  match x with
  | ConnectFailed i =>
      match subPromises s !! i with
      | Some r =>
          match rs_status r with
          | Connecting => countEose (setSub i (withStatus Unreachable r) s)
          | _ => (s, [])
          end
      | None => (s, [])
      end
  | Connected i =>
      match subPromises s !! i with
      | Some r =>
          match rs_status r with
          | Connecting =>
              (setSub i (withStatus (if rs_closeRequested r then Released else Opened) r) s, [])
          | _ => (s, [])
          end
      | None => (s, [])
      end
  | Received i evt valid =>
      match subPromises s !! i with
      | Some r =>
          match rs_status r with
          | Opened =>
              let '(have, s') := alreadyHaveEvent (id evt) s in
              (s', if negb have && valid then [onevent evt] else [])
          | _ => (s, [])
          end
      | None => (s, [])
      end
  | Eose i =>
      match subPromises s !! i with
      | Some r =>
          match rs_status r with
          | Opened =>
              if rs_eosed r then (s, [])
              else countEose
                     (setSub i {| rs_url := rs_url r; rs_status := Opened; rs_eosed := true;
                                  rs_closeRequested := rs_closeRequested r;
                                  rs_authPending := rs_authPending r |} s)
          | _ => (s, [])
          end
      | None => (s, [])
      end
  | RelayClosed i reason signer =>
      match subPromises s !! i with
      | Some r =>
          match rs_status r with
          | Opened | Released => handleClose i r reason signer s
          | _ => (s, [])
          end
      | None => (s, [])
      end
  | AuthDone i ok =>
      match subPromises s !! i with
      | Some r =>
          if rs_authPending r then
            let s' := setSub i {| rs_url := rs_url r; rs_status := rs_status r;
                                  rs_eosed := rs_eosed r;
                                  rs_closeRequested := rs_closeRequested r;
                                  rs_authPending := false |} s in
            (if ok then authSucceeded r s' else s', [])
          else (s, [])
      | None => (s, [])
      end
  | NewEvent evt =>
      if listening s && matchFilters evt then
        let '(have, s') := alreadyHaveEvent (id evt) s in
        (s', if have then [] else [onevent evt])
      else (s, [])
  | Close => (close s, [])
  end.

(** A run: the state reached and every call made, in order. *)
Definition run (s : Subscription) (inputs : list transportInput)
  : Subscription * list subscribeCall :=
  foldl (fun '(s, calls) x => let '(s', out) := step s x in (s', calls ++ out)) (s, []) inputs.
End Subscribe.

Section TimelineCallbacks.
Context `{EventLib}.
(** The callbacks of [_subscribeTimeline] fed with what its subscription
    calls, each with the clock at that moment. *)
Definition ts_handle (ts : TimelineSub) (c : ClientState) (x : subscribeCall * Z)
  : TimelineSub * ClientState * list timelineCall :=
  match x.1 with
  | onevent evt => ts_onevent evt ts c
  | oneose eosed => ts_oneose eosed x.2 ts c
  | onclose url reason => (ts, c, ts_onclose url reason)
  | onAllClose _ | startLogin => (ts, c, [])
  end.

Definition ts_run (ts : TimelineSub) (c : ClientState) (inputs : list (subscribeCall * Z))
  : TimelineSub * ClientState * list timelineCall :=
  foldl (fun '(ts, c, calls) x => let '(ts', c', out) := ts_handle ts c x in (ts', c', calls ++ out))
        (ts, c, []) inputs.
End TimelineCallbacks.

(** ** Publishing ([publishEvent], lines 158-212) *)

(** How the promise chain of one relay ends. *)
Inductive publishOutcome :=
| EnsureRelayFailed
    (* [await this.pool.ensureRelay(url)] throws: the chain with its
       [.finally] is never built *)
| Published
    (* [relay.publish(event)] resolves *)
| PublishRejected (isError : bool) (message : string) (retried : bool).
    (* it rejects; [isError] is [error instanceof Error], [message] is
       [error.message] or [String(error)], [retried] tells how
       [relay.auth(...).then(() => relay.publish(event))] ends when it runs *)

Inductive publishResult :=
| Resolved
| Rejected (aggregate : list string).   (* the messages of the [AggregateError] *)

Record Publishing := {
  uniqueRelayUrls : list string;
  successCount : nat;
  finishedCount : nat;
  errors : list (string * string);
  newEventEmitted : nat;            (* calls of [this.emitNewEvent(event)] *)
  settled : option publishResult    (* the first [resolve()] or [reject(...)] *)
}.

Section Publish.
(** [!!that.signer] *)
Variable signer : bool.

Definition publishEvent (relayUrls : list string) : Publishing :=
  {| uniqueRelayUrls := dedupe relayUrls; successCount := 0; finishedCount := 0;
     errors := []; newEventEmitted := 0; settled := None |}.

(** [`${url}: ${error instanceof Error ? error.message : String(error)}`] *)
Definition errorLine (e : string * string) : string := e.1 +:+ ": " +:+ e.2.

(** The [.finally] block (lines 189-208).  [successCount >= length / 3]
    compares an integer with a quotient; it holds exactly when
    [length <= 3 * successCount]. *)
Definition finally (p : Publishing) : Publishing :=
  let n := length (uniqueRelayUrls p) in
  let isSuccess := (n <=? 3 * successCount p)%nat in
  let finished := S (finishedCount p) in
  let afterResolve :=
    if isSuccess then match settled p with None => Some Resolved | r => r end else settled p in
  let afterReject :=
    if (n <=? finished)%nat
    then match afterResolve with None => Some (Rejected (errorLine <$> errors p)) | r => r end
    else afterResolve in
  {| uniqueRelayUrls := uniqueRelayUrls p; successCount := successCount p;
     finishedCount := finished; errors := errors p;
     newEventEmitted := if isSuccess then S (newEventEmitted p) else newEventEmitted p;
     settled := afterReject |}.

(** The chain of one relay running to its end. *)
Definition finish (p : Publishing) (done : string * publishOutcome) : Publishing :=
  match done.2 with
  | EnsureRelayFailed => p
  | Published =>
      finally {| uniqueRelayUrls := uniqueRelayUrls p; successCount := S (successCount p);
                 finishedCount := finishedCount p; errors := errors p;
                 newEventEmitted := newEventEmitted p; settled := settled p |}
  | PublishRejected isError message retried =>
      if isError && startsWith "auth-required" message && signer then finally p
      else
        finally {| uniqueRelayUrls := uniqueRelayUrls p; successCount := successCount p;
                   finishedCount := finishedCount p;
                   errors := errors p ++ [(done.1, message)];
                   newEventEmitted := newEventEmitted p; settled := settled p |}
  end.

Definition publishRun (relayUrls : list string) (done : list (string * publishOutcome))
  : Publishing := foldl finish (publishEvent relayUrls) done.
End Publish.

(** ** Multi-timeline aggregator ([subscribeTimeline], lines 266-355)

    The inputs are the calls the sub-timelines make to the callbacks they were
    given, and the caller running the [closer].  The [closer] runs the closer
    of every sub-timeline as well ([sub.closer()]); what the sub-timelines
    call afterwards is among the inputs. *)

Record Aggregator := {
  ag_limits : list nat;             (* [filter.limit] of each sub-request *)
  ag_newEventIdSet : gset string;
  ag_eventIdSet : gset string;
  ag_events : list NEvent;
  ag_eosedCount : nat;
  ag_cleared : bool                 (* [onEvents = () => {}; onNew = () => {}] has run *)
}.

Inductive aggregatorInput :=
| SubEvents (i : nat) (events : list NEvent) (eosed : bool)
| SubNew (i : nat) (evt : NEvent)
| SubClose (url reason : string)
| Closer.

Definition requestCount (a : Aggregator) : nat := length (ag_limits a).
Definition threshold (a : Aggregator) : nat := (requestCount a / 2)%nat.

Definition subscribeTimeline (subRequests : list (list string * TSubRequestFilter)) : Aggregator :=
  {| ag_limits := (fun r => limit r.2) <$> subRequests; ag_newEventIdSet := ∅;
     ag_eventIdSet := ∅; ag_events := []; ag_eosedCount := 0; ag_cleared := false |}.

Definition ag_emit (a : Aggregator) (call : timelineCall) : list timelineCall :=
  if ag_cleared a then [] else [call].

Definition ag_step (a : Aggregator) (x : aggregatorInput) : Aggregator * list timelineCall :=
  match x with
  | SubEvents i _events _eosed =>
      match ag_limits a !! i with
      | Some lim =>
          let count := if _eosed then S (ag_eosedCount a) else ag_eosedCount a in
          let '(ids, collected) := foldl pushNew (ag_eventIdSet a, ag_events a) _events in
          let '(ids', events') :=
            match _events with
            | [] => (ids, collected)
            | _ =>
                let sorted := slice0 lim (sortByCreatedAtDesc collected) in
                (list_to_set (id <$> sorted), sorted)
            end in
          let a' := {| ag_limits := ag_limits a; ag_newEventIdSet := ag_newEventIdSet a;
                       ag_eventIdSet := ids'; ag_events := events'; ag_eosedCount := count;
                       ag_cleared := ag_cleared a |} in
          (a', if (threshold a <=? count)%nat
               then ag_emit a (onEvents events' (requestCount a <=? count)%nat)
               else [])
      | None => (a, [])
      end
  | SubNew i evt =>
      if bool_decide (id evt ∈ ag_newEventIdSet a) then (a, [])
      else ({| ag_limits := ag_limits a; ag_newEventIdSet := {[id evt]} ∪ ag_newEventIdSet a;
               ag_eventIdSet := ag_eventIdSet a; ag_events := ag_events a;
               ag_eosedCount := ag_eosedCount a; ag_cleared := ag_cleared a |},
            ag_emit a (onNew evt))
  | SubClose url reason => (a, [onClose url reason])
  | Closer =>
      ({| ag_limits := ag_limits a; ag_newEventIdSet := ag_newEventIdSet a;
          ag_eventIdSet := ag_eventIdSet a; ag_events := ag_events a;
          ag_eosedCount := ag_eosedCount a; ag_cleared := true |}, [])
  end.

Definition ag_run (a : Aggregator) (inputs : list aggregatorInput)
  : Aggregator * list timelineCall :=
  foldl (fun '(a, calls) x => let '(a', out) := ag_step a x in (a', calls ++ out)) (a, []) inputs.

(** ** Relay lists ([fetchRelayList], [fetchRelayLists], lines 1221-1239) *)

Record TRelayList := {
  write : list string;
  read : list string;
  originalRelays : list (string * string)   (* url and scope *)
}.

Definition BIG_RELAY_URLS : list string :=
  ["wss://relay.damus.io/"; "wss://relay.nostr.band/"; "wss://relay.primal.net/"; "wss://nos.lol/"].

(** [kinds.RelayList] *)
Definition RelayListKind : Z := 10002.

(** An element of the array [getManyReplaceableEvents] answers with:
    [undefined] (never looked up), [null] (known to be absent) or the event. *)
Inductive storedEvent :=
| Unknown
| KnownAbsent
| Stored (event : NEvent).

(** An element of the array [loadMany] answers with. *)
Inductive loadedEvent :=
| LoadedNull
| LoadError
| Loaded (event : NEvent).

(** [events[index] = event] on an array: a write past the end leaves holes,
    which read as [undefined]. *)
Definition arraySet (index : nat) (v : storedEvent) (events : list storedEvent) : list storedEvent :=
  if (index <? length events)%nat then <[index := v]> events
  else events ++ replicate (index - length events) Unknown ++ [v].

Definition isUndefined (events : list storedEvent) (i : nat) : bool :=
  match events !! i with
  | None | Some Unknown => true
  | _ => false
  end.

Section RelayLists.
(** [getRelayListFromEvent] of ['@/lib/event-metadata'], the persistent store
    and the batching loader are outside the source files. *)
Variable getRelayListFromEvent : NEvent -> TRelayList.
Variable getManyReplaceableEvents : list string -> Z -> list storedEvent.
Variable loadManyFromBigRelays : list (string * Z) -> list loadedEvent.

(** Lines 1303-1324.  [nonExistingPubkeyIndexMap] is a [Map]: a key keeps
    the place of its first [set]. *)
Definition fetchReplaceableEventsFromBigRelays (pubkeys : list string) (kind : Z)
  : list storedEvent :=
  let events := getManyReplaceableEvents pubkeys kind in
  let nonExistingPubkeyIndexMap :=
    foldl (fun m ip => if isUndefined events ip.1 then obj_set ip.2 ip.1 m else m)
          [] (imap (fun i pubkey => (i, pubkey)) pubkeys) in
  let newEvents :=
    loadManyFromBigRelays ((fun e : string * nat => (e.1, kind)) <$> nonExistingPubkeyIndexMap) in
  foldl (fun events loaded =>
           match loaded with
           | Loaded event =>
               match List.find (fun e : string * nat => bool_decide (e.1 = pubkey event))
                               nonExistingPubkeyIndexMap with
               | Some (_, index) => arraySet index (Stored event) events
               | None => events
               end
           | _ => events
           end)
        events newEvents.

Definition bigRelayList : TRelayList :=
  {| write := BIG_RELAY_URLS; read := BIG_RELAY_URLS; originalRelays := [] |}.

Definition fetchRelayLists (pubkeys : list string) : list TRelayList :=
  (fun event =>
     match event with
     | Stored event => getRelayListFromEvent event
     | _ => bigRelayList
     end) <$> fetchReplaceableEventsFromBigRelays pubkeys RelayListKind.

(** [const [relayList] = await this.fetchRelayLists([pubkey])]: [None] is
    [undefined]. *)
Definition fetchRelayList (pubkey : string) : option TRelayList :=
  head (fetchRelayLists [pubkey]).
End RelayLists.

(** The ids [onevent] was called with, in order. *)
Definition deliveredIds (calls : list subscribeCall) : list string :=
  omap (fun c => match c with onevent evt => Some (id evt) | _ => None end) calls.

(** A sub-subscription that has reached its own EOSE, or whose connection
    failed. *)
Definition reachedEose (r : RelaySub) : bool :=
  match rs_status r with Unreachable => true | _ => rs_eosed r end.

Definition doneCount (s : Subscription) : nat :=
  length (List.filter reachedEose (subPromises s)).

Definition isEoseTrue (c : subscribeCall) : bool :=
  match c with oneose true => true | _ => false end.

(** How many times [oneose] was called with [true]. *)
Definition eoseTrueCalls (calls : list subscribeCall) : nat :=
  length (List.filter isEoseTrue calls).

(** The relays of a publish run that acknowledged at the first attempt
    ([relay.publish(event)] resolved), the failures in the order they
    finished, and the quorum in the words of the specification. *)
Definition isPublished (d : string * publishOutcome) : bool :=
  match d.2 with Published => true | _ => false end.

Definition acks (done : list (string * publishOutcome)) : nat :=
  length (List.filter isPublished done).

Definition failures (done : list (string * publishOutcome)) : list (string * string) :=
  omap (fun d => match d.2 with
                 | PublishRejected _ message _ => Some (d.1, message)
                 | _ => None
                 end) done.

Definition ceilThird (n : nat) : nat := ((n + 2) / 3)%nat.

(** A chain that ends with an acknowledgement or with a plain rejection: the
    relay was reached and the authentication retry was not taken. *)
Definition plainOutcome (signer : bool) (d : string * publishOutcome) : bool :=
  match d.2 with
  | EnsureRelayFailed => false
  | Published => true
  | PublishRejected isError message _ =>
      negb (isError && startsWith "auth-required" message && signer)
  end.

(** Nine relays, two of which acknowledge. *)
Definition nineRelays : list string :=
  ["wss://r1/"; "wss://r2/"; "wss://r3/"; "wss://r4/"; "wss://r5/";
   "wss://r6/"; "wss://r7/"; "wss://r8/"; "wss://r9/"].

Definition twoOfNine : list (string * publishOutcome) :=
  [("wss://r1/", Published); ("wss://r2/", PublishRejected true "blocked" false);
   ("wss://r3/", PublishRejected true "publish timed out" false);
   ("wss://r4/", Published); ("wss://r5/", PublishRejected true "blocked" false);
   ("wss://r6/", PublishRejected true "blocked" false);
   ("wss://r7/", PublishRejected false "rate-limited" false);
   ("wss://r8/", PublishRejected true "blocked" false);
   ("wss://r9/", PublishRejected true "invalid: bad event" false)].

(** The two orders on references: newest first, and newest first with ties
    in ascending order of id. *)
Definition notOlder (a b : TTimelineRef) : Prop := b.2 <= a.2.

Definition refBefore (a b : TTimelineRef) : Prop :=
  b.2 < a.2 \/ (a.2 = b.2 /\ String.ltb a.1 b.1 = true).

Definition sortedDesc (refs : list TTimelineRef) : Prop := StronglySorted notOlder refs.
Definition strictlySorted (refs : list TTimelineRef) : Prop := StronglySorted refBefore refs.

(** Events in descending order of [created_at]. *)
Definition newestFirst (events : list NEvent) : Prop :=
  StronglySorted (fun a b => created_at b <= created_at a) events.

(** Every timeline of the store holds its references newest first. *)
Definition storeSorted (timelines : Timelines) : Prop :=
  forall key refs filter urls,
    timelines !! key = Some (Single refs filter urls) -> sortedDesc refs.

(** Sample events: ids and public keys are 64 hexadecimal digits. *)
Definition hex64 (c : ascii) : string := String.string_of_list_ascii (replicate 64 c).

Definition note (i : string) (t : Z) : NEvent :=
  {| id := i; pubkey := hex64 "c"; created_at := t; kind := 1; tags := [];
     content := "gm"; sig := hex64 "0" |}.

Definition idA : string := hex64 "a".
Definition idB : string := hex64 "b".
Definition idD : string := hex64 "d".
Definition idE : string := hex64 "e".

Definition notesFilter : TSubRequestFilter :=
  {| filterFields := [("kinds", Arr [SNum 1])]; limit := 10 |}.

(** A feed reaches its end of stored events with one event; a page of older
    events is loaded, two of them with the same timestamp and arriving in
    descending order of id; then the live subscription delivers one of the
    two. *)
Definition tieWrites : list timelineWrite :=
  [WEose "k" notesFilter ["wss://r/"] [note idE 200];
   WLoadMore "k" [(idE, 200)] 10 [note idB 100; note idA 100; note idD 50] 1000;
   WLive "k" (note idB 100)].

(** Ids are content hashes: an id commits to the [created_at] of its event.
    [stamp] is that commitment; a client state is coherent with it when every
    reference and every cached event carries the timestamp of its id, and the
    timelines are sorted newest first. *)
Definition storeStamped (stamp : string -> Z) (timelines : Timelines) : Prop :=
  forall key refs filter urls,
    timelines !! key = Some (Single refs filter urls) ->
    Forall (fun ref : TTimelineRef => ref.2 = stamp ref.1) refs.

Definition clientCoherent (stamp : string -> Z) (c : ClientState) : Prop :=
  storeSorted (timelines c) /\
  storeStamped stamp (timelines c) /\
  Forall (fun entry : string * option NEvent =>
            forall evt, entry.2 = Some evt -> created_at evt = stamp entry.1)
         (lru_entries (eventCacheMap c)).

(** Modelled from the spec: ['@/lib/event'] is not among the source files.
    Replaceable kinds are profile metadata (0), follow lists (3), relay lists
    and the other kinds from 10000 up to 20000, and the parameterized kinds
    from 30000 up to 40000, which carry a [d] tag; the coordinate is the tuple
    (kind, pubkey, d), written [kind:pubkey:d]; of two events of a coordinate
    the one with the higher [created_at] is retained, a tie going to the lower
    id.  The examples below run the service on this implementation. *)
Definition dTag (evt : NEvent) : string :=
  match List.find (fun tag => bool_decide (head tag = Some "d")) (tags evt) with
  | Some tag => default "" (tag !! 1%nat)
  | None => ""
  end.

#[local] Instance sampleLib : EventLib := {|
  isReplaceableEvent k :=
    (k =? 0) || (k =? 3) || ((10000 <=? k) && (k <? 20000)) || ((30000 <=? k) && (k <? 40000));
  getReplaceableCoordinateFromEvent evt :=
    pretty (kind evt) +:+ ":" +:+ pubkey evt +:+ ":" +:+ dTag evt;
  compareEvents a b :=
    if created_at a =? created_at b
    then (if bool_decide (id a = id b) then 0 else if String.ltb (id a) (id b) then 1 else -1)
    else created_at a - created_at b
|}.

(** A client that has subscribed a timeline and received one event before
    the end of stored events. *)
Definition oneNoteClient : ClientState :=
  setTimelines (finalize "k" notesFilter ["wss://r/"] [note idA 100])
               (addEventToCache (note idA 100) initialClient).

(** The two events the examples know, by id. *)
Definition sampleStamp (key : string) : Z :=
  if bool_decide (key = idA) then 100 else if bool_decide (key = idD) then 50 else 0.

(** A relay that stores one older event. *)
Definition sampleQuery (urls : list string) (filter : TSubRequestFilter) (until : Z) (lim : nat)
  : list NEvent :=
  List.filter (fun evt => created_at evt <=? until) [note idD 50].

(** A load-more that overlaps a refresh of the list.  The feed holds one
    reference; a first call of [_loadMoreTimeline] captures the array and
    awaits its events; the feed is subscribed once more and reaches its end of
    stored events with one newer event, which assigns [timeline.refs] a new
    array (line 652); a second call of [_loadMoreTimeline] runs from its
    beginning to its end and pushes two older events; then the events of the
    first call arrive, the same two: its guard reads the array it captured,
    whose last reference is still the old one, and both are pushed again. *)
Definition overlappingWrites : list timelineWrite :=
  [WEose "k" notesFilter ["wss://r/"] [note idA 100];
   WEose "k" notesFilter ["wss://r/"] [note idE 200];
   WLoadMore "k" [(idE, 200); (idA, 100)] 2 [note idB 80; note idD 50] 1000;
   WLoadMore "k" [(idA, 100)] 2 [note idB 80; note idD 50] 1000].

(** The client after these writes, with the four events in its cache. *)
Definition overlappedClient : ClientState :=
  setTimelines (fun _ => foldl applyWrite ∅ overlappingWrites)
    (foldl (fun c evt => addEventToCache evt c) initialClient
           [note idE 200; note idA 100; note idB 80; note idD 50]).



(** Two filters that differ in the order of an array only. *)
Definition notesAndReposts : Filter :=
  [("kinds", Arr [SNum 1; SNum 6]); ("limit", Scalar (SNum 10))].
Definition repostsAndNotes : Filter :=
  [("kinds", Arr [SNum 6; SNum 1]); ("limit", Scalar (SNum 10))].

(** The sub-timelines that have told the aggregator of their EOSE, one entry
    per report, and the [eosed] flags [onEvents] was called with. *)
Definition eosedReports (n : nat) (inputs : list aggregatorInput) : list nat :=
  omap (fun x => match x with
                 | SubEvents i _ true => if (i <? n)%nat then Some i else None
                 | _ => None
                 end) inputs.

Definition onEventsFlags (calls : list timelineCall) : list bool :=
  omap (fun c => match c with onEvents _ eosed => Some eosed | _ => None end) calls.


Definition hasCloser (inputs : list aggregatorInput) : bool :=
  existsb (fun x => match x with Closer => true | _ => false end) inputs.

(** The claim about the quorum, in its own words: a delivery from a
    sub-timeline calls [onEvents] exactly when the number of sub-timelines
    that have reached EOSE is at least [floor (n / 2)], with
    [eosed = (reached >= n)]; nothing else calls it. *)
Definition quorumFlags (n reached : nat) (x : aggregatorInput) : list bool :=
  match x with
  | SubEvents i _ _ =>
      if (i <? n)%nat && (n / 2 <=? reached)%nat then [(n <=? reached)%nat] else []
  | _ => []
  end.

(** The flags [oneose] was called with, in order. *)
Definition eoseFlags (calls : list subscribeCall) : list bool :=
  omap (fun c => match c with oneose eosed => Some eosed | _ => None end) calls.

(** [true] is at most the last flag of a list. *)
Definition trueAtEnd (flags : list bool) : Prop :=
  forall i, flags !! i = Some true -> length flags = S i.

(** How many of the flags are [true]. *)
Definition trueCount (flags : list bool) : nat :=
  length (List.filter (fun b : bool => b) flags).

(** The [eosed] flags sub-timeline [i] handed to the aggregator. *)
Definition subFlags (i : nat) (inputs : list aggregatorInput) : list bool :=
  omap (fun x => match x with
                 | SubEvents j _ eosed => if bool_decide (j = i) then Some eosed else None
                 | _ => None
                 end) inputs.

(** What the counters of a subscription mean at every moment of a run. *)
Definition subInv (s : Subscription) (calls : list subscribeCall) : Prop :=
  startedCount s = length (subPromises s) /\
  Forall (fun r => rs_status r = Connecting -> rs_eosed r = false) (subPromises s) /\
  if eosed s
  then doneCount s = length (subPromises s) /\ eoseTrueCalls calls = 1%nat
  else eosedCount s = doneCount s /\
       (subPromises s <> [] -> (doneCount s < length (subPromises s))%nat) /\
       eoseTrueCalls calls = 0%nat.

(** What [settled] holds after the chains in [done] have ended, in closed
    form. *)
Definition expectedSettled (n : nat) (done : list (string * publishOutcome))
  : option publishResult :=
  match done with
  | [] => None
  | _ =>
      if (n <=? 3 * acks done)%nat then Some Resolved
      else if (n <=? length done)%nat then Some (Rejected (errorLine <$> failures done))
      else None
  end.



(** * More of the service

    The rest of this part embeds functions of [ClientService] beside the ones
    above, and the observations the further properties are stated with. *)

(** ** Timeline keys, continued *)

(** Whether a character occurs in a string. *)
Fixpoint hasChar (c : ascii) (s : string) : bool :=
  match s with
  | EmptyString => false
  | String c' s' => bool_decide (c' = c) || hasChar c s'
  end.

(** Two spellings of one request: the relay urls and the fields of the filter
    in another order. *)
Definition damusAndNos : list string := ["wss://relay.damus.io/"; "wss://nos.lol/"].
Definition nosAndDamus : list string := ["wss://nos.lol/"; "wss://relay.damus.io/"].
Definition limitThenKinds : Filter :=
  [("limit", Scalar (SNum 10)); ("kinds", Arr [SNum 1; SNum 6])].

(** ** Queries ([query], lines 732-751; [fetchEvents], lines 753-772)

    [query] subscribes, collects what [onevent] delivers and resolves its
    promise with the array [events] at the end of stored events, after closing
    the subscription, or as soon as a relay closes.  The promise is resolved
    with the array itself, which [onevent] goes on pushing to. *)

Record Query := {
  q_sub : Subscription;      (* [sub] *)
  q_events : list NEvent;    (* [events] *)
  q_resolved : bool          (* [resolve(events)] has run *)
}.

(** The callbacks [query] hands to [subscribe]; it hands over no
    [onAllClose] and no [startLogin]. *)
Definition q_call (q : Query) (c : subscribeCall) : Query :=
  match c with
  | onevent evt =>
      {| q_sub := q_sub q; q_events := q_events q ++ [evt]; q_resolved := q_resolved q |}
  | oneose true =>
      {| q_sub := close (q_sub q); q_events := q_events q; q_resolved := true |}
  | oneose false => q
  | onclose _ _ =>
      {| q_sub := q_sub q; q_events := q_events q; q_resolved := true |}
  | onAllClose _ | startLogin => q
  end.

Section Query.
Variable matchFilters : NEvent -> bool.

Definition query (urls : list string) : Query :=
  {| q_sub := subscribe urls; q_events := []; q_resolved := false |}.

(** One turn of the event loop.  The subscription is not handed out of
    [query]: nothing but [oneose] closes it. *)
Definition q_step (q : Query) (x : transportInput) : Query * list subscribeCall :=
  match x with
  | Close => (q, [])
  | _ =>
      let '(s, out) := step matchFilters false (q_sub q) x in
      (foldl q_call {| q_sub := s; q_events := q_events q; q_resolved := q_resolved q |} out,
       out)
  end.

Definition q_run (q : Query) (inputs : list transportInput) : Query * list subscribeCall :=
  foldl (fun '(q, calls) x => let '(q', out) := q_step q x in (q', calls ++ out)) (q, []) inputs.

(** The relays [fetchEvents] queries:
    [relays.length > 0 ? relays : BIG_RELAY_URLS]. *)
Definition fetchEventsRelays (urls : list string) : list string :=
  match dedupe urls with
  | [] => BIG_RELAY_URLS
  | relays => relays
  end.
End Query.

(** The events [onevent] was called with, in order, and the calls that
    resolve a query. *)
Definition deliveredEvents (calls : list subscribeCall) : list NEvent :=
  omap (fun c => match c with onevent evt => Some evt | _ => None end) calls.

Definition resolves (c : subscribeCall) : bool :=
  match c with
  | oneose true | onclose _ _ => true
  | _ => false
  end.

(** A subscription that has been closed at its end of stored events: no
    sub-subscription is open or will be left open. *)
Definition closedAtEose (s : Subscription) : Prop :=
  eosed s = true /\ listening s = false /\
  Forall (fun r => rs_status r <> Opened /\
                   (rs_status r = Connecting -> rs_closeRequested r = true))
         (subPromises s).

(** ** Fetching single events ([tryHarderToFetchEvent], lines 909-926;
    [fetchEventsFromBigRelays], lines 928-944) *)

(** [obj[key]] *)
Definition field {V} (key : string) (obj : list (string * V)) : option V :=
  snd <$> List.find (fun entry => bool_decide (entry.1 = key)) obj.

(** [filter.authors]; it is a [string[]] by its type. *)
Definition filterAuthors (filter : Filter) : list string :=
  match field "authors" filter with
  | Some (Arr vs) => omap (fun v => match v with SStr s => Some s | SNum _ => None end) vs
  | _ => []
  end.

Section FetchEvent.
Variable getRelayListFromEvent : NEvent -> TRelayList.
Variable getManyReplaceableEvents : list string -> Z -> list storedEvent.
Variable loadManyFromBigRelays : list (string * Z) -> list loadedEvent.
(** What [query(urls, filter)] resolves with. *)
Variable queryResult : list string -> Filter -> list NEvent.

(** The relays [tryHarderToFetchEvent] ends up asking.  [None] is the
    [TypeError] of [relayList.write] on an [undefined] relay list. *)
Definition tryHarderRelays (relayUrls : list string) (filter : Filter)
    (alreadyFetchedFromBigRelays : bool) : option (list string) :=
  match relayUrls, filterAuthors filter with
  | [], author :: _ =>
      match fetchRelayList getRelayListFromEvent getManyReplaceableEvents
                           loadManyFromBigRelays author with
      | Some relayList =>
          Some (if alreadyFetchedFromBigRelays
                then slice0 4 (List.filter (fun url => negb (bool_decide (url ∈ BIG_RELAY_URLS)))
                                           (write relayList))
                else slice0 4 (write relayList))
      | None => None
      end
  | [], [] => Some (if alreadyFetchedFromBigRelays then [] else BIG_RELAY_URLS)
  | _, _ => Some relayUrls
  end.

(** [tryHarderToFetchEvent]: the inner [None] is [undefined]. *)
Definition tryHarderToFetchEvent (relayUrls : list string) (filter : Filter)
    (alreadyFetchedFromBigRelays : bool) : option (option NEvent) :=
  match tryHarderRelays relayUrls filter alreadyFetchedFromBigRelays with
  | None => None
  | Some [] => Some None
  | Some urls => Some (head (sortByCreatedAtDesc (queryResult urls filter)))
  end.

(** The filter [fetchEventsFromBigRelays] queries with. *)
Definition idsFilter (ids : list string) : Filter :=
  [("ids", Arr (SStr <$> dedupe ids)); ("limit", Scalar (SNum (Z.of_nat (length ids))))].

(** The batch function of [fetchEventFromBigRelaysDataloader]: one answer
    per id, [None] for [undefined]. *)
Definition fetchEventsFromBigRelays (ids : list string) : list (option NEvent) :=
  let events := queryResult BIG_RELAY_URLS (idsFilter ids) in
  let eventsMap : gmap string NEvent :=
    foldl (fun m event => <[id event := event]> m) ∅ events in
  (fun key => eventsMap !! key) <$> ids.
End FetchEvent.

(** ** Publishing, continued *)

(** A chain that ended before its [.finally] was attached. *)
Definition isEnsureRelayFailed (d : string * publishOutcome) : bool :=
  match d.2 with EnsureRelayFailed => true | _ => false end.

(** A chain that ends with an acknowledgement at the retry: the rejection
    was [auth-required], a signer is set, and
    [relay.auth(...).then(() => relay.publish(event))] resolves.  No
    [successCount++] stands on this path (lines 182-184). *)
Definition isRetryAck (signer : bool) (d : string * publishOutcome) : bool :=
  match d.2 with
  | PublishRejected isError message retried =>
      isError && startsWith "auth-required" message && signer && retried
  | _ => false
  end.

(** The relays that acknowledged the event, at the first attempt or at the
    retry. *)
Definition acknowledgements (signer : bool) (done : list (string * publishOutcome)) : nat :=
  length (List.filter (fun d => isPublished d || isRetryAck signer d) done).

(** Whether the quorum of counted acknowledgements is reached once the first
    [k] chains have ended. *)
Definition quorumAt (n : nat) (done : list (string * publishOutcome)) (k : nat) : bool :=
  (n <=? 3 * acks (take k done))%nat.

(** Whether chain [k] runs its [.finally] with the quorum reached, and the
    number of chains that do. *)
Definition emitsAt (n : nat) (done : list (string * publishOutcome)) (k : nat) : bool :=
  match done !! k with
  | Some d => negb (isEnsureRelayFailed d) && quorumAt n done (S k)
  | None => false
  end.

Definition expectedEmits (n : nat) (done : list (string * publishOutcome)) : nat :=
  length (List.filter (emitsAt n done) (seq 0 (length done))).

(** ** What the timeline callbacks are called with *)

(** The lists [onEvents] was called with and the events [onNew] was called
    with, in order. *)
Definition onEventsLists (calls : list timelineCall) : list (list NEvent) :=
  omap (fun c => match c with onEvents events _ => Some events | _ => None end) calls.

Definition onNewEvents (calls : list timelineCall) : list NEvent :=
  omap (fun c => match c with onNew evt => Some evt | _ => None end) calls.

(** What the aggregator keeps between deliveries: the merged list is ordered
    newest first and holds no id twice, every id of it is in the id set, and
    it is no longer than the largest limit of the sub-requests. *)
Definition mergedInv (a : Aggregator) : Prop :=
  NoDup (id <$> ag_events a) /\ newestFirst (ag_events a) /\
  (forall evt, evt ∈ ag_events a -> id evt ∈ ag_eventIdSet a) /\
  (length (ag_events a) <= max_list (ag_limits a))%nat.

(** ** Where events were seen (lines 707-730)

    [pool.seenOn] maps an event id to the set of relay objects the event was
    seen on.  A relay object is a reference, and a set of them the list of its
    members in the order they were added. *)

Abbreviation SeenOn := (gmap string (list nat)).

(** [set.add(relay)] *)
Definition setAdd {A} `{EqDecision A} (x : A) (set : list A) : list A :=
  if bool_decide (x ∈ set) then set else set ++ [x].

Definition trackEventSeenOn (eventId : string) (relay : nat) (seenOn : SeenOn) : SeenOn :=
  <[eventId := setAdd relay (default [] (seenOn !! eventId))]> seenOn.

Definition getSeenEventRelays (eventId : string) (seenOn : SeenOn) : list nat :=
  default [] (seenOn !! eventId).

Section SeenOn.
(** [relay.url], and [isLocalNetworkUrl] of ['@/lib/url']. *)
Variable relayUrl : nat -> string.
Variable isLocalNetworkUrl : string -> bool.

Definition getSeenEventRelayUrls (eventId : string) (seenOn : SeenOn) : list string :=
  relayUrl <$> getSeenEventRelays eventId seenOn.

Definition getEventHints (eventId : string) (seenOn : SeenOn) : list string :=
  List.filter (fun url => negb (isLocalNetworkUrl url)) (getSeenEventRelayUrls eventId seenOn).

Definition getEventHint (eventId : string) (seenOn : SeenOn) : string :=
  default "" (List.find (fun url => negb (isLocalNetworkUrl url))
                        (getSeenEventRelayUrls eventId seenOn)).
End SeenOn.

(** ** Choosing the relays to publish to ([determineTargetRelays], lines 97-156) *)

(** [kinds] of nostr-tools and [ExtendedKind] of the constants. *)
Definition ReportKind : Z := 1984.
Definition ContactsKind : Z := 3.
Definition MutelistKind : Z := 10000.
Definition FAVORITE_RELAYS : Z := 10012.
Definition BLOSSOM_SERVER_LIST : Z := 10063.
Definition RELAY_REVIEW : Z := 31987.

(** [TPublishOptions]; [None] is an option that is not given. *)
Record TPublishOptions := {
  specifiedRelayUrls : option (list string);
  additionalRelayUrls : option (list string)
}.

Section TargetRelays.
Variable getRelayListFromEvent : NEvent -> TRelayList.
Variable getManyReplaceableEvents : list string -> Z -> list storedEvent.
Variable loadManyFromBigRelays : list (string * Z) -> list loadedEvent.
Variable relayUrl : nat -> string.
(** [tagNameEquals] of ['@/lib/tag'] and [isValidPubkey] of ['@/lib/pubkey']. *)
Variable tagNameEquals : string -> list string -> bool.
Variable isValidPubkey : string -> bool.

(** The loop over [event.tags] that collects the mentioned public keys. *)
Definition mentionsOf (tags : list (list string)) : list string :=
  foldl (fun mentions tag =>
           match tag with
           | tagName :: tagValue :: _ =>
               if (bool_decide (tagName = "p") || bool_decide (tagName = "P"))
                  && negb (bool_decide (tagValue = ""))
                  && isValidPubkey tagValue
                  && negb (bool_decide (tagValue ∈ mentions))
               then mentions ++ [tagValue]
               else mentions
           | _ => mentions
           end) [] tags.

(** [event.tags.find(tagNameEquals('e'))?.[1]], when it is truthy. *)
Definition reportTarget (event : NEvent) : option string :=
  match List.find (tagNameEquals "e") (tags event) with
  | Some tag =>
      match tag !! 1%nat with
      | Some targetEventId => if bool_decide (targetEventId = "") then None else Some targetEventId
      | None => None
      end
  | None => None
  end.

(** What is appended to [_additionalRelayUrls]. *)
Definition mentionRelays (event : NEvent) : list string :=
  if bool_decide (kind event = ContactsKind) || bool_decide (kind event = MutelistKind) then []
  else
    match mentionsOf (tags event) with
    | [] => []
    | mentions =>
        mjoin ((fun relayList => slice0 4 (read relayList)) <$>
               fetchRelayLists getRelayListFromEvent getManyReplaceableEvents
                               loadManyFromBigRelays (slice0 10 mentions))
    end.

Definition bigRelaysFor (event : NEvent) : list string :=
  if bool_decide (kind event ∈ [RelayListKind; ContactsKind; FAVORITE_RELAYS;
                                BLOSSOM_SERVER_LIST; RELAY_REVIEW])
  then BIG_RELAY_URLS else [].

Definition determineTargetRelays (event : NEvent) (options : TPublishOptions) (seenOn : SeenOn)
  : list string :=
  match (if bool_decide (kind event = ReportKind) then reportTarget event else None) with
  | Some targetEventId => getSeenEventRelayUrls relayUrl targetEventId seenOn
  | None =>
      let relays :=
        match specifiedRelayUrls options with
        | Some (url :: urls) => url :: urls
        | _ =>
            let _additionalRelayUrls :=
              default [] (additionalRelayUrls options) ++ mentionRelays event
                ++ bigRelaysFor event in
            let relayList :=
              fetchRelayList getRelayListFromEvent getManyReplaceableEvents
                             loadManyFromBigRelays (pubkey event) in
            default [] ((fun relayList => slice0 10 (write relayList)) <$> relayList)
              ++ dedupe _additionalRelayUrls
        end in
      match relays with
      | [] => BIG_RELAY_URLS
      | _ => relays
      end
  end.
End TargetRelays.

(** The same event with other tags. *)
Definition withTags (tags' : list (list string)) (event : NEvent) : NEvent :=
  {| id := id event; pubkey := pubkey event; created_at := created_at event;
     kind := kind event; tags := tags'; content := content event; sig := sig event |}.

(** ** Batched lookups of replaceable events on the big relays
    ([replaceableEventFromBigRelaysBatchLoadFn], lines 1261-1301) *)

(** [`${pubkey}:${kind}`] *)
Definition bigRelaysKey (pubkey : string) (kind : Z) : string :=
  pubkey +:+ ":" +:+ pretty kind.

(** [if (!groups.has(kind)) groups.set(kind, []); groups.get(kind)!.push(pubkey)]
    on a [Map], which keeps its keys in the order they were first set. *)
Fixpoint groupPush (kind : Z) (pubkey : string) (groups : list (Z * list string))
  : list (Z * list string) :=
  match groups with
  | [] => [(kind, [pubkey])]
  | (k, pubkeys) :: groups' =>
      if bool_decide (k = kind) then (k, pubkeys ++ [pubkey]) :: groups'
      else (k, pubkeys) :: groupPush kind pubkey groups'
  end.

Definition groupByKind (params : list (string * Z)) : list (Z * list string) :=
  foldl (fun groups param => groupPush param.2 param.1 groups) [] params.

(** The filter of the query of one group. *)
Definition authorsKindFilter (pubkeys : list string) (kind : Z) : Filter :=
  [("authors", Arr (SStr <$> pubkeys)); ("kinds", Arr [SNum kind])].

(** What the batch function tells the persistent store. *)
Inductive storeWrite :=
| PutReplaceableEvent (event : NEvent)
| PutNullReplaceableEvent (pubkey : string) (kind : Z).

Section BigRelaysBatch.
Variable queryResult : list string -> Filter -> list NEvent.

(** The events of the groups in [completed], in the order the loops over
    them run: the queries run side by side, and the loop over the events of a
    group runs when its query has resolved. *)
Definition batchDelivered (completed : list (Z * list string)) : list NEvent :=
  mjoin ((fun group => queryResult BIG_RELAY_URLS (authorsKindFilter group.2 group.1))
         <$> completed).

(** [if (!existing || existing.created_at < event.created_at) eventsMap.set(key, event)] *)
Definition keepNewest (eventsMap : gmap string NEvent) (event : NEvent) : gmap string NEvent :=
  let key := bigRelaysKey (pubkey event) (kind event) in
  match eventsMap !! key with
  | Some existing =>
      if created_at existing <? created_at event then <[key := event]> eventsMap else eventsMap
  | None => <[key := event]> eventsMap
  end.

(** The batch function; [completed] lists the groups of [groupByKind params]
    in the order their queries resolved.  [None] in the answer is [null]. *)
Definition replaceableEventFromBigRelaysBatchLoadFn (params : list (string * Z))
    (completed : list (Z * list string)) : list (option NEvent) * list storeWrite :=
  let eventsMap := foldl keepNewest ∅ (batchDelivered completed) in
  let answers := (fun param => eventsMap !! bigRelaysKey param.1 param.2) <$> params in
  (answers,
   (fun param =>
      match eventsMap !! bigRelaysKey param.1 param.2 with
      | Some event => PutReplaceableEvent event
      | None => PutNullReplaceableEvent param.1 param.2
      end) <$> params).
End BigRelaysBatch.

(** ** Favorite relays of the followings ([_fetchFollowingFavoriteRelays],
    lines 952-1001) *)

(** [kinds.Relaysets] of nostr-tools. *)
Definition RelaysetsKind : Z := 30002.

(** The loop that keeps, of the events sorted newest first, the first
    favorite-relays event and the first relay-sets event of every author. *)
Definition keepFirstPerAuthor (acc : gset string * gset string * list NEvent) (event : NEvent)
  : gset string * gset string * list NEvent :=
  let '(favorites, relaySets, uniqueEvents) := acc in
  if bool_decide (kind event = FAVORITE_RELAYS) then
    if bool_decide (pubkey event ∈ favorites) then acc
    else ({[pubkey event]} ∪ favorites, relaySets, uniqueEvents ++ [event])
  else if bool_decide (kind event = RelaysetsKind) then
    if bool_decide (pubkey event ∈ relaySets) then acc
    else (favorites, {[pubkey event]} ∪ relaySets, uniqueEvents ++ [event])
  else acc.

Definition uniqueFavoriteEvents (events : list NEvent) : list NEvent :=
  (foldl keepFirstPerAuthor (∅, ∅, []) (sortByCreatedAtDesc events)).2.

(** [relayMap.set(url, (relayMap.get(url) || new Set()).add(pubkey))] on a
    [Map], which keeps its keys in the order they were first set. *)
Fixpoint relayMapAdd {A} `{EqDecision A} (url : string) (pubkey : A)
    (relayMap : list (string * list A)) : list (string * list A) :=
  match relayMap with
  | [] => [(url, [pubkey])]
  | (u, pubkeys) :: relayMap' =>
      if bool_decide (u = url) then (u, setAdd pubkey pubkeys) :: relayMap'
      else (u, pubkeys) :: relayMapAdd url pubkey relayMap'
  end.

Section FavoriteRelays.
(** [isWebsocketUrl] and [normalizeUrl] of ['@/lib/url']. *)
Variable isWebsocketUrl : string -> bool.
Variable normalizeUrl : string -> string.

(** The relay a tag names, if it names one. *)
Definition relayOfTag (tag : list string) : option string :=
  match tag with
  | tagName :: tagValue :: _ =>
      if bool_decide (tagName = "relay") && negb (bool_decide (tagValue = ""))
         && isWebsocketUrl tagValue
      then Some (normalizeUrl tagValue) else None
  | _ => None
  end.

Definition favoriteRelayMap (uniqueEvents : list NEvent) : list (string * list string) :=
  foldl (fun relayMap event =>
           foldl (fun relayMap tag =>
                    match relayOfTag tag with
                    | Some url => relayMapAdd url (pubkey event) relayMap
                    | None => relayMap
                    end) relayMap (tags event))
        [] uniqueEvents.

(** [fetchNewData] from the events [fetchEvents] resolved with: the relays
    with the authors that list them, the most listed first. *)
Definition fetchNewData (events : list NEvent) : list (string * list string) :=
  sortWith (fun a b : string * list string => (length b.2 <? length a.2)%nat)
           (favoriteRelayMap (uniqueFavoriteEvents events)).

(** [_fetchFollowingFavoriteRelays]: a stored answer is given at once, and
    refreshed behind the caller's back. *)
Definition _fetchFollowingFavoriteRelays (cached : option (list (string * list string)))
    (events : list NEvent) : list (string * list string) :=
  match cached with
  | Some relayMapEntries => relayMapEntries
  | None => fetchNewData events
  end.
End FavoriteRelays.



(** What a relay map holds: every relay once, with the authors that list
    it, each once. *)
Definition relayMapOk {A} (relayMap : list (string * list A)) : Prop :=
  NoDup relayMap.*1 /\
  Forall (fun entry : string * list A => NoDup entry.2 /\ entry.2 <> []) relayMap.

(** ** Warming up the user index ([initUserIndexFromFollowings], lines
    1005-1014) *)

(** [.slice(from, to)] *)
Definition slice {A} (from to : nat) (l : list A) : list A := take (to - from) (drop from l).

(** The batches of followings whose profiles are fetched, one batch per turn
    of the loop; [aborted i] is [signal.aborted] when turn [i] begins. *)
Equations? batchesFrom (aborted : nat -> bool) (followings : list string) (i : nat)
  : list (list string) by wf (length followings - i * 20)%nat lt :=
  batchesFrom aborted followings i with decide (i * 20 < length followings)%nat => {
    | right _ => [];
    | left _ with aborted i => {
        | true => [];
        | false =>
            slice (i * 20) ((i + 1) * 20) followings :: batchesFrom aborted followings (S i) } }.
Proof. lia. Qed.

Definition initUserIndexFromFollowings (aborted : nat -> bool) (followings : list string)
  : list (list string) := batchesFrom aborted followings 0.

(** ** Sub-requests of a feed of authors ([generateSubRequestsForPubkeys],
    lines 1480-1526)

    [group] is an object keyed by relay url; relay urls are not array
    indices, so its keys stay in the order they were first set.  A member of
    a set of authors is [pubkeys[index]], which is [undefined], here [None],
    past the end of [pubkeys]. *)

Abbreviation AuthorGroup := (list (string * list (option string))).

(** One request: the relay urls and the authors of its filter. *)
Definition SubRequest : Type := list string * list (option string).

(** The first loop: every author under each of the first four write relays. *)
Definition groupByWriteRelay (pubkeys : list string) (relayLists : list TRelayList)
  : AuthorGroup :=
  foldl (fun group ir =>
           foldl (fun group url => relayMapAdd url (pubkeys !! ir.1) group)
                 group (slice0 4 (write ir.2)))
        [] (imap (fun index relayList => (index, relayList)) relayLists).

(** [coveredCount.set(pubkey, (coveredCount.get(pubkey) ?? 0) + 1)] *)
Definition coverOnce (coveredCount : gmap (option string) nat) (author : option string)
  : gmap (option string) nat :=
  <[author := S (default 0%nat (coveredCount !! author))]> coveredCount.

(** One turn of the second loop, over the relays sorted by the number of
    their authors: a relay with fewer than ten authors, all of them covered
    twice already, is deleted from [group] when there are more than ten
    relays. *)
Definition pruneStep (relayCount : nat)
    (acc : AuthorGroup * gmap (option string) nat) (entry : string * list (option string))
  : AuthorGroup * gmap (option string) nat :=
  let '(group, coveredCount) := acc in
  if (10 <? relayCount)%nat && (length entry.2 <? 10)%nat
     && forallb (fun author => (2 <=? default 0%nat (coveredCount !! author))%nat) entry.2
  then (List.filter (fun e : string * list (option string) => negb (bool_decide (e.1 = entry.1)))
                    group,
        coveredCount)
  else (group, foldl coverOnce coveredCount entry.2).

Definition pruneGroup (group : AuthorGroup) : AuthorGroup :=
  (foldl (pruneStep (length group)) (group, ∅)
         (sortWith (fun a b : string * list (option string) => (length b.2 <? length a.2)%nat)
                   group)).1.

Section SubRequests.
Variable getRelayListFromEvent : NEvent -> TRelayList.
Variable getManyReplaceableEvents : list string -> Z -> list storedEvent.
Variable loadManyFromBigRelays : list (string * Z) -> list loadedEvent.
(** [isSafari()] of ['@/lib/utils'] *)
Variable isSafari : bool.

(** [None] is the [TypeError] of [relayList.read] on an [undefined] relay
    list. *)
Definition generateSubRequestsForPubkeys (pubkeys : list string) (myPubkey : option string)
  : option (list SubRequest) :=
  if isSafari then
    match myPubkey with
    | Some (String c rest as pk) =>
        match fetchRelayList getRelayListFromEvent getManyReplaceableEvents
                             loadManyFromBigRelays pk with
        | Some relayList =>
            Some [(slice0 5 (read relayList ++ BIG_RELAY_URLS), Some <$> pubkeys)]
        | None => None
        end
    | _ => Some [(BIG_RELAY_URLS, Some <$> pubkeys)]
    end
  else
    let relayLists := fetchRelayLists getRelayListFromEvent getManyReplaceableEvents
                                      loadManyFromBigRelays pubkeys in
    Some ((fun entry : string * list (option string) => ([entry.1], entry.2))
          <$> pruneGroup (groupByWriteRelay pubkeys relayLists)).

(** [generateSubRequestsForDomains] from the members of the domains, once
    they are fetched; a failure answers with no request. *)
Definition generateSubRequestsForDomains (membersArrays : list (list string))
    (myPubkey : option string) : list SubRequest :=
  match dedupe (mjoin membersArrays) with
  | [] => []
  | allMembers => default [] (generateSubRequestsForPubkeys allMembers myPubkey)
  end.
End SubRequests.

(** The requests that ask for an author. *)
Definition requestsOf (author : option string) (requests : AuthorGroup) : AuthorGroup :=
  List.filter (fun entry : string * list (option string) => bool_decide (author ∈ entry.2))
              requests.

(** ** Sub-subscriptions started again after authentication *)

(** What [hasAuthed] guards: the urls of the sub-subscriptions are the
    relays of the call followed by the urls started again, each of them once
    and only after its authentication; and no authentication is under way for
    a url that has authenticated. *)
Definition authInv (s : Subscription) : Prop :=
  exists again : list string,
    rs_url <$> subPromises s = relays s ++ again /\
    NoDup (relays s) /\ NoDup again /\
    (forall url, url ∈ again -> url ∈ hasAuthed s /\ url ∈ relays s) /\
    (forall i r, subPromises s !! i = Some r -> rs_authPending r = true ->
                 rs_url r ∉ hasAuthed s) /\
    startedCount s = length (subPromises s).

(** * Properties *)

(** ** Runs of the subscription machine *)

Section SubscribeFacts.
Variable matchFilters : NEvent -> bool.
Variable hasStartLogin : bool.

Abbreviation sstep := (step matchFilters hasStartLogin).
Abbreviation srun := (run matchFilters hasStartLogin).

Lemma run_nil s : srun s [] = (s, []).
Proof. reflexivity. Qed.

Lemma run_snoc s inputs x :
  srun s (inputs ++ [x]) =
  let '(s', calls) := srun s inputs in
  let '(s'', out) := sstep s' x in (s'', calls ++ out).
Proof.
  unfold run. rewrite foldl_app. simpl.
  by destruct (foldl _ _ inputs).
Qed.

(** Induction over the runs that start in [s0]. *)
Lemma run_ind (s0 : Subscription) (P : Subscription -> list subscribeCall -> Prop) :
  P s0 [] ->
  (forall s calls x s' out, P s calls -> sstep s x = (s', out) -> P s' (calls ++ out)) ->
  forall inputs, P (srun s0 inputs).1 (srun s0 inputs).2.
Proof.
  intros Hinit Hstep inputs.
  induction inputs as [|x inputs IH] using rev_ind; [exact Hinit|].
  rewrite run_snoc. destruct (srun s0 inputs) as [s calls].
  destruct (sstep s x) as [s' out] eqn:Hs. simpl in *. eauto.
Qed.

Lemma deliveredIds_app c1 c2 : deliveredIds (c1 ++ c2) = deliveredIds c1 ++ deliveredIds c2.
Proof. apply omap_app. Qed.

Lemma alreadyHaveEvent_spec key s have s' :
  alreadyHaveEvent key s = (have, s') ->
  (have = true <-> key ∈ _knownIds s) /\ _knownIds s' = {[key]} ∪ _knownIds s.
Proof.
  unfold alreadyHaveEvent. case_bool_decide; intros ?; simplify_eq; simpl.
  - split; [tauto | set_solver].
  - split; [split; [discriminate | tauto] | reflexivity].
Qed.

Lemma countEose_knownIds s : _knownIds (countEose s).1 = _knownIds s.
Proof. unfold countEose. destruct (eosed s); reflexivity. Qed.

Lemma countEose_deliveredIds s : deliveredIds (countEose s).2 = [].
Proof. unfold countEose. destruct (eosed s); reflexivity. Qed.

(** A step delivers at most one event, and only one whose id it has just
    added to [_knownIds]. *)
Lemma step_delivered s x s' out :
  sstep s x = (s', out) ->
  _knownIds s ⊆ _knownIds s' /\
  (deliveredIds out = [] \/
   exists key, deliveredIds out = [key] /\ (key ∉ _knownIds s) /\ key ∈ _knownIds s').
Proof.
  destruct x; simpl; intros Hstep.
  - repeat case_match; simplify_eq; try (split; [set_solver | by left]).
    match goal with H : countEose ?t = _ |- _ =>
      pose proof (countEose_knownIds t) as Hk; pose proof (countEose_deliveredIds t) as Hd;
      rewrite H in Hk, Hd end.
    simpl in *. split; [set_solver | by left].
  - repeat case_match; simplify_eq; split; try set_solver; by left.
  - repeat case_match; simplify_eq; try (split; [set_solver | by left]).
    all: match goal with H : alreadyHaveEvent _ _ = (?have, _) |- _ =>
           apply alreadyHaveEvent_spec in H as [Hhave Hk]; try (is_var have; destruct have) end.
    all: simpl; split; [set_solver|]; try by left.
    all: right; eexists; split; [reflexivity|].
    all: split; [intros Hin; apply Hhave in Hin; discriminate | set_solver].
  - repeat case_match; simplify_eq; try (split; [set_solver | by left]).
    match goal with H : countEose ?t = _ |- _ =>
      pose proof (countEose_knownIds t) as Hk; pose proof (countEose_deliveredIds t) as Hd;
      rewrite H in Hk, Hd end.
    simpl in *. split; [set_solver | by left].
  - unfold handleClose in Hstep.
    repeat case_match; simplify_eq; simpl; split; try set_solver; by left.
  - unfold authSucceeded, startSub in Hstep.
    repeat case_match; simplify_eq; simpl; split; try set_solver; by left.
  - repeat case_match; simplify_eq; try (split; [set_solver | by left]).
    all: match goal with H : alreadyHaveEvent _ _ = (?have, _) |- _ =>
           apply alreadyHaveEvent_spec in H as [Hhave Hk]; try (is_var have; destruct have) end.
    all: simpl; split; [set_solver|]; try by left.
    all: right; eexists; split; [reflexivity|].
    all: split; [intros Hin; apply Hhave in Hin; discriminate | set_solver].
  - simplify_eq. simpl. split; [set_solver | by left].
Qed.

Lemma run_delivered_known s0 inputs :
  let r := srun s0 inputs in
  (forall key, key ∈ deliveredIds r.2 -> key ∈ _knownIds r.1) /\ NoDup (deliveredIds r.2).
Proof.
  simpl. apply (run_ind s0 (fun s calls =>
    (forall key, key ∈ deliveredIds calls -> key ∈ _knownIds s) /\ NoDup (deliveredIds calls))).
  - split; [intros key Hin; inversion Hin | constructor].
  - intros s calls x s' out [Hknown Hnodup] Hstep.
    apply step_delivered in Hstep as [Hsub Hout].
    rewrite deliveredIds_app.
    destruct Hout as [-> | (key & -> & Hfresh & Hadded)].
    + rewrite app_nil_r. split; [|done]. intros key Hin. apply Hsub, Hknown, Hin.
    + split.
      * intros k [Hin | Hin]%elem_of_app; [apply Hsub, Hknown, Hin|].
        apply list_elem_of_singleton in Hin as ->. done.
      * apply NoDup_app. split; [done|]. split; [|apply NoDup_singleton].
        intros k Hin Hk. apply list_elem_of_singleton in Hk as ->.
        apply Hfresh, Hknown, Hin.
Qed.
End SubscribeFacts.

(** ** End of stored events across relays *)

Lemma filter_length_insert {A} (f : A -> bool) (l : list A) i x y :
  l !! i = Some x ->
  (length (List.filter f (<[i := y]> l)) + (if f x then 1 else 0) =
   length (List.filter f l) + (if f y then 1 else 0))%nat.
Proof.
  revert i. induction l as [|a l IH]; intros [|i] Hl; simplify_eq/=.
  - destruct (f x), (f y); simpl; lia.
  - specialize (IH _ Hl). destruct (f a); simpl; lia.
Qed.

Lemma filter_length_le {A} (f : A -> bool) (l : list A) :
  (length (List.filter f l) <= length l)%nat.
Proof. induction l as [|a l IH]; simpl; [lia|]. destruct (f a); simpl; lia. Qed.

Lemma filter_length_all {A} (f : A -> bool) (l : list A) x :
  length (List.filter f l) = length l -> x ∈ l -> f x = true.
Proof.
  induction l as [|a l IH]; intros Hlen Hin; [inversion Hin|].
  simpl in Hlen. pose proof (filter_length_le f l).
  destruct (f a) eqn:Hfa; simpl in Hlen; [|lia].
  apply elem_of_cons in Hin as [-> | Hin]; [done|]. apply IH; [lia | done].
Qed.

Lemma reachedEose_releaseSub r : reachedEose (releaseSub r) = reachedEose r.
Proof. unfold releaseSub, reachedEose. by destruct r as [? [] ? ? ?]. Qed.

Lemma filter_length_fmap {A} (f : A -> bool) (g : A -> A) (l : list A) :
  (forall x, f (g x) = f x) ->
  length (List.filter f (g <$> l)) = length (List.filter f l).
Proof.
  intros Hfg. induction l as [|a l IH]; csimpl; [done|].
  rewrite Hfg. destruct (f a); csimpl; rewrite ?IH; done.
Qed.

Lemma eoseTrueCalls_app c1 c2 :
  eoseTrueCalls (c1 ++ c2) = (eoseTrueCalls c1 + eoseTrueCalls c2)%nat.
Proof. unfold eoseTrueCalls. by rewrite List.filter_app, length_app. Qed.

Lemma subscribe_fold urls s :
  let s' := foldl (fun s url => startSub url s) s urls in
  startedCount s' = (startedCount s + length urls)%nat /\
  subPromises s' = subPromises s ++
    ((fun url => {| rs_url := url; rs_status := Connecting; rs_eosed := false;
                    rs_closeRequested := false; rs_authPending := false |}) <$> urls) /\
  eosed s' = eosed s /\ eosedCount s' = eosedCount s.
Proof.
  revert s. induction urls as [|u urls IH]; intros s; simpl.
  - rewrite app_nil_r. split_and!; try done; lia.
  - destruct (IH (startSub u s)) as (-> & -> & -> & ->). simpl.
    rewrite <- app_assoc. split_and!; try done; lia.
Qed.

Lemma subInv_subscribe urls : subInv (subscribe urls) [].
Proof.
  unfold subInv, subscribe.
  match goal with |- context [foldl ?f ?s0 ?l] => destruct (subscribe_fold l s0) as (Hs & Hp & He & Hc) end.
  rewrite Hs, He, Hp, Hc. simpl. unfold doneCount. rewrite Hp. simpl.
  set (l := dedupe urls). clearbody l. clear.
  assert (List.filter reachedEose
            ((λ url : string, {| rs_url := url; rs_status := Connecting; rs_eosed := false;
                                 rs_closeRequested := false; rs_authPending := false |}) <$> l) = []) as ->.
  { induction l; simpl; auto. }
  rewrite length_fmap. split_and!; auto.
  - apply Forall_fmap, Forall_forall. intros x _ _. reflexivity.
  - intros Hne. destruct l; simpl in *; [done | lia].
Qed.

Lemma done_insert_same (l : list RelaySub) i r r' :
  l !! i = Some r -> reachedEose r' = reachedEose r ->
  length (List.filter reachedEose (<[i := r']> l)) = length (List.filter reachedEose l).
Proof.
  intros Hl Heq. pose proof (filter_length_insert reachedEose l i r r' Hl) as Hins.
  rewrite Heq in Hins. destruct (reachedEose r); lia.
Qed.

Lemma done_insert_new (l : list RelaySub) i r r' :
  l !! i = Some r -> reachedEose r = false -> reachedEose r' = true ->
  length (List.filter reachedEose (<[i := r']> l)) = S (length (List.filter reachedEose l)).
Proof.
  intros Hl Hr Hr'. pose proof (filter_length_insert reachedEose l i r r' Hl) as Hins.
  rewrite Hr, Hr' in Hins. lia.
Qed.

Lemma connecting_insert (l : list RelaySub) i r' :
  Forall (fun r => rs_status r = Connecting -> rs_eosed r = false) l ->
  (rs_status r' = Connecting -> rs_eosed r' = false) ->
  Forall (fun r => rs_status r = Connecting -> rs_eosed r = false) (<[i := r']> l).
Proof.
  intros Hall Hr'. destruct (decide (i < length l)%nat).
  - by apply Forall_insert.
  - rewrite list_insert_ge; [done | lia].
Qed.

(** A step that neither counts an end of stored events nor un-counts one. *)
Lemma subInv_frame s calls s' out :
  subInv s calls ->
  startedCount s' = length (subPromises s') ->
  Forall (fun r => rs_status r = Connecting -> rs_eosed r = false) (subPromises s') ->
  eosed s' = eosed s -> eosedCount s' = eosedCount s ->
  doneCount s' = doneCount s ->
  (length (subPromises s) <= length (subPromises s'))%nat ->
  (eosed s = true -> length (subPromises s') = length (subPromises s)) ->
  eoseTrueCalls out = 0%nat ->
  subInv s' (calls ++ out).
Proof.
  intros (Hstarted & Hconn & Hcount) Hstarted' Hconn' He Hc Hd Hlen Hsame Hout.
  unfold subInv. rewrite eoseTrueCalls_app, Hout, Nat.add_0_r, He, Hc, Hd.
  split_and!; try done.
  destruct (eosed s).
  - rewrite Hsame; done.
  - destruct Hcount as (Hec & Hlt & Hcalls). split_and!; try done.
    intros Hne. destruct (subPromises s) eqn:Hsubs.
    + simpl in *. unfold doneCount in *. rewrite Hsubs in *. simpl.
      destruct (subPromises s'); [done | simpl; lia].
    + specialize (Hlt ltac:(done)). lia.
Qed.

(** The step that counts one: sub-subscription [i] reaches its EOSE or fails
    to connect. *)
Lemma subInv_markDone s calls i r r' s' out :
  subInv s calls ->
  subPromises s !! i = Some r ->
  reachedEose r = false -> reachedEose r' = true ->
  (rs_status r' = Connecting -> rs_eosed r' = false) ->
  countEose (setSub i r' s) = (s', out) ->
  subInv s' (calls ++ out) /\
  doneCount s' = S (doneCount s) /\
  startedCount s' = startedCount s /\
  (oneose true ∈ out <-> doneCount s' = startedCount s').
Proof.
  intros (Hstarted & Hconn & Hcount) Hi Hr Hr' Hc' Hstep.
  pose proof (done_insert_new _ _ _ _ Hi Hr Hr') as Hdone.
  pose proof (filter_length_le reachedEose (<[i := r']> (subPromises s))) as Hle.
  rewrite length_insert in Hle.
  unfold countEose in Hstep. simpl in Hstep.
  destruct (eosed s) eqn:He.
  - exfalso. destruct Hcount as [Hall _].
    assert (reachedEose r = true); [|congruence].
    eapply filter_length_all; [exact Hall|]. by eapply list_elem_of_lookup_2.
  - destruct Hcount as (Hec & Hlt & Hcalls).
    assert (doneCount s < length (subPromises s))%nat as Hlt'.
    { apply Hlt. intros Hnil. rewrite Hnil in Hi. done. }
    simplify_eq. unfold subInv, doneCount in *. simpl.
    rewrite eoseTrueCalls_app, Hcalls, length_insert, Hdone, Hec, Hstarted.
    split_and!; try done.
    + by apply connecting_insert.
    + destruct (length (subPromises s) <=? S (length (List.filter reachedEose (subPromises s))))%nat eqn:Hq.
      * apply Nat.leb_le in Hq. split; [lia | reflexivity].
      * apply Nat.leb_gt in Hq. split_and!; [done | intros _; lia | reflexivity].
    + rewrite list_elem_of_singleton. split.
      * intros [= Hq]. symmetry in Hq. apply Nat.leb_le in Hq. lia.
      * intros Hq. f_equal. symmetry. apply Nat.leb_le. lia.
Qed.

Section SubscribeEose.
Variable matchFilters : NEvent -> bool.
Variable hasStartLogin : bool.

Abbreviation estep := (step matchFilters hasStartLogin).

Ltac frame_step :=
  eapply subInv_frame; [eassumption | simpl; unfold doneCount; simpl ..].

Lemma alreadyHaveEvent_frame key s have s' calls out :
  alreadyHaveEvent key s = (have, s') ->
  subInv s calls -> eoseTrueCalls out = 0%nat ->
  subInv s' (calls ++ out) /\ doneCount s' = doneCount s /\ startedCount s' = startedCount s.
Proof.
  unfold alreadyHaveEvent. intros Hh Hinv Hout.
  case_bool_decide; simplify_eq; (split; [|done]).
  - frame_step; try done. apply Hinv. apply Hinv.
  - frame_step; try done. apply Hinv. apply Hinv.
Qed.

Lemma quiet_step s calls s' out :
  subInv s' (calls ++ out) ->
  doneCount s' = doneCount s -> eoseTrueCalls out = 0%nat ->
  subInv s' (calls ++ out) /\
  (oneose true ∈ out <->
   (doneCount s < doneCount s')%nat /\ doneCount s' = startedCount s').
Proof.
  intros Hi Hd Ho. split; [done|]. split; [|lia].
  intros Hin. exfalso. unfold eoseTrueCalls in Ho.
  apply list_elem_of_In in Hin.
  assert (In (oneose true) (List.filter isEoseTrue out)) as Hf
    by (apply List.filter_In; done).
  destruct (List.filter isEoseTrue out); [done | discriminate].
Qed.

Lemma idle_step s calls :
  subInv s calls ->
  subInv s (calls ++ []) /\
  (oneose true ∈ [] <->
   (doneCount s < doneCount s)%nat /\ doneCount s = startedCount s).
Proof. intros Hinv. apply quiet_step; rewrite ?app_nil_r; done. Qed.

(** Every step keeps the meaning of the counters, and calls [oneose(true)]
    exactly when it makes the count of finished sub-subscriptions reach the
    count of started ones. *)
Lemma step_subInv s calls x s' out :
  subInv s calls -> estep s x = (s', out) ->
  subInv s' (calls ++ out) /\
  (oneose true ∈ out <->
   (doneCount s < doneCount s')%nat /\ doneCount s' = startedCount s').
Proof.
  intros Hinv Hstep.
  pose proof Hinv as (Hstarted & Hconn & Hcount).
  destruct x; simpl in Hstep.
  - (* ConnectFailed *)
    destruct (subPromises s !! i) as [r|] eqn:Hi; [destruct (rs_status r) eqn:Hst|];
      try (simplify_eq; apply idle_step; done).
    assert (reachedEose r = false) as Hr.
    { unfold reachedEose. rewrite Hst.
      rewrite Forall_forall in Hconn. rewrite (Hconn r); [done | | done].
      by eapply list_elem_of_lookup_2. }
    destruct (subInv_markDone s calls i r (withStatus Unreachable r) s' out
                Hinv Hi Hr eq_refl ltac:(discriminate) Hstep)
      as (Hinv' & Hd & Hs & Hiff).
    split; [done|]. rewrite Hiff. split; [intros; split; [lia | done] | tauto].
  - (* Connected *)
    destruct (subPromises s !! i) as [r|] eqn:Hi; [destruct (rs_status r) eqn:Hst|];
      try (simplify_eq; apply idle_step; done).
    simplify_eq.
    assert (reachedEose (withStatus (if rs_closeRequested r then Released else Opened) r)
            = reachedEose r) as Hsame.
    { unfold reachedEose. simpl. rewrite Hst. by destruct (rs_closeRequested r). }
    apply quiet_step; [frame_step; try done| |done].
    + by rewrite length_insert.
    + apply connecting_insert; [done|]. simpl. by destruct (rs_closeRequested r).
    + by eapply done_insert_same.
    + by rewrite length_insert.
    + by rewrite length_insert.
    + unfold doneCount. simpl. by eapply done_insert_same.
  - (* Received *)
    destruct (subPromises s !! i) as [r|] eqn:Hi; [destruct (rs_status r) eqn:Hst|];
      try (simplify_eq; apply idle_step; done).
    destruct (alreadyHaveEvent (id evt) s) as [have s1] eqn:Hh. simplify_eq.
    destruct (alreadyHaveEvent_frame _ _ _ _ calls
                (if negb have && valid then [onevent evt] else []) Hh Hinv)
      as (Hinv' & Hd & Hs); [by destruct (negb have && valid)|].
    apply quiet_step; [done | done | by destruct (negb have && valid)].
  - (* Eose *)
    destruct (subPromises s !! i) as [r|] eqn:Hi; [destruct (rs_status r) eqn:Hst|];
      try (simplify_eq; apply idle_step; done).
    destruct (rs_eosed r) eqn:Hre;
      try (simplify_eq; apply idle_step; done).
    assert (reachedEose r = false) as Hr by (unfold reachedEose; by rewrite Hst, Hre).
    destruct (subInv_markDone s calls i r
                {| rs_url := rs_url r; rs_status := Opened; rs_eosed := true;
                   rs_closeRequested := rs_closeRequested r;
                   rs_authPending := rs_authPending r |} s' out
                Hinv Hi Hr eq_refl ltac:(discriminate) Hstep)
      as (Hinv' & Hd & Hs & Hiff).
    split; [done|]. rewrite Hiff. split; [intros; split; [lia | done] | tauto].
  - (* RelayClosed *)
    destruct (subPromises s !! i) as [r|] eqn:Hi; [destruct (rs_status r) eqn:Hst|];
      try (simplify_eq; apply idle_step; done).
    all: unfold handleClose in Hstep.
    all: assert (forall b, reachedEose {| rs_url := rs_url r; rs_status := Closed;
                    rs_eosed := rs_eosed r; rs_closeRequested := rs_closeRequested r;
                    rs_authPending := b |} = reachedEose r) as Hsame
           by (intros b; unfold reachedEose; simpl; rewrite Hst; done).
    all: repeat case_match; simplify_eq.
    all: apply quiet_step; [frame_step; try done| |try done].
    all: rewrite ?length_insert; try done.
    all: try (apply connecting_insert; [done | simpl; discriminate]).
    all: try (unfold doneCount; simpl).
    all: try (eapply done_insert_same; [done | apply Hsame]).
  - (* AuthDone *)
    destruct (subPromises s !! i) as [r|] eqn:Hi; [destruct (rs_authPending r) eqn:Hap|];
      try (simplify_eq; apply idle_step; done).
    assert (reachedEose {| rs_url := rs_url r; rs_status := rs_status r;
               rs_eosed := rs_eosed r; rs_closeRequested := rs_closeRequested r;
               rs_authPending := false |} = reachedEose r) as Hsame by done.
    assert (length (List.filter reachedEose
              (<[i := {| rs_url := rs_url r; rs_status := rs_status r;
                         rs_eosed := rs_eosed r; rs_closeRequested := rs_closeRequested r;
                         rs_authPending := false |}]> (subPromises s)))
            = doneCount s) as Hd by (eapply done_insert_same; done).
    assert (Forall (fun r => rs_status r = Connecting -> rs_eosed r = false)
              (<[i := {| rs_url := rs_url r; rs_status := rs_status r;
                         rs_eosed := rs_eosed r; rs_closeRequested := rs_closeRequested r;
                         rs_authPending := false |}]> (subPromises s))) as Hc'.
    { apply connecting_insert; [done|]. simpl. rewrite Forall_forall in Hconn.
      apply Hconn. by eapply list_elem_of_lookup_2. }
    unfold authSucceeded in Hstep. simpl in Hstep.
    destruct ok, (eosed s) eqn:He; simplify_eq.
    all: apply quiet_step; [frame_step; try done| |try done].
    all: rewrite ?length_app, ?length_insert; simpl; try done; try lia.
    all: rewrite ?List.filter_app, ?length_app; simpl; try lia.
    all: try (unfold doneCount in *; simpl; rewrite ?List.filter_app, ?length_app; simpl; lia).
    all: try (rewrite He; discriminate).
    apply Forall_app. split; [done|]. apply Forall_singleton. done.
  - (* NewEvent *)
    destruct (listening s && matchFilters evt);
      try (simplify_eq; apply idle_step; done).
    destruct (alreadyHaveEvent (id evt) s) as [have s1] eqn:Hh. simplify_eq.
    destruct (alreadyHaveEvent_frame _ _ _ _ calls
                (if have then [] else [onevent evt]) Hh Hinv)
      as (Hinv' & Hd & Hs); [by destruct have|].
    apply quiet_step; [done | done | by destruct have].
  - (* Close *)
    simplify_eq.
    assert (doneCount (close s) = doneCount s) as Hd.
    { unfold doneCount. simpl. apply filter_length_fmap, reachedEose_releaseSub. }
    apply quiet_step; [|done|done]. frame_step; rewrite ?length_fmap; try done.
    apply Forall_fmap. eapply Forall_impl; [exact Hconn|].
    intros r Hr. unfold releaseSub. simpl.
    destruct (rs_status r) eqn:Hst; simpl; rewrite ?Hst; auto; discriminate.
Qed.
End SubscribeEose.

Lemma run_subInv matchFilters hasStartLogin urls inputs :
  let r := run matchFilters hasStartLogin (subscribe urls) inputs in subInv r.1 r.2.
Proof.
  simpl. apply (run_ind matchFilters hasStartLogin (subscribe urls) subInv).
  - apply subInv_subscribe.
  - intros s calls x s' out Hinv Hstep. by eapply step_subInv.
Qed.

(** With no sub-subscription there is nothing that could call [oneose]. *)
Lemma step_no_subs matchFilters hasStartLogin s x s' out :
  subPromises s = [] -> step matchFilters hasStartLogin s x = (s', out) ->
  subPromises s' = [] /\ eoseTrueCalls out = 0%nat.
Proof.
  intros Hnil Hstep. destruct x; simpl in Hstep; rewrite ?Hnil in Hstep; simpl in Hstep;
    simplify_eq; try done.
  - unfold alreadyHaveEvent in Hstep. repeat case_match; simplify_eq; done.
  - simpl. by rewrite Hnil.
Qed.

Lemma run_no_subs matchFilters hasStartLogin inputs :
  let r := run matchFilters hasStartLogin (subscribe []) inputs in
  subPromises r.1 = [] /\ eoseTrueCalls r.2 = 0%nat.
Proof.
  simpl. apply (run_ind matchFilters hasStartLogin (subscribe [])
                  (fun s calls => subPromises s = [] /\ eoseTrueCalls calls = 0%nat)).
  - done.
  - intros s calls x s' out [Hnil Hcalls] Hstep.
    eapply step_no_subs in Hstep as [Hnil' Hout]; [|done].
    by rewrite eoseTrueCalls_app, Hcalls, Hout.
Qed.

(** ** Claims about [subscribe] *)

(** C1: for every subscription created by [subscribe], over any relay urls and
    whatever the relays and the local event bus deliver, in whatever order,
    [onevent] is called at most once with an event of a given id. *)
Theorem subscribe_onevent_once_per_id
    (matchFilters : NEvent -> bool) (hasStartLogin : bool)
    (urls : list string) (inputs : list transportInput) :
  NoDup (deliveredIds (run matchFilters hasStartLogin (subscribe urls) inputs).2).
Proof. apply (run_delivered_known matchFilters hasStartLogin (subscribe urls) inputs). Qed.

(** C2, as stated, fails: a subscription over no relay never calls
    [oneose(true)], whatever happens afterwards. *)
Lemma oneose_true_never_for_no_relay :
  ~ (forall urls : list string, exists inputs,
       eoseTrueCalls (run (fun _ => true) false (subscribe urls) inputs).2 = 1%nat).
Proof.
  intros Hall. destruct (Hall []) as [inputs Hone].
  pose proof (run_no_subs (fun _ => true) false inputs) as [_ Hzero].
  simpl in Hzero. rewrite Hzero in Hone. discriminate.
Qed.

(** C2, amended: at every moment of every subscription, [startedCount] is the
    number of sub-subscriptions started and [oneose(true)] has been called at
    most once; a step calls it exactly when that step makes the number of
    sub-subscriptions that reached their EOSE or failed to connect reach the
    number started; so it has been called exactly once as soon as at least one
    was started and all of them are finished, and never for an empty relay
    list. *)
Theorem subscribe_oneose_true_when_all_finished
    (matchFilters : NEvent -> bool) (hasStartLogin : bool)
    (urls : list string) (inputs : list transportInput) (x : transportInput) :
  let before := run matchFilters hasStartLogin (subscribe urls) inputs in
  let after := step matchFilters hasStartLogin before.1 x in
  let calls := before.2 ++ after.2 in
  startedCount after.1 = length (subPromises after.1) /\
  (eoseTrueCalls calls <= 1)%nat /\
  (oneose true ∈ after.2 <->
     (doneCount before.1 < doneCount after.1)%nat /\
     doneCount after.1 = startedCount after.1) /\
  ((0 < startedCount after.1)%nat -> doneCount after.1 = startedCount after.1 ->
     eoseTrueCalls calls = 1%nat) /\
  (urls = [] -> eoseTrueCalls calls = 0%nat).
Proof.
  intros before after calls.
  pose proof (run_subInv matchFilters hasStartLogin urls inputs) as Hinv.
  fold before in Hinv. simpl in Hinv.
  destruct (step matchFilters hasStartLogin before.1 x) as [s' out] eqn:Hstep.
  destruct (step_subInv _ _ _ _ _ _ _ Hinv Hstep) as [Hinv' Hiff].
  subst after calls. simpl.
  pose proof Hinv' as (Hstarted & _ & Hcount).
  split_and!; try done.
  - destruct (eosed s'); [destruct Hcount as [_ ->] | destruct Hcount as (_ & _ & ->)]; lia.
  - intros Hpos Hall. destruct (eosed s'); [by destruct Hcount|].
    destruct Hcount as (_ & Hlt & _). rewrite Hstarted in Hpos, Hall.
    assert (subPromises s' <> []) as Hne by (intros Hnil; rewrite Hnil in Hpos; simpl in Hpos; lia).
    specialize (Hlt Hne). lia.
  - intros ->. pose proof (run_no_subs matchFilters hasStartLogin inputs) as [Hnil Hzero].
    fold before in Hnil, Hzero. simpl in Hnil, Hzero.
    eapply step_no_subs in Hstep as [_ Hout]; [|done].
    by rewrite eoseTrueCalls_app, Hzero, Hout.
Qed.


(** ** Publishing to a quorum *)

Lemma ceilThird_le n a : (ceilThird n <= a)%nat <-> (n <= 3 * a)%nat.
Proof.
  unfold ceilThird. pose proof (Nat.div_mod_eq (n + 2) 3).
  pose proof (Nat.mod_upper_bound (n + 2) 3). lia.
Qed.

Lemma acks_snoc done d : acks (done ++ [d]) = (acks done + if isPublished d then 1 else 0)%nat.
Proof.
  unfold acks. rewrite List.filter_app, length_app. simpl. by destruct (isPublished d).
Qed.

Lemma failures_snoc done d :
  failures (done ++ [d]) =
  failures done ++ match d.2 with
                   | PublishRejected _ message _ => [(d.1, message)]
                   | _ => []
                   end.
Proof. unfold failures. rewrite omap_app. simpl. by destruct d as [u []]. Qed.

Lemma publishRun_plain signer relayUrls done :
  let n := length (dedupe relayUrls) in
  (length done <= n)%nat ->
  Forall (fun d => plainOutcome signer d = true) done ->
  let p := publishRun signer relayUrls done in
  uniqueRelayUrls p = dedupe relayUrls /\
  successCount p = acks done /\
  finishedCount p = length done /\
  errors p = failures done /\
  settled p = expectedSettled n done.
Proof.
  intros n. induction done as [|d done IH] using rev_ind; intros Hlen Hplain p.
  - done.
  - rewrite length_app in Hlen. simpl in Hlen.
    apply Forall_app in Hplain as [Hplain Hd]. rewrite Forall_singleton in Hd.
    destruct IH as (Hu & Hs & Hf & He & Hset); [lia | done |].
    subst p. unfold publishRun in *. rewrite foldl_app. simpl.
    set (q := foldl (finish signer) (publishEvent relayUrls) done) in *.
    assert (settled q = None \/ settled q = Some Resolved) as Hq.
    { rewrite Hset. unfold expectedSettled. destruct done; [by left|].
      destruct (n <=? 3 * acks (p :: done))%nat; [by right|].
      destruct (n <=? length (p :: done))%nat eqn:Hle; [|by left].
      apply Nat.leb_le in Hle. lia. }
    assert (expectedSettled n (done ++ [d]) =
            if (n <=? 3 * acks (done ++ [d]))%nat then Some Resolved
            else if (n <=? length (done ++ [d]))%nat
                 then Some (Rejected (errorLine <$> failures (done ++ [d])))
                 else None) as ->.
    { unfold expectedSettled. by destruct done. }
    assert (settled q = Some Resolved -> (n <= 3 * acks done)%nat) as Hres.
    { rewrite Hset. unfold expectedSettled. destruct done; [done|].
      destruct (n <=? 3 * acks (p :: done))%nat eqn:Hle; [by apply Nat.leb_le in Hle|].
      by destruct (n <=? length (p :: done))%nat. }
    rewrite acks_snoc, failures_snoc, length_app. cbn -[Nat.mul Nat.leb].
    unfold finish. unfold plainOutcome in Hd.
    destruct d as [u [| |isError message retried]]; cbn -[Nat.mul Nat.leb] in *; [done| |].
    + unfold finally. cbn -[Nat.mul Nat.leb]. rewrite Hu, Hs, Hf, He. fold n.
      rewrite app_nil_r. replace (S (acks done)) with (acks done + 1)%nat by lia.
      replace (S (length done)) with (length done + 1)%nat by lia.
      split_and!; try done.
      destruct (n <=? 3 * (acks done + 1))%nat eqn:Hle.
      * destruct Hq as [-> | ->]; by destruct (n <=? length done + 1)%nat.
      * apply Nat.leb_gt in Hle. destruct Hq as [-> | Hr]; [done|]. apply Hres in Hr. lia.
    + destruct (isError && startsWith "auth-required" message && signer); [done|].
      unfold finally. cbn -[Nat.mul Nat.leb]. rewrite Hu, Hs, Hf, He. fold n.
      rewrite Nat.add_0_r. replace (S (length done)) with (length done + 1)%nat by lia.
      split_and!; try done.
      destruct (n <=? 3 * acks done)%nat eqn:Hle.
      * destruct Hq as [-> | ->]; by destruct (n <=? length done + 1)%nat.
      * apply Nat.leb_gt in Hle. destruct Hq as [-> | Hr]; [|apply Hres in Hr; lia].
        by rewrite fmap_app.
Qed.

(** C3, as stated, fails: with two acknowledgements out of nine relays the
    aggregate error holds the seven failures, not nine outcomes. *)
Lemma publish_two_of_nine_lists_seven :
  settled (publishRun true nineRelays twoOfNine) =
    Some (Rejected ["wss://r2/: blocked"; "wss://r3/: publish timed out"; "wss://r5/: blocked";
                    "wss://r6/: blocked"; "wss://r7/: rate-limited"; "wss://r8/: blocked";
                    "wss://r9/: invalid: bad event"]) /\
  length (failures twoOfNine) = 7%nat /\ length twoOfNine = 9%nat.
Proof. vm_compute. done. Qed.

(** C3, amended: for a publish to [n >= 1] distinct relays in which every
    chain that has ended so far ended with an acknowledgement or a plain
    rejection, the operation is resolved exactly when at least
    [ceiling (n / 3)] relays have acknowledged, however many are still
    pending, and it is rejected exactly when all [n] chains have ended with
    fewer acknowledgements; the aggregate error then lists, in the order they
    ended, one line [url: reason] per relay that failed. *)
Theorem publishEvent_quorum (signer : bool) (relayUrls : list string)
    (done : list (string * publishOutcome)) :
  let n := length (dedupe relayUrls) in
  (0 < n)%nat ->
  (length done <= n)%nat ->
  Forall (fun d => plainOutcome signer d = true) done ->
  let p := publishRun signer relayUrls done in
  (settled p = Some Resolved <-> (ceilThird n <= acks done)%nat) /\
  (forall aggregate,
     settled p = Some (Rejected aggregate) <->
     length done = n /\ (acks done < ceilThird n)%nat /\
     aggregate = errorLine <$> failures done).
Proof.
  intros n Hn Hlen Hplain p.
  destruct (publishRun_plain signer relayUrls done Hlen Hplain) as (_ & _ & _ & _ & Hset).
  fold n p in Hset. rewrite Hset. unfold expectedSettled.
  pose proof (ceilThird_le n (acks done)) as Hceil.
  destruct done as [|d done'].
  - assert (acks [] = 0%nat) as Ha by done. rewrite Ha in *. simpl.
    split; [split; [done | lia]|]. intros aggregate. split; [done | lia].
  - set (done := d :: done') in *.
    destruct (n <=? 3 * acks done)%nat eqn:Hq.
    + apply Nat.leb_le in Hq. split; [tauto|].
      intros aggregate. split; [done | lia].
    + apply Nat.leb_gt in Hq. destruct (n <=? length done)%nat eqn:Hl.
      * apply Nat.leb_le in Hl. split; [split; [done | lia]|].
        intros aggregate. split.
        -- intros [= <-]. split_and!; [lia | lia | done].
        -- intros (_ & _ & ->). done.
      * apply Nat.leb_gt in Hl. split; [split; [done | lia]|].
        intros aggregate. split; [done | lia].
Qed.

Lemma publishEvent_quorum_witness :
  let p := publishRun false ["wss://a/"; "wss://b/"; "wss://c/"; "wss://a/"]
             [("wss://b/", PublishRejected true "blocked" false); ("wss://a/", Published)] in
  (settled p = Some Resolved <->
   (ceilThird 3 <= acks [("wss://b/", PublishRejected true "blocked" false);
                         ("wss://a/", Published)])%nat) /\
  (forall aggregate,
     settled p = Some (Rejected aggregate) <->
     length [("wss://b/", PublishRejected true "blocked" false); ("wss://a/", Published)] = 3%nat /\
     (acks [("wss://b/", PublishRejected true "blocked" false); ("wss://a/", Published)]
      < ceilThird 3)%nat /\
     aggregate = errorLine <$> failures [("wss://b/", PublishRejected true "blocked" false);
                                          ("wss://a/", Published)]).
Proof.
  apply (publishEvent_quorum false ["wss://a/"; "wss://b/"; "wss://c/"; "wss://a/"]
           [("wss://b/", PublishRejected true "blocked" false); ("wss://a/", Published)]).
  - vm_compute. lia.
  - vm_compute. lia.
  - repeat constructor.
Defined.

(** ** The ordered reference list *)

Lemma ltb_lt (a b : string) : String.ltb a b = true <-> String_as_OT.lt a b.
Proof.
  rewrite <- String_as_OT.cmp_lt. unfold String.ltb, String_as_OT.cmp.
  destruct (String.compare a b); split; congruence.
Qed.

Lemma ltb_trans (a b c : string) :
  String.ltb a b = true -> String.ltb b c = true -> String.ltb a c = true.
Proof. rewrite !ltb_lt. apply String_as_OT.lt_trans. Qed.

Lemma ltb_irrefl (a : string) : String.ltb a a = false.
Proof.
  destruct (String.ltb a a) eqn:Hlt; [|done].
  apply ltb_lt, String_as_OT.lt_not_eq in Hlt. by destruct Hlt.
Qed.

Lemma ltb_total (a b : string) : String.ltb a b = false -> a <> b -> String.ltb b a = true.
Proof.
  unfold String.ltb. rewrite (String.compare_antisym b a).
  destruct (String.compare a b) eqn:Hc; simpl; try done.
  apply String.compare_eq_iff in Hc. done.
Qed.

#[local] Instance notOlder_trans : Transitive notOlder.
Proof. unfold notOlder. intros a b c. lia. Qed.

#[local] Instance refBefore_trans : Transitive refBefore.
Proof.
  unfold refBefore. intros a b c [Hab | [Hab Hiab]] [Hbc | [Hbc Hibc]]; try (left; lia).
  right. split; [lia|]. by eapply ltb_trans.
Qed.

Lemma refBefore_irrefl a : ~ refBefore a a.
Proof. unfold refBefore. rewrite ltb_irrefl. intros [? | [_ ?]]; [lia | done]. Qed.

Lemma goesBefore_refBefore evt ref : goesBefore evt ref = true <-> refBefore (toRef evt) ref.
Proof.
  unfold goesBefore, refBefore, toRef. simpl.
  rewrite orb_true_iff, andb_true_iff, Z.ltb_lt, Z.eqb_eq. done.
Qed.

Lemma sameRef_eq evt ref : sameRef evt ref = true <-> toRef evt = ref.
Proof.
  unfold sameRef, toRef. destruct ref as [i t]. simpl.
  rewrite andb_true_iff, Z.eqb_eq, bool_decide_eq_true. split.
  - by intros [-> ->].
  - by intros [= -> ->].
Qed.

Lemma neither_refBefore evt ref :
  sameRef evt ref = false -> goesBefore evt ref = false -> refBefore ref (toRef evt).
Proof.
  intros Hsame Hbefore.
  assert (toRef evt <> ref) as Hne by (rewrite <- sameRef_eq; congruence).
  unfold goesBefore in Hbefore. apply orb_false_iff in Hbefore as [Hlt Htie].
  apply Z.ltb_ge in Hlt. unfold refBefore, toRef in *. simpl.
  destruct (decide (created_at evt = ref.2)) as [Heq | Hneq]; [|left; lia].
  right. split; [done|]. rewrite <- Heq, Z.eqb_refl in Htie. simpl in Htie.
  apply ltb_total; [done|]. intros Hid. apply Hne. destruct ref; simpl in *. congruence.
Qed.

Lemma StronglySorted_lookup {A} (R : A -> A -> Prop) (l : list A) i j a b :
  StronglySorted R l -> (i < j)%nat -> l !! i = Some a -> l !! j = Some b -> R a b.
Proof.
  intros Hs. revert i j. induction Hs as [|x l Hs IH Hall]; intros i j Hij Hi Hj; [done|].
  destruct j as [|j]; [lia|]. simpl in Hj. destruct i as [|i]; simpl in Hi.
  - simplify_eq. rewrite Forall_forall in Hall. apply Hall. by eapply list_elem_of_lookup_2.
  - eapply IH; [|done..]. lia.
Qed.

(** Splicing an element between the part that precedes it and the part that
    follows it keeps a list sorted. *)
Lemma StronglySorted_splice {A} (R : A -> A -> Prop) (l : list A) p y :
  StronglySorted R l ->
  (forall i x, (i < p)%nat -> l !! i = Some x -> R x y) ->
  (forall i x, (p <= i)%nat -> l !! i = Some x -> R y x) ->
  StronglySorted R (take p l ++ y :: drop p l).
Proof.
  intros Hs Hbefore Hafter.
  rewrite <- (take_drop p l) in Hs. apply StronglySorted_app in Hs as (Hcross & Hs1 & Hs2).
  apply StronglySorted_app. split_and!; [|done|].
  - intros x1 x2 Hx1 [-> | Hx2]%elem_of_cons; [|by apply Hcross].
    apply list_elem_of_lookup in Hx1 as [i Hi]. apply lookup_take_Some in Hi as [Hi Hlt].
    by eapply Hbefore.
  - constructor; [done|]. apply Forall_forall. intros x Hx.
    apply list_elem_of_lookup in Hx as [i Hi]. rewrite lookup_drop in Hi.
    eapply Hafter; [|done]. lia.
Qed.

Section Search.
Variable R : TTimelineRef -> TTimelineRef -> Prop.
Context `{!Transitive R}.
Variable evt : NEvent.
Hypothesis before_R : forall ref, goesBefore evt ref = true -> R (toRef evt) ref.
Hypothesis after_R :
  forall ref, sameRef evt ref = false -> goesBefore evt ref = false -> R ref (toRef evt).

(** The loop keeps every reference left of [lo] ahead of the event and every
    reference from [hi] on behind it. *)
Lemma search_position refs lo hi p :
  StronglySorted R refs ->
  search evt refs lo hi = InsertAt p ->
  (forall i x, (i < lo)%nat -> refs !! i = Some x -> R x (toRef evt)) ->
  (forall i x, (hi <= i)%nat -> refs !! i = Some x -> R (toRef evt) x) ->
  (forall i x, (i < p)%nat -> refs !! i = Some x -> R x (toRef evt)) /\
  (forall i x, (p <= i)%nat -> refs !! i = Some x -> R (toRef evt) x).
Proof.
  intros Hs. funelim (search evt refs lo hi).
  - intros [= <-] Hlo Hhi. split; [done|]. intros i x Hi. apply Hhi. lia.
  - intros Hres Hlo Hhi. destruct (sameRef evt ref) eqn:Hsame; [done|].
    destruct (goesBefore evt ref) eqn:Hb.
    + match goal with IH : forall p, _ -> search _ _ lo _ = _ -> _ |- _ =>
        apply (IH p Hs Hres Hlo) end.
      intros i x Hi Hx. destruct (decide (i = (lo + hi) / 2)%nat) as [-> | Hne].
      * simplify_eq. by apply before_R.
      * transitivity ref; [by apply before_R|].
        eapply (StronglySorted_lookup R refs ((lo + hi) / 2)%nat i); [done | lia | done..].
    + match goal with IH : forall p, _ -> search _ _ (S _) _ = _ -> _ |- _ =>
        apply (IH p Hs Hres); [|done] end.
      intros i x Hi Hx. destruct (decide (i = (lo + hi) / 2)%nat) as [-> | Hne].
      * simplify_eq. by apply after_R.
      * transitivity ref; [|by apply after_R].
        eapply (StronglySorted_lookup R refs i ((lo + hi) / 2)%nat); [done | lia | done..].
  - discriminate.
Qed.

(** Inserting with the binary search keeps a list sorted by [R]. *)
Lemma insertRef_sorted refs : StronglySorted R refs -> StronglySorted R (insertRef refs evt).
Proof.
  intros Hs. unfold insertRef.
  destruct (search evt refs 0 (length refs)) as [|p|] eqn:Hsearch; try done.
  destruct (length refs <=? p)%nat; [done|].
  apply (search_position refs _ _ p Hs) in Hsearch as [Hbefore Hafter].
  - by apply StronglySorted_splice.
  - intros i x Hi. lia.
  - intros i x Hi Hx. apply lookup_lt_Some in Hx. lia.
Qed.
End Search.

(** The loop never reads past the array it was given. *)
Lemma search_defined evt refs lo hi :
  (hi <= length refs)%nat -> search evt refs lo hi <> RefUndefined.
Proof.
  funelim (search evt refs lo hi); intros Hhi; try done.
  - destruct (sameRef evt ref); [done|]. destruct (goesBefore evt ref).
    + match goal with IH : _ -> search _ _ lo _ <> _ |- _ => apply IH end.
      pose proof (Nat.Div0.div_le_upper_bound (lo + hi) 2 hi). lia.
    + match goal with IH : _ -> search _ _ (S _) _ <> _ |- _ => by apply IH end.
  - apply lookup_ge_None in Heq.
    assert ((lo + hi) / 2 < hi)%nat; [|lia].
    apply Nat.Div0.div_lt_upper_bound. lia.
Qed.

(** An event older than every reference sends the search to the far end. *)
Lemma search_older evt refs lo hi :
  Forall (fun ref : TTimelineRef => created_at evt < ref.2) refs ->
  (lo <= hi <= length refs)%nat ->
  search evt refs lo hi = InsertAt hi.
Proof.
  intros Hold. funelim (search evt refs lo hi); intros Hhi.
  - f_equal. lia.
  - assert (created_at evt < ref.2) as Hlt'.
    { rewrite Forall_forall in Hold. apply Hold. by eapply list_elem_of_lookup_2. }
    assert (sameRef evt ref = false) as ->.
    { unfold sameRef. apply andb_false_iff. left. apply Z.eqb_neq. lia. }
    assert (goesBefore evt ref = false) as ->.
    { unfold goesBefore. apply orb_false_iff. split; [apply Z.ltb_ge; lia|].
      apply andb_false_iff. left. apply Z.eqb_neq. lia. }
    match goal with IH : _ -> _ -> search _ _ (S _) _ = _ |- _ => apply IH; [done|] end.
    assert ((lo + hi) / 2 < hi)%nat; [|lia].
    apply Nat.Div0.div_lt_upper_bound. lia.
  - exfalso. apply lookup_ge_None in Heq.
    assert ((lo + hi) / 2 < hi)%nat; [|lia].
    apply Nat.Div0.div_lt_upper_bound. lia.
Qed.

Lemma insertRef_older refs evt :
  Forall (fun ref : TTimelineRef => created_at evt < ref.2) refs -> insertRef refs evt = refs.
Proof.
  intros Hold. unfold insertRef. rewrite search_older; [|done|lia].
  by rewrite Nat.leb_refl.
Qed.

Lemma insertRef_sortedDesc refs evt : sortedDesc refs -> sortedDesc (insertRef refs evt).
Proof.
  apply insertRef_sorted; [apply _| |].
  - intros ref Hb. apply goesBefore_refBefore in Hb. unfold refBefore, notOlder in *. lia.
  - intros ref _ Hb. unfold goesBefore in Hb. apply orb_false_iff in Hb as [Hb _].
    apply Z.ltb_ge in Hb. unfold notOlder, toRef. simpl. lia.
Qed.

Lemma insertRef_strictlySorted refs evt :
  strictlySorted refs -> strictlySorted (insertRef refs evt).
Proof.
  apply insertRef_sorted; [apply _| |].
  - intros ref. apply goesBefore_refBefore.
  - apply neither_refBefore.
Qed.

(** In a strictly sorted list the search finds a reference that is there. *)
Lemma insertRef_present refs evt :
  strictlySorted refs -> toRef evt ∈ refs -> insertRef refs evt = refs.
Proof.
  intros Hs Hin. pose proof (insertRef_strictlySorted refs evt Hs) as Hs'.
  unfold insertRef in *.
  destruct (search evt refs 0 (length refs)) as [|p|]; try done.
  destruct (length refs <=? p)%nat; [done|]. exfalso.
  apply StronglySorted_app in Hs' as (Hcross & _ & Htail).
  apply StronglySorted_inv in Htail as [_ Htail]. rewrite Forall_forall in Htail.
  rewrite <- (take_drop p refs) in Hin. apply elem_of_app in Hin as [Hin | Hin].
  - apply (refBefore_irrefl (toRef evt)). apply Hcross; [done|]. apply elem_of_cons. by left.
  - apply (refBefore_irrefl (toRef evt)). by apply Htail.
Qed.

(** *** Sorting *)

Lemma insertSorted_perm {A} (before : A -> A -> bool) x l :
  insertSorted before x l ≡ₚ x :: l.
Proof.
  induction l as [|y l IH]; simpl; [done|].
  destruct (before y x); [|done]. rewrite IH. apply Permutation_swap.
Qed.

Lemma sortWith_perm {A} (before : A -> A -> bool) l : sortWith before l ≡ₚ l.
Proof.
  induction l as [|x l IH]; simpl; [done|]. by rewrite insertSorted_perm, IH.
Qed.

Lemma insertSorted_newestFirst x l :
  newestFirst l -> newestFirst (insertSorted newerFirst x l).
Proof.
  unfold newestFirst. induction 1 as [|y l Hs IH Hall]; simpl.
  - repeat constructor.
  - unfold newerFirst at 1. destruct (created_at x <? created_at y) eqn:Hlt.
    + apply Z.ltb_lt in Hlt. constructor; [done|].
      rewrite insertSorted_perm. constructor; [lia | done].
    + apply Z.ltb_ge in Hlt. constructor; [by constructor|].
      constructor; [done|]. eapply Forall_impl; [exact Hall|]. simpl. intros; lia.
Qed.

Lemma sortByCreatedAtDesc_newestFirst events : newestFirst (sortByCreatedAtDesc events).
Proof.
  unfold sortByCreatedAtDesc. induction events as [|x l IH]; simpl; [constructor|].
  by apply insertSorted_newestFirst.
Qed.

Lemma StronglySorted_take {A} (R : A -> A -> Prop) n (l : list A) :
  StronglySorted R l -> StronglySorted R (take n l).
Proof.
  intros Hs. rewrite <- (take_drop n l) in Hs. by apply StronglySorted_app in Hs as (_ & ? & _).
Qed.

Lemma StronglySorted_filter {A} (R : A -> A -> Prop) (f : A -> bool) (l : list A) :
  StronglySorted R l -> StronglySorted R (List.filter f l).
Proof.
  induction 1 as [|x l Hs IH Hall]; simpl; [constructor|].
  destruct (f x); [|done]. constructor; [done|].
  rewrite Forall_forall in *. intros y Hy. apply Hall.
  apply list_elem_of_In, List.filter_In in Hy as [Hy _]. by apply list_elem_of_In.
Qed.

Lemma sortedDesc_toRef events : newestFirst events -> sortedDesc (toRef <$> events).
Proof.
  unfold newestFirst, sortedDesc. induction 1 as [|x l Hs IH Hall]; csimpl; constructor; [done|].
  apply Forall_fmap. eapply Forall_impl; [exact Hall|]. done.
Qed.

(** *** The writes to [this.timelines] *)

Lemma cachedRefs_Some timelines key refs filter urls :
  cachedRefs timelines key = Some (refs, filter, urls) ->
  timelines !! key = Some (Single refs filter urls) /\ refs <> [].
Proof.
  unfold cachedRefs. destruct (timelines !! key) as [[[|r rs] f u | ks]|]; intros ?; by simplify_eq.
Qed.

Lemma storeSorted_insert timelines key refs filter urls :
  storeSorted timelines -> sortedDesc refs ->
  storeSorted (<[key := Single refs filter urls]> timelines).
Proof.
  intros Hstore Hrefs k r f u. destruct (decide (key = k)) as [-> | Hne].
  - rewrite lookup_insert_eq. by intros [= <- <- <-].
  - rewrite lookup_insert_ne by done. apply Hstore.
Qed.

Lemma liveInsert_sorted key evt timelines :
  storeSorted timelines -> storeSorted (liveInsert key evt timelines).
Proof.
  intros Hstore. unfold liveInsert.
  destruct (cachedRefs timelines key) as [[[refs f] u]|] eqn:Hc; [|done].
  apply cachedRefs_Some in Hc as [Hc _].
  apply storeSorted_insert; [done|]. apply insertRef_sortedDesc. by eapply Hstore.
Qed.

Lemma finalize_sorted key filter urls events timelines :
  storeSorted timelines -> newestFirst events ->
  storeSorted (finalize key filter urls events timelines).
Proof.
  intros Hstore Hev. unfold finalize.
  destruct (cachedRefs timelines key) as [[[refs f] u]|] eqn:Hc.
  - apply cachedRefs_Some in Hc as [Hc Hne].
    pose proof (Hstore _ _ _ _ Hc) as Hrefs.
    assert (sortedDesc (toRef <$> List.filter
              (fun evt => default 0 (snd <$> head refs) <? created_at evt) events)) as Hnew.
    { apply sortedDesc_toRef. by apply StronglySorted_filter. }
    destruct (limit filter <=? length events)%nat; apply storeSorted_insert; try done.
    apply StronglySorted_app. split_and!; [|done..].
    intros x1 x2 Hx1 Hx2. destruct refs as [|r refs]; [done|]. simpl in *.
    apply list_elem_of_fmap in Hx1 as (e & -> & He).
    apply list_elem_of_In, List.filter_In in He as [_ He]. apply Z.ltb_lt in He.
    assert (notOlder r x2) as Hr.
    { apply elem_of_cons in Hx2 as [-> | Hx2]; [unfold notOlder; lia|].
      apply StronglySorted_inv in Hrefs as [_ Hall]. rewrite Forall_forall in Hall. by apply Hall. }
    unfold notOlder, toRef in *. simpl. lia.
  - apply storeSorted_insert; [done|]. by apply sortedDesc_toRef.
Qed.

Lemma sortedDesc_last refs r x :
  sortedDesc refs -> last refs = Some r -> x ∈ refs -> notOlder x r.
Proof.
  intros Hs Hlast Hx. apply list_elem_of_lookup in Hx as [i Hi].
  rewrite last_lookup in Hlast.
  destruct (decide (i = Nat.pred (length refs))) as [-> | Hne].
  - simplify_eq. unfold notOlder. lia.
  - eapply (StronglySorted_lookup notOlder refs i (Nat.pred (length refs))); [done| |done..].
    apply lookup_lt_Some in Hi. lia.
Qed.

Lemma appendOlder_sorted key captured events now timelines :
  storeSorted timelines -> newestFirst events ->
  (forall refs filter urls, timelines !! key = Some (Single refs filter urls) -> captured = refs) ->
  storeSorted (appendOlder key captured events now timelines).
Proof.
  intros Hstore Hev Hcurrent. unfold appendOlder.
  destruct (timelines !! key) as [[refs f u | ks]|] eqn:Hk; try done.
  rewrite (Hcurrent refs f u eq_refl).
  apply storeSorted_insert; [done|].
  pose proof (Hstore _ _ _ _ Hk) as Hrefs.
  apply StronglySorted_app. split_and!; [|done|].
  - intros x1 x2 Hx1 Hx2.
    apply list_elem_of_fmap in Hx2 as (e & -> & He).
    apply list_elem_of_In, List.filter_In in He as [_ He]. apply Z.ltb_lt in He.
    destruct (last refs) as [r|] eqn:Hlast.
    + pose proof (sortedDesc_last _ _ _ Hrefs Hlast Hx1) as Hr.
      unfold notOlder, toRef in *. simpl in *. lia.
    + apply last_None in Hlast. subst. inversion Hx1.
  - apply sortedDesc_toRef. by apply StronglySorted_filter.
Qed.

(** A write keeps the timelines sorted newest first, the push of a
    load-more as long as the array it captured is still the timeline's. *)
Lemma applyWrite_sorted timelines w :
  storeSorted timelines -> capturesCurrent timelines w -> storeSorted (applyWrite timelines w).
Proof.
  intros Hstore Hcurrent. destruct w; simpl.
  - by apply liveInsert_sorted.
  - apply finalize_sorted; [done|].
    apply StronglySorted_take, sortByCreatedAtDesc_newestFirst.
  - apply appendOlder_sorted; [done| |done].
    apply StronglySorted_take, sortByCreatedAtDesc_newestFirst.
  - intros k r f u. unfold registerMerged. destruct (decide (key = k)) as [-> | Hne].
    + by rewrite lookup_insert_eq.
    + rewrite lookup_insert_ne by done. apply Hstore.
Qed.

Lemma writes_sorted writes :
  (forall i w, writes !! i = Some w -> capturesCurrent (foldl applyWrite ∅ (take i writes)) w) ->
  storeSorted (foldl applyWrite ∅ writes).
Proof.
  induction writes as [|w writes IH] using rev_ind; intros Hcurrent.
  - intros k r f u Hk. simpl in Hk. by rewrite lookup_empty in Hk.
  - rewrite foldl_app. simpl. apply applyWrite_sorted.
    + apply IH. intros i w' Hi.
      pose proof (Hcurrent i w') as Hw. rewrite lookup_app_l in Hw by by eapply lookup_lt_Some.
      rewrite take_app_le in Hw by (apply lookup_lt_Some in Hi; lia). by apply Hw.
    + pose proof (Hcurrent (length writes) w) as Hw.
      rewrite list_lookup_middle in Hw by done. rewrite take_app_length in Hw. by apply Hw.
Qed.

(** C4, a defect of the code: the list is not ordered by id among
    references with equal timestamps, and a reference that is present is
    stored a second time.  Every sort of the service compares [created_at]
    only, so a page whose events arrive as B, A with one timestamp is stored
    as B, A; the binary search of the live-event handler, which does compare
    ids among ties, then probes A, moves to the right of it, never meets the
    B that is stored to the left, and splices B in again. *)
Theorem timeline_refs_tie_in_arrival_order :
  foldl applyWrite ∅ tieWrites !! "k" =
    Some (Single [(idE, 200); (idB, 100); (idA, 100); (idB, 100); (idD, 50)]
                 notesFilter ["wss://r/"]) /\
  foldl applyWrite ∅ (take 2 tieWrites) !! "k" =
    Some (Single [(idE, 200); (idB, 100); (idA, 100); (idD, 50)] notesFilter ["wss://r/"]) /\
  ~ strictlySorted [(idE, 200); (idB, 100); (idA, 100); (idD, 50)] /\
  toRef (note idB 100) ∈ [(idE, 200); (idB, 100); (idA, 100); (idD, 50)] /\
  insertRef [(idE, 200); (idB, 100); (idA, 100); (idD, 50)] (note idB 100)
    = [(idE, 200); (idB, 100); (idA, 100); (idB, 100); (idD, 50)] /\
  ~ NoDup (fst <$> [(idE, 200); (idB, 100); (idA, 100); (idB, 100); (idD, 50)]).
Proof.
  split_and!.
  - vm_compute. reflexivity.
  - vm_compute. reflexivity.
  - intros Hs. apply StronglySorted_inv in Hs as [Hs _].
    apply StronglySorted_inv in Hs as [_ Hs]. apply Forall_inv in Hs.
    destruct Hs as [Hs | [_ Hs]]; [simpl in Hs; lia | vm_compute in Hs; discriminate].
  - apply elem_of_cons. right. apply elem_of_cons. by left.
  - reflexivity.
  - intros Hnd. apply NoDup_cons in Hnd as [_ Hnd]. apply NoDup_cons in Hnd as [Hnd _].
    apply Hnd. apply elem_of_cons. right. apply elem_of_cons. by left.
Qed.

(** What the insertion does keep.  The timelines stay in descending order
    of [created_at] under every write whose load-more pushes run with the
    array of the timeline; on a list that is strictly sorted by descending
    [created_at] and ascending id the binary-search insertion keeps it so and
    leaves it unchanged when the (created_at, id) pair is already there; and
    an event older than every reference leaves any list unchanged. *)
Lemma timeline_refs_newest_first :
  (forall writes key refs filter urls,
     (forall i w, writes !! i = Some w ->
                  capturesCurrent (foldl applyWrite ∅ (take i writes)) w) ->
     foldl applyWrite ∅ writes !! key = Some (Single refs filter urls) -> sortedDesc refs) /\
  (forall refs evt,
     strictlySorted refs ->
     strictlySorted (insertRef refs evt) /\ (toRef evt ∈ refs -> insertRef refs evt = refs)) /\
  (forall refs evt,
     Forall (fun ref : TTimelineRef => created_at evt < ref.2) refs -> insertRef refs evt = refs).
Proof.
  split_and!.
  - intros writes key refs filter urls Hcurrent. by apply writes_sorted.
  - intros refs evt Hs. split; [by apply insertRef_strictlySorted | by apply insertRef_present].
  - apply insertRef_older.
Qed.

(** ** Loading more *)

Lemma lru_find_elem {V} (k : string) (l : list (string * V)) v :
  lru_find k l = Some v -> (k, v) ∈ l.
Proof.
  unfold lru_find. induction l as [|[k' v'] l IH]; simpl; [done|].
  case_bool_decide; simpl in *.
  - intros [= <-]. subst. apply elem_of_cons. by left.
  - intros Hf. apply elem_of_cons. right. by apply IH.
Qed.

Lemma lru_remove_Forall {V} (P : string * V -> Prop) k (l : list (string * V)) :
  Forall P l -> Forall P (lru_remove k l).
Proof.
  unfold lru_remove. rewrite !Forall_forall. intros Hall x Hx. apply Hall.
  apply list_elem_of_In, List.filter_In in Hx as [Hx _]. by apply list_elem_of_In.
Qed.

Lemma lru_get_Forall {V} (P : string * V -> Prop) now k (c : LRUCache V) :
  Forall P (lru_entries c) ->
  Forall P (lru_entries (lru_get now k c).2) /\
  (forall v, (lru_get now k c).1 = Some v -> P (k, v)).
Proof.
  intros Hall. unfold lru_get. destruct (lru_find k (lru_entries c)) as [v|] eqn:Hf; simpl.
  - apply lru_find_elem in Hf. rewrite Forall_forall in Hall.
    pose proof (Hall _ Hf) as Hkv. destruct (lru_isStale now k c); simpl.
    + split; [|done]. apply lru_remove_Forall. by apply Forall_forall.
    + split.
      * constructor; [done|]. apply lru_remove_Forall. by apply Forall_forall.
      * by intros ? [= <-].
  - done.
Qed.

Lemma lru_set_Forall {V} (P : string * V -> Prop) now k v (c : LRUCache V) :
  Forall P (lru_entries c) -> P (k, v) -> Forall P (lru_entries (lru_set now k v c)).
Proof.
  intros Hall Hkv. unfold lru_set. simpl. apply Forall_take.
  constructor; [done|]. by apply lru_remove_Forall.
Qed.

Section LoadMore.
Context `{EventLib}.
Variable _fetchEvent : string -> option NEvent.
Variable query : list string -> TSubRequestFilter -> Z -> nat -> list NEvent.
Variable stamp : string -> Z.

(** What the network hands back: the event an id was asked for carries the
    timestamp of the id, and relays answer a filter with events no newer than
    its [until], each carrying the timestamp of its own id. *)
Hypothesis fetch_stamped :
  forall key evt, _fetchEvent key = Some evt -> created_at evt = stamp key.
Hypothesis query_until :
  forall urls filter until lim evt,
    evt ∈ query urls filter until lim ->
    created_at evt <= until /\ created_at evt = stamp (id evt).

Abbreviation coherent := (clientCoherent stamp).
Abbreviation stampedEntry :=
  (fun entry : string * option NEvent =>
     forall evt, entry.2 = Some evt -> created_at evt = stamp entry.1).

Lemma load_timelines key c : timelines (load _fetchEvent key c).2 = timelines c.
Proof. unfold load. by destruct (lru_get _ _ _) as [[value|] cache]. Qed.

Lemma loadMany_timelines keys c : timelines (loadMany _fetchEvent keys c).2 = timelines c.
Proof.
  revert c. induction keys as [|key keys IH]; intros c; simpl; [done|].
  pose proof (load_timelines key c) as Hload.
  destruct (load _fetchEvent key c) as [value c1]. specialize (IH c1).
  destruct (loadMany _fetchEvent keys c1) as [events c2]. simpl in *. congruence.
Qed.

Lemma load_coherent key c :
  coherent c ->
  coherent (load _fetchEvent key c).2 /\
  (forall evt, (load _fetchEvent key c).1 = Some evt -> created_at evt = stamp key).
Proof.
  intros (Hsorted & Hstamped & Hcache). unfold load.
  destruct (lru_get_Forall stampedEntry (clock c) key (eventCacheMap c) Hcache) as [Hc' Hhit].
  destruct (lru_get (clock c) key (eventCacheMap c)) as [[value|] cache] eqn:Hget; simpl in *.
  - split; [by split_and!|]. intros evt ->. by apply (Hhit (Some evt)).
  - split; [split_and!; [done..|]|by apply fetch_stamped].
    exact (lru_set_Forall stampedEntry _ _ _ _ Hc' (fetch_stamped key)).
Qed.

Lemma loadMany_coherent keys c :
  coherent c ->
  coherent (loadMany _fetchEvent keys c).2 /\
  Forall (fun evt => exists key, key ∈ keys /\ created_at evt = stamp key)
         (loadMany _fetchEvent keys c).1.
Proof.
  revert c. induction keys as [|key keys IH]; intros c Hc; simpl; [by split|].
  destruct (load_coherent key c Hc) as [Hc1 Hevt].
  destruct (load _fetchEvent key c) as [value c1]. simpl in *.
  destruct (IH c1 Hc1) as [Hc2 Hall].
  destruct (loadMany _fetchEvent keys c1) as [events c2]. simpl in *.
  split; [done|].
  assert (Forall (fun evt => exists k, k ∈ key :: keys /\ created_at evt = stamp k) events) as Hall'.
  { eapply Forall_impl; [exact Hall|]. intros evt (k & Hk & Hs). exists k. split; [|done].
    apply elem_of_cons. by right. }
  destruct value as [evt|]; [|done]. constructor; [|done].
  exists key. split; [apply elem_of_cons; by left | by apply Hevt].
Qed.

Lemma prime_stamped now key evt cache :
  Forall stampedEntry (lru_entries cache) -> created_at evt = stamp key ->
  Forall stampedEntry (lru_entries (prime now key (Some evt) cache)).
Proof.
  intros Hall Hevt. unfold prime.
  destruct (lru_get_Forall stampedEntry now key cache Hall) as [Hc' _].
  destruct (lru_get now key cache) as [[value|] cache']; simpl in *; [done|].
  apply (lru_set_Forall stampedEntry now key (Some evt) cache'); [done|]. simpl. by intros ? [= <-].
Qed.

Lemma addEventToCache_coherent evt c :
  coherent c -> created_at evt = stamp (id evt) -> coherent (addEventToCache evt c).
Proof.
  intros (Hsorted & Hstamped & Hcache) Hevt. unfold addEventToCache.
  pose proof (prime_stamped (clock c) _ _ _ Hcache Hevt) as Hprimed.
  destruct (isReplaceableEvent (kind evt)); [|by split_and!].
  destruct (lru_get _ _ (replaceableEventCacheMap c)) as [cached cache]. by split_and!.
Qed.

Lemma addEventsToCache_coherent events c :
  coherent c -> Forall (fun evt => created_at evt = stamp (id evt)) events ->
  coherent (foldl (fun c evt => addEventToCache evt c) c events).
Proof.
  revert c. induction events as [|evt events IH]; intros c Hc Hall; simpl; [done|].
  apply Forall_cons in Hall as [Hevt Hall]. apply IH; [|done].
  by apply addEventToCache_coherent.
Qed.

Lemma addEventsToCache_timelines events c :
  timelines (foldl (fun c evt => addEventToCache evt c) c events) = timelines c.
Proof.
  revert c. induction events as [|evt events IH]; intros c; simpl; [done|].
  rewrite IH. unfold addEventToCache.
  destruct (isReplaceableEvent (kind evt)); [|done].
  by destruct (lru_get _ _ (replaceableEventCacheMap c)).
Qed.

Lemma findIndex_Some {A} (p : A -> bool) (l : list A) i :
  findIndex p l = Some i -> exists x, l !! i = Some x /\ p x = true.
Proof.
  revert i. induction l as [|a l IH]; intros i; simpl; [done|].
  destruct (p a) eqn:Hp.
  - intros [= <-]. by exists a.
  - destruct (findIndex p l) as [j|]; [|done]. intros [= <-].
    destruct (IH j eq_refl) as (x & Hx & Hpx). by exists x.
Qed.

(** From the first reference that is not newer than [until] on, none is. *)
Lemma sortedDesc_from refs i until :
  sortedDesc refs ->
  findIndex (fun ref : TTimelineRef => ref.2 <=? until) refs = Some i ->
  Forall (fun ref : TTimelineRef => ref.2 <= until) (drop i refs).
Proof.
  intros Hs Hfind. apply findIndex_Some in Hfind as (x & Hx & Hle). apply Z.leb_le in Hle.
  apply Forall_forall. intros y Hy. apply list_elem_of_lookup in Hy as [j Hj].
  rewrite lookup_drop in Hj. destruct j as [|j].
  - rewrite Nat.add_0_r in Hj. by simplify_eq.
  - assert (notOlder x y) as Hxy; [|unfold notOlder in Hxy; lia].
    eapply (StronglySorted_lookup notOlder refs i (i + S j)); [done | lia | done..].
Qed.

Lemma appendOlder_stamped key captured events now timelines :
  storeStamped stamp timelines ->
  Forall (fun evt => created_at evt = stamp (id evt)) events ->
  storeStamped stamp (appendOlder key captured events now timelines).
Proof.
  intros Hstore Hev. unfold appendOlder.
  destruct (timelines !! key) as [[refs f u | ks]|] eqn:Hk; try done.
  intros k r f' u'. destruct (decide (key = k)) as [-> | Hne].
  - rewrite lookup_insert_eq. intros [= <- <- <-].
    apply Forall_app. split; [by eapply Hstore|].
    apply Forall_fmap, Forall_forall. intros e He.
    apply list_elem_of_In, List.filter_In in He as [He _].
    rewrite Forall_forall in Hev. apply Hev. by apply list_elem_of_In.
  - rewrite lookup_insert_ne by done. apply Hstore.
Qed.

(** A page of [_loadMoreTimeline] holds nothing newer than the cursor. *)
Lemma _loadMoreTimeline_until key until lim now c :
  coherent c ->
  coherent (_loadMoreTimeline _fetchEvent query key until lim now c).2 /\
  Forall (fun evt => created_at evt <= until)
         (_loadMoreTimeline _fetchEvent query key until lim now c).1.
Proof.
  intros Hc. unfold _loadMoreTimeline.
  destruct (timelines c !! key) as [[refs filter urls | ks]|] eqn:Hk; try by split.
  pose proof Hc as (Hsorted & Hstamped & _).
  pose proof (Hsorted _ _ _ _ Hk) as Hrefs. pose proof (Hstamped _ _ _ _ Hk) as Hst.
  set (cached := match findIndex (fun ref : TTimelineRef => ref.2 <=? until) refs with
                 | Some startIdx => loadMany _fetchEvent (fst <$> take lim (drop startIdx refs)) c
                 | None => ([], c)
                 end).
  assert (coherent cached.2 /\ timelines cached.2 = timelines c /\
          Forall (fun evt => created_at evt <= until) cached.1)
    as (Hc1 & Htl1 & Hcached).
  { subst cached.
    destruct (findIndex (fun ref : TTimelineRef => ref.2 <=? until) refs) as [i|] eqn:Hfind;
      [|by split_and!].
    destruct (loadMany_coherent (fst <$> take lim (drop i refs)) c Hc) as [Hc1 Hall].
    split; [done|]. split; [apply loadMany_timelines|]. eapply Forall_impl; [exact Hall|].
    intros evt (k & Hkin & Hevt). rewrite Hevt.
    apply list_elem_of_fmap in Hkin as (ref & -> & Href).
    apply subseteq_take in Href.
    pose proof (sortedDesc_from refs i until Hrefs Hfind) as Hfrom.
    rewrite Forall_forall in Hfrom, Hst.
    rewrite <- (Hst ref); [by apply Hfrom|].
    by apply subseteq_drop in Href. }
  destruct cached as [cachedEvents c1]. simpl in *.
  destruct (lim <=? length cachedEvents)%nat; [by split|]. simpl.
  set (until' := default until ((fun evt => created_at evt - 1) <$> last cachedEvents)).
  assert (until' <= until) as Huntil.
  { subst until'. destruct (last cachedEvents) as [e|] eqn:Hlast; simpl; [|lia].
    rewrite Forall_forall in Hcached. pose proof (Hcached e) as He.
    rewrite last_lookup in Hlast. apply list_elem_of_lookup_2 in Hlast. specialize (He Hlast). lia. }
  set (fetched := query urls filter until' (lim - length cachedEvents)).
  assert (Forall (fun evt => created_at evt <= until /\ created_at evt = stamp (id evt)) fetched)
    as Hfetched.
  { apply Forall_forall. intros e He. apply query_until in He as [He Hs]. split; [lia | done]. }
  set (events := slice0 (lim - length cachedEvents) (sortByCreatedAtDesc fetched)).
  assert (Forall (fun evt => created_at evt <= until /\ created_at evt = stamp (id evt)) events)
    as Hevents.
  { subst events. unfold slice0, sortByCreatedAtDesc. apply Forall_take.
    by rewrite sortWith_perm. }
  split.
  - pose proof (addEventsToCache_coherent fetched c1 Hc1) as Hc2.
    pose proof (addEventsToCache_timelines fetched c1) as Htl.
    destruct Hc2 as (Hs2 & Hst2 & Hcache2).
    { eapply Forall_impl; [exact Hfetched|]. by intros e [_ ?]. }
    unfold setTimelines. split_and!; simpl; [| |done].
    + apply appendOlder_sorted; [done| |].
      * subst events. apply StronglySorted_take, sortByCreatedAtDesc_newestFirst.
      * rewrite Htl, Htl1, Hk. by intros ? ? ? [= <- <- <-].
    + apply appendOlder_stamped; [done|]. eapply Forall_impl; [exact Hevents|]. by intros e [_ ?].
  - apply Forall_app. split; [done|]. eapply Forall_impl; [exact Hevents|]. by intros e [? _].
Qed.

Lemma pushNew_Forall (P : NEvent -> Prop) events acc :
  Forall P acc.2 -> Forall P events -> Forall P (foldl pushNew acc events).2.
Proof.
  revert acc. induction events as [|evt events IH]; intros acc Hacc Hall; simpl; [done|].
  apply Forall_cons in Hall as [Hevt Hall]. apply IH; [|done].
  unfold pushNew. case_bool_decide; simpl; [done|]. apply Forall_app. split; [done|].
  by constructor.
Qed.

Lemma loadMoreTimeline_until key until lim now c :
  coherent c ->
  coherent (loadMoreTimeline _fetchEvent query key until lim now c).2 /\
  Forall (fun evt => created_at evt <= until)
         (loadMoreTimeline _fetchEvent query key until lim now c).1.
Proof.
  intros Hc. unfold loadMoreTimeline.
  destruct (timelines c !! key) as [[refs filter urls | keys]|] eqn:Hk; try by split.
  - by apply _loadMoreTimeline_until.
  - clear Hk.
    assert (forall pages c0,
      coherent c0 -> Forall (fun evt => created_at evt <= until) pages ->
      let r := foldl (fun '(pages, c) key =>
                        let '(page, c') := _loadMoreTimeline _fetchEvent query key until lim now c
                        in (pages ++ page, c')) (pages, c0) keys in
      coherent r.2 /\ Forall (fun evt => created_at evt <= until) r.1) as Hfold.
    { induction keys as [|k keys IH]; intros pages c0 Hc0 Hpages; simpl; [by split|].
      destruct (_loadMoreTimeline_until k until lim now c0 Hc0) as [Hc1 Hpage].
      destruct (_loadMoreTimeline _fetchEvent query k until lim now c0) as [page c1].
      apply IH; [done|]. apply Forall_app. by split. }
    specialize (Hfold [] c Hc (Forall_nil_2 _)). simpl in Hfold.
    destruct (foldl _ _ keys) as [pages c']. destruct Hfold as [Hc' Hpages]. simpl in *.
    split; [done|]. unfold slice0, sortByCreatedAtDesc. apply Forall_take.
    rewrite sortWith_perm. by apply pushNew_Forall.
Qed.

(** C5, amended: on a client whose timelines are sorted newest first and
    whose references and cached events carry the timestamp their id commits
    to (see [clientCoherent]), with relays that honour the [until] of a
    filter, no event returned by [loadMoreTimeline] or [_loadMoreTimeline]
    with cursor [until = T] has [created_at > T]: both the cached references
    served first and the events fetched from the network are at most as new
    as [T]; an event with [created_at = T] is returned. *)
Theorem loadMore_not_newer_than_cursor (key : string) (until : Z) (lim : nat) (now : Z)
    (c : ClientState) :
  clientCoherent stamp c ->
  Forall (fun evt => created_at evt <= until)
         (loadMoreTimeline _fetchEvent query key until lim now c).1 /\
  Forall (fun evt => created_at evt <= until)
         (_loadMoreTimeline _fetchEvent query key until lim now c).1.
Proof.
  intros Hc. split.
  - by apply loadMoreTimeline_until.
  - by apply _loadMoreTimeline_until.
Qed.
End LoadMore.

Lemma oneNoteClient_timelines :
  timelines oneNoteClient = <["k" := Single [(idA, 100)] notesFilter ["wss://r/"]]> ∅.
Proof. vm_compute. reflexivity. Qed.

Lemma oneNoteClient_coherent : clientCoherent sampleStamp oneNoteClient.
Proof.
  unfold clientCoherent. rewrite oneNoteClient_timelines. split_and!.
  - intros key refs filter urls Hk. apply lookup_insert_Some in Hk as [[_ Hk] | [_ Hk]].
    + simplify_eq. repeat constructor.
    + by rewrite lookup_empty in Hk.
  - intros key refs filter urls Hk. apply lookup_insert_Some in Hk as [[_ Hk] | [_ Hk]].
    + simplify_eq. by repeat constructor.
    + by rewrite lookup_empty in Hk.
  - vm_compute. constructor; [|constructor]. intros evt [= <-]. reflexivity.
Qed.

Lemma sampleQuery_until urls filter until lim evt :
  evt ∈ sampleQuery urls filter until lim ->
  created_at evt <= until /\ created_at evt = sampleStamp (id evt).
Proof.
  unfold sampleQuery. intros Hin. apply list_elem_of_In, List.filter_In in Hin as [Hin Hle].
  apply Z.leb_le in Hle. split; [done|]. destruct Hin as [<- | []]. reflexivity.
Qed.

(** C5, as stated, fails: a cached reference whose timestamp equals the
    cursor is served. *)
Lemma loadMore_serves_event_at_cursor :
  (loadMoreTimeline (fun _ => None) sampleQuery "k" 100 1 1000 oneNoteClient).1 = [note idA 100] /\
  (_loadMoreTimeline (fun _ => None) sampleQuery "k" 100 1 1000 oneNoteClient).1 = [note idA 100] /\
  created_at (note idA 100) >= 100.
Proof. vm_compute. split_and!; congruence. Qed.

Lemma loadMore_not_newer_than_cursor_witness :
  Forall (fun evt => created_at evt <= 100)
         (loadMoreTimeline (fun _ => None) sampleQuery "k" 100 2 1000 oneNoteClient).1 /\
  Forall (fun evt => created_at evt <= 100)
         (_loadMoreTimeline (fun _ => None) sampleQuery "k" 100 2 1000 oneNoteClient).1.
Proof.
  apply (loadMore_not_newer_than_cursor (fun _ => None) sampleQuery sampleStamp).
  - discriminate.
  - exact sampleQuery_until.
  - exact oneNoteClient_coherent.
Defined.

(** The order of the list is a premise the service does not secure: a
    load-more that overlaps a refresh of the list pushes under the guard of an
    array the timeline no longer holds, the list loses its order and holds ids
    twice, and a later load-more with cursor 60 serves an event of
    timestamp 80. *)
Lemma loadMore_after_overlap_serves_newer :
  timelines overlappedClient !! "k" =
    Some (Single [(idE, 200); (idA, 100); (idB, 80); (idD, 50); (idB, 80); (idD, 50)]
                 notesFilter ["wss://r/"]) /\
  ~ capturesCurrent (foldl applyWrite ∅ (take 3 overlappingWrites))
                    (WLoadMore "k" [(idA, 100)] 2 [note idB 80; note idD 50] 1000) /\
  ~ sortedDesc [(idE, 200); (idA, 100); (idB, 80); (idD, 50); (idB, 80); (idD, 50)] /\
  (_loadMoreTimeline (fun _ => None) sampleQuery "k" 60 3 1000 overlappedClient).1
    = [note idD 50; note idB 80; note idD 50] /\
  60 < created_at (note idB 80).
Proof.
  split_and!.
  - vm_compute. reflexivity.
  - intros Hcurrent.
    specialize (Hcurrent [(idE, 200); (idA, 100); (idB, 80); (idD, 50)] notesFilter ["wss://r/"]).
    discriminate Hcurrent. vm_compute. reflexivity.
  - intros Hs. do 3 apply StronglySorted_inv in Hs as [Hs _].
    apply StronglySorted_inv in Hs as [_ Hs]. apply Forall_inv in Hs.
    unfold notOlder in Hs. simpl in Hs. lia.
  - vm_compute. reflexivity.
  - simpl. lia.
Qed.


(** ** The replaceable event cache *)

Lemma lru_find_remove {V} (k : string) (l : list (string * V)) : lru_find k (lru_remove k l) = None.
Proof.
  unfold lru_find, lru_remove. induction l as [|[k' v'] l IH]; simpl; [done|].
  case_bool_decide; simpl; [done|]. case_bool_decide; simpl; done.
Qed.






Section Replaceable.
Context `{EventLib}.

(** What the specification says of [compareEvents]: between events with
    different timestamps the newer one wins. *)
Hypothesis compare_newer :
  forall a b, created_at a <> created_at b ->
              (0 < compareEvents a b <-> created_at b < created_at a).



End Replaceable.





(** ** Relay lists *)




Section RelayListFacts.
Variable getRelayListFromEvent : NEvent -> TRelayList.
Variable getManyReplaceableEvents : list string -> Z -> list storedEvent.
Variable loadManyFromBigRelays : list (string * Z) -> list loadedEvent.

(** The contract of the persistent store: the array it answers with is
    aligned to the public keys it was asked for. *)
Hypothesis store_aligned :
  forall pubkeys kind, length (getManyReplaceableEvents pubkeys kind) = length pubkeys.

Abbreviation fetchReplaceable :=
  (fetchReplaceableEventsFromBigRelays getManyReplaceableEvents loadManyFromBigRelays).




End RelayListFacts.


(** ** Timeline keys *)

(** C8 fails on the code: the loop of [generateTimelineKey] stores the sorted
    copy of an array and then overwrites it with the array as given, so two
    filters that differ only in the order of [kinds] are serialised
    differently, and keep their own order; their keys differ whenever the hash
    tells the two strings apart. *)
Theorem generateTimelineKey_keeps_array_order :
  stableFilter notesAndReposts = notesAndReposts /\
  stableFilter repostsAndNotes = repostsAndNotes /\
  timelineParams ["wss://relay.damus.io/"] notesAndReposts
    <> timelineParams ["wss://relay.damus.io/"] repostsAndNotes /\
  forall sha256hex : string -> string,
    sha256hex (timelineParams ["wss://relay.damus.io/"] notesAndReposts)
      <> sha256hex (timelineParams ["wss://relay.damus.io/"] repostsAndNotes) ->
    generateTimelineKey sha256hex ["wss://relay.damus.io/"] notesAndReposts
      <> generateTimelineKey sha256hex ["wss://relay.damus.io/"] repostsAndNotes.
Proof.
  split_and!.
  - vm_compute. reflexivity.
  - vm_compute. reflexivity.
  - vm_compute. discriminate.
  - intros sha256hex Hsha. exact Hsha.
Qed.

(** ** The multi-timeline aggregator *)

Lemma ag_run_snoc a inputs x :
  ag_run a (inputs ++ [x]) =
  let '(a', calls) := ag_run a inputs in
  let '(a'', out) := ag_step a' x in (a'', calls ++ out).
Proof.
  unfold ag_run. rewrite foldl_app. simpl. by destruct (foldl _ _ inputs).
Qed.

Lemma ag_step_state a x :
  let a' := (ag_step a x).1 in
  ag_limits a' = ag_limits a /\
  ag_eosedCount a' = (ag_eosedCount a + length (eosedReports (requestCount a) [x]))%nat /\
  ag_cleared a' = ag_cleared a || hasCloser [x].
Proof.
  destruct x as [i events eosed | i evt | url reason |]; simpl.
  - destruct (ag_limits a !! i) as [lim|] eqn:Hi.
    + apply lookup_lt_Some in Hi. unfold requestCount.
      assert ((i <? length (ag_limits a))%nat = true) as -> by by apply Nat.ltb_lt.
      destruct (foldl pushNew _ events) as [ids collected].
      destruct events, eosed; simpl; rewrite ?orb_false_r; split_and!; try done; lia.
    + apply lookup_ge_None in Hi. unfold requestCount.
      assert ((i <? length (ag_limits a))%nat = false) as -> by by apply Nat.ltb_ge.
      destruct eosed; simpl; rewrite ?orb_false_r; split_and!; try done; lia.
  - case_bool_decide; simpl; rewrite ?orb_false_r; split_and!; try done; lia.
  - rewrite ?orb_false_r. split_and!; try done; lia.
  - rewrite orb_true_r. split_and!; try done; lia.
Qed.

Lemma eosedReports_app n l1 l2 :
  eosedReports n (l1 ++ l2) = eosedReports n l1 ++ eosedReports n l2.
Proof. apply omap_app. Qed.

Lemma hasCloser_app l1 l2 : hasCloser (l1 ++ l2) = hasCloser l1 || hasCloser l2.
Proof. apply existsb_app. Qed.

Lemma ag_run_state a inputs :
  let a' := (ag_run a inputs).1 in
  ag_limits a' = ag_limits a /\
  ag_eosedCount a' = (ag_eosedCount a + length (eosedReports (requestCount a) inputs))%nat /\
  ag_cleared a' = ag_cleared a || hasCloser inputs.
Proof.
  induction inputs as [|x inputs IH] using rev_ind.
  - simpl. rewrite orb_false_r. split_and!; try done; lia.
  - rewrite ag_run_snoc. destruct (ag_run a inputs) as [a1 calls]. cbn [fst] in IH.
    destruct IH as (Hl & Hc & Hcl).
    pose proof (ag_step_state a1 x) as (Hl' & Hc' & Hcl').
    destruct (ag_step a1 x) as [a2 out]. cbn [fst] in *.
    assert (requestCount a1 = requestCount a) as Hn by (unfold requestCount; by rewrite Hl).
    rewrite Hn in Hc'. rewrite eosedReports_app, length_app, hasCloser_app.
    split_and!; [congruence | lia | by rewrite Hcl', Hcl, orb_assoc].
Qed.

(** What one step says to [onEvents], from the counters before it. *)
Lemma ag_step_flags a x :
  ag_cleared a = false ->
  onEventsFlags (ag_step a x).2 =
  quorumFlags (requestCount a)
              (ag_eosedCount a + length (eosedReports (requestCount a) [x])) x.
Proof.
  intros Hcl. destruct x as [i events eosed | i evt | url reason |]; simpl; try done.
  - unfold requestCount, threshold, ag_emit. rewrite Hcl.
    destruct (ag_limits a !! i) as [lim|] eqn:Hi.
    + apply lookup_lt_Some in Hi.
      assert ((i <? length (ag_limits a))%nat = true) as -> by by apply Nat.ltb_lt.
      destruct (foldl pushNew _ events) as [ids collected].
      assert ((ag_eosedCount a + length (if eosed then [i] else []))%nat
              = if eosed then S (ag_eosedCount a) else ag_eosedCount a) as Hcount.
      { destruct eosed; simpl; lia. }
      assert (length (match (if eosed then Some i else None) with
                      | Some y => [y]
                      | None => []
                      end) = length (if eosed then [i] else [])) as Hl by by destruct eosed.
      destruct events; simpl.
      * destruct eosed; simpl in *; rewrite ?Nat.add_0_r, ?Nat.add_1_r;
          by destruct (_ <=? _)%nat.
      * destruct eosed; simpl in *; rewrite ?Nat.add_0_r, ?Nat.add_1_r;
          by destruct (_ <=? _)%nat.
    + apply lookup_ge_None in Hi.
      assert ((i <? length (ag_limits a))%nat = false) as -> by by apply Nat.ltb_ge.
      done.
  - unfold ag_emit. rewrite Hcl. by case_bool_decide.
Qed.

(** *** One report of the end of stored events per sub-timeline *)

Lemma trueAtEnd_snoc flags b : true ∉ flags -> trueAtEnd (flags ++ [b]).
Proof.
  intros Hnot i Hi. rewrite length_app. simpl.
  destruct (decide (i < length flags)%nat) as [Hlt | Hge].
  - rewrite lookup_app_l in Hi by done. exfalso. apply Hnot. by eapply list_elem_of_lookup_2.
  - apply lookup_lt_Some in Hi. rewrite length_app in Hi. simpl in Hi. lia.
Qed.

Lemma trueAtEnd_snoc_inv flags b : trueAtEnd (flags ++ [b]) -> true ∉ flags.
Proof.
  intros Hend Hin. apply list_elem_of_lookup_1 in Hin as [i Hi].
  pose proof (lookup_lt_Some _ _ _ Hi) as Hlt.
  specialize (Hend i). rewrite lookup_app_l in Hend by done.
  specialize (Hend Hi). rewrite length_app in Hend. simpl in Hend. lia.
Qed.

Lemma eoseFlags_app c1 c2 : eoseFlags (c1 ++ c2) = eoseFlags c1 ++ eoseFlags c2.
Proof. apply omap_app. Qed.

Lemma onEventsFlags_app c1 c2 : onEventsFlags (c1 ++ c2) = onEventsFlags c1 ++ onEventsFlags c2.
Proof. apply omap_app. Qed.

Lemma trueCount_app l1 l2 : trueCount (l1 ++ l2) = (trueCount l1 + trueCount l2)%nat.
Proof. unfold trueCount. by rewrite List.filter_app, length_app. Qed.

Lemma trueCount_none flags : true ∉ flags -> trueCount flags = 0%nat.
Proof.
  unfold trueCount. induction flags as [|[] flags IH]; simpl; [done | |].
  - intros Hnot. exfalso. apply Hnot. by left.
  - intros Hnot. apply IH. intros Hin. apply Hnot. by right.
Qed.

(** A step of a subscription calls [oneose] at most once, with the [eosed]
    it has just computed, and never once [eosed] is set. *)
Lemma step_eoseFlags matchFilters hasStartLogin s x s' out :
  step matchFilters hasStartLogin s x = (s', out) ->
  (eoseFlags out = [] /\ eosed s' = eosed s) \/
  (eosed s = false /\ eoseFlags out = [eosed s']).
Proof.
  intros Hstep.
  unfold step, countEose, alreadyHaveEvent, handleClose, authSucceeded, startSub, setSub, close
    in Hstep.
  repeat case_match; simplify_eq; simpl in *; auto.
Qed.

(** Over a run of a subscription [oneose(true)] is the last call of
    [oneose], if it is made at all. *)
Lemma run_eoseFlags matchFilters hasStartLogin urls inputs :
  trueAtEnd (eoseFlags (run matchFilters hasStartLogin (subscribe urls) inputs).2).
Proof.
  cut (let r := run matchFilters hasStartLogin (subscribe urls) inputs in
       trueAtEnd (eoseFlags r.2) /\ (eosed r.1 = false -> true ∉ eoseFlags r.2)).
  { intros H. apply H. }
  simpl. apply (run_ind matchFilters hasStartLogin (subscribe urls)
                  (fun s calls => trueAtEnd (eoseFlags calls) /\
                                  (eosed s = false -> true ∉ eoseFlags calls))).
  - split; [intros i Hi; done | intros _ Hin; by apply elem_of_nil in Hin].
  - intros s calls x s' out [Hend Hnone] Hstep. rewrite eoseFlags_app.
    destruct (step_eoseFlags _ _ _ _ _ _ Hstep) as [[-> He] | [He ->]].
    + rewrite app_nil_r. split; [done|]. rewrite He. done.
    + split; [by apply trueAtEnd_snoc, Hnone|].
      intros He' Hin. rewrite He' in Hin. apply elem_of_app in Hin as [Hin | Hin].
      * by apply Hnone.
      * apply list_elem_of_singleton in Hin. done.
Qed.

Section TimelineReports.
Context `{EventLib}.

(** What a callback of [_subscribeTimeline] says to [onEvents]: only [oneose]
    calls it, once, and with [eosed = false] while the subscription has not
    reached its end of stored events. *)
Lemma ts_handle_flags ts c x :
  let r := ts_handle ts c x in
  match x.1 with
  | oneose eosed =>
      (length (onEventsFlags r.2) <= 1)%nat /\
      (eosed = false -> ts_eosedAt ts = None ->
       ts_eosedAt r.1.1 = None /\ true ∉ onEventsFlags r.2)
  | _ => onEventsFlags r.2 = [] /\ ts_eosedAt r.1.1 = ts_eosedAt ts
  end.
Proof.
  unfold ts_handle. destruct x as [[evt | eosed | url reason | reasons |] now]; simpl; try done.
  - unfold ts_onevent, emit.
    destruct (negb (truthy (ts_eosedAt ts))); simpl; [done|].
    by repeat case_match.
  - unfold ts_oneose, emit. split.
    + repeat case_match; simpl; lia.
    + intros -> Hnone. rewrite Hnone. simpl.
      repeat case_match; simpl; (split; [done|]); set_solver.
Qed.

(** Fed with calls in which [oneose(true)] comes last, a sub-timeline calls
    [onEvents] with [eosed = true] at most once. *)
Lemma ts_run_eosed_once ts c (inputs : list (subscribeCall * Z)) :
  ts_eosedAt ts = None ->
  trueAtEnd (eoseFlags (fst <$> inputs)) ->
  (trueCount (onEventsFlags (ts_run ts c inputs).2) <= 1)%nat.
Proof.
  intros Hnone.
  cut (trueAtEnd (eoseFlags (fst <$> inputs)) ->
       (trueCount (onEventsFlags (ts_run ts c inputs).2) <= 1)%nat /\
       (true ∉ eoseFlags (fst <$> inputs) ->
        ts_eosedAt (ts_run ts c inputs).1.1 = None /\
        true ∉ onEventsFlags (ts_run ts c inputs).2)).
  { intros Hcut Hend. by apply Hcut. }
  induction inputs as [|x inputs IH] using rev_ind.
  - intros _. simpl. split; [unfold trueCount; simpl; lia|]. intros _. split; [done|]. set_solver.
  - rewrite fmap_app, eoseFlags_app. simpl.
    unfold ts_run in *. rewrite foldl_app. simpl.
    destruct (foldl _ _ inputs) as [[ts1 c1] calls]. simpl in IH.
    pose proof (ts_handle_flags ts1 c1 x) as Hx. cbn zeta in Hx.
    destruct (ts_handle ts1 c1 x) as [[ts2 c2] out]. simpl in *.
    rewrite onEventsFlags_app, trueCount_app.
    destruct x as [call now]. simpl in *.
    destruct call as [evt | eosed | url reason | reasons |]; simpl in *.
    2: { intros Hend. pose proof (trueAtEnd_snoc_inv _ _ Hend) as Hnot.
         destruct IH as [_ IH].
         { intros i Hi. exfalso. apply Hnot. by eapply list_elem_of_lookup_2. }
         destruct (IH Hnot) as [Hat Hcalls]. destruct Hx as [Hlen Hfalse].
         rewrite (trueCount_none _ Hcalls). split.
         - unfold trueCount. pose proof (List.filter_length_le (fun b : bool => b) (onEventsFlags out)). lia.
         - intros Hnot'. assert (eosed = false) as ->.
           { destruct eosed; [|done]. exfalso. apply Hnot'. set_solver. }
           destruct (Hfalse eq_refl Hat) as [Hat' Hout]. split; [done|]. set_solver. }
    all: rewrite app_nil_r; intros Hend; destruct (IH Hend) as [Hc Hn]; destruct Hx as [-> Hat].
    all: rewrite app_nil_r; unfold trueCount at 2; simpl; rewrite Nat.add_0_r.
    all: split; [done|]; intros Hnot; rewrite Hat; by apply Hn.
Qed.

(** A sub-timeline fed by its own subscription reports its end of stored
    events at most once. *)
Lemma subscribedTimeline_eosed_once matchFilters hasStartLogin urls inputs ts c
    (stamped : list (subscribeCall * Z)) :
  ts_eosedAt ts = None ->
  fst <$> stamped = (run matchFilters hasStartLogin (subscribe urls) inputs).2 ->
  (trueCount (onEventsFlags (ts_run ts c stamped).2) <= 1)%nat.
Proof.
  intros Hnone Hcalls. apply ts_run_eosed_once; [done|]. rewrite Hcalls. apply run_eoseFlags.
Qed.
End TimelineReports.

Lemma subFlags_app i l1 l2 : subFlags i (l1 ++ l2) = subFlags i l1 ++ subFlags i l2.
Proof. apply omap_app. Qed.

Lemma eosedReports_subFlags n i inputs :
  i ∈ eosedReports n inputs -> (1 <= trueCount (subFlags i inputs))%nat.
Proof.
  induction inputs as [|x inputs IH]; [by intros ?%elem_of_nil|].
  change (x :: inputs) with ([x] ++ inputs).
  rewrite eosedReports_app, subFlags_app, trueCount_app.
  intros [Hin | Hin]%elem_of_app; [|specialize (IH Hin); lia].
  destruct x as [j events [] | | |]; simpl in Hin; try by apply elem_of_nil in Hin.
  destruct (j <? n)%nat; [|by apply elem_of_nil in Hin].
  apply list_elem_of_singleton in Hin as ->.
  unfold subFlags. simpl. rewrite bool_decide_eq_true_2 by done. unfold trueCount. simpl. lia.
Qed.

(** When every sub-timeline reports its end of stored events at most once,
    no sub-timeline is counted twice. *)
Lemma eosedReports_NoDup n inputs :
  (forall i, (trueCount (subFlags i inputs) <= 1)%nat) -> NoDup (eosedReports n inputs).
Proof.
  induction inputs as [|x inputs IH]; [intros _; constructor|].
  change (x :: inputs) with ([x] ++ inputs). intros Hone.
  assert (forall i, (trueCount (subFlags i inputs) <= 1)%nat) as Hrest.
  { intros i. specialize (Hone i). rewrite subFlags_app, trueCount_app in Hone. lia. }
  rewrite eosedReports_app.
  destruct x as [j events [] | | |]; simpl; auto.
  destruct (j <? n)%nat; simpl; auto.
  apply NoDup_cons. split; [|auto].
  intros Hin. apply eosedReports_subFlags in Hin. specialize (Hone j).
  rewrite subFlags_app, trueCount_app in Hone.
  unfold subFlags at 1 in Hone. simpl in Hone. rewrite bool_decide_eq_true_2 in Hone by done.
  unfold trueCount at 1 in Hone. simpl in Hone. lia.
Qed.

(** C6: while the closer has not run and every sub-timeline reports its EOSE
    at most once (which a sub-timeline fed by its own subscription does, see
    [subscribedTimeline_eosed_once] and [eosedReports_NoDup]), a step of the
    aggregator calls the caller's [onEvents]
    exactly when it is a delivery from a sub-timeline and the number of
    sub-timelines that have reached EOSE, this delivery included, is at least
    [floor (subRequestCount / 2)]; the [eosed] argument is whether that number
    has reached [subRequestCount]. *)
Theorem subscribeTimeline_quorum
    (subRequests : list (list string * TSubRequestFilter))
    (inputs : list aggregatorInput) (x : aggregatorInput) :
  let n := length subRequests in
  hasCloser inputs = false ->
  NoDup (eosedReports n (inputs ++ [x])) ->
  let reached : gset nat := list_to_set (eosedReports n (inputs ++ [x])) in
  let a := (ag_run (subscribeTimeline subRequests) inputs).1 in
  ag_eosedCount (ag_step a x).1 = size reached /\
  onEventsFlags (ag_step a x).2 = quorumFlags n (size reached) x.
Proof.
  intros n Hcloser Hnodup reached a.
  pose proof (ag_run_state (subscribeTimeline subRequests) inputs) as (Hl & Hc & Hcl).
  fold a in Hl, Hc, Hcl. simpl in Hl, Hc, Hcl.
  assert (requestCount a = n) as Hn.
  { unfold requestCount. rewrite Hl. simpl. by rewrite length_fmap. }
  assert (requestCount (subscribeTimeline subRequests) = n) as Hn0.
  { unfold requestCount. simpl. by rewrite length_fmap. }
  rewrite Hn0 in Hc. rewrite Hcloser in Hcl.
  assert (size reached = (ag_eosedCount a + length (eosedReports n [x]))%nat) as Hsize.
  { subst reached. rewrite size_list_to_set by done.
    unfold eosedReports. rewrite omap_app, length_app. unfold eosedReports in Hc. lia. }
  split.
  - pose proof (ag_step_state a x) as (_ & Hc' & _). cbn zeta in Hc'. rewrite Hn in Hc'.
    by rewrite Hc', Hsize.
  - rewrite ag_step_flags by done. by rewrite Hn, Hsize.
Qed.

Lemma subscribeTimeline_quorum_witness :
  ag_eosedCount
    (ag_step (ag_run (subscribeTimeline [(["wss://a/"], notesFilter); (["wss://b/"], notesFilter);
                                         (["wss://c/"], notesFilter)])
                     [SubEvents 0 [note idA 100] false; SubEvents 1 [note idA 100] true]).1
             (SubEvents 2 [note idD 50] true)).1
  = size (list_to_set (C := gset nat)
            (eosedReports 3 ([SubEvents 0 [note idA 100] false; SubEvents 1 [note idA 100] true]
                             ++ [SubEvents 2 [note idD 50] true]))) /\
  onEventsFlags
    (ag_step (ag_run (subscribeTimeline [(["wss://a/"], notesFilter); (["wss://b/"], notesFilter);
                                         (["wss://c/"], notesFilter)])
                     [SubEvents 0 [note idA 100] false; SubEvents 1 [note idA 100] true]).1
             (SubEvents 2 [note idD 50] true)).2
  = quorumFlags 3
      (size (list_to_set (C := gset nat)
               (eosedReports 3 ([SubEvents 0 [note idA 100] false; SubEvents 1 [note idA 100] true]
                                ++ [SubEvents 2 [note idD 50] true]))))
      (SubEvents 2 [note idD 50] true).
Proof.
  apply (subscribeTimeline_quorum
           [(["wss://a/"], notesFilter); (["wss://b/"], notesFilter); (["wss://c/"], notesFilter)]
           [SubEvents 0 [note idA 100] false; SubEvents 1 [note idA 100] true]
           (SubEvents 2 [note idD 50] true)).
  - reflexivity.
  - vm_compute. repeat constructor; set_solver.
Defined.

(** ** Closing *)

(** Two calls of [close()] in a row, before the relay library has called
    any [onclose] handler, mark the same sub-subscriptions as one call. *)
Lemma releaseSub_idem r : releaseSub (releaseSub r) = releaseSub r.
Proof. unfold releaseSub. by destruct r as [? [] ? ? ?]. Qed.

Lemma close_idem s : close (close s) = close s.
Proof.
  unfold close. simpl. f_equal. rewrite <- list_fmap_compose.
  apply list_fmap_ext. intros i r _. apply releaseSub_idem.
Qed.



Section ClosedTimeline.
Context `{EventLib}.


End ClosedTimeline.




(** A call of [close()] is not the last word on [onclose]: after it the
    handler of a sub-subscription that was closed already runs once more,
    with [closedCount] counted up again, as soon as the relay library answers
    the [sub.close()] of that call. *)
Lemma close_again_runs_onclose_again matchFilters hasStartLogin s i r reason signer :
  subPromises s !! i = Some r -> rs_status r = Closed ->
  startsWith "auth-required" reason = false ->
  let after := step matchFilters hasStartLogin (close s) (RelayClosed i reason signer) in
  closedCount after.1 = S (closedCount s) /\
  after.2 = onclose (rs_url r) reason ::
              (if (startedCount s <=? S (closedCount s))%nat
               then [onAllClose (closeReasons s ++ [reason])] else []).
Proof.
  intros Hi Hclosed Hreason. simpl. rewrite list_lookup_fmap, Hi. simpl.
  unfold releaseSub. rewrite Hclosed. simpl. unfold handleClose. simpl.
  by rewrite Hreason.
Qed.

(** One relay, closed twice by the caller: [onclose] and [onAllClose] are
    called twice. *)
Lemma close_twice_calls_onclose_twice :
  (run (fun _ => true) false (subscribe ["wss://r/"])
       [Connected 0; Close; RelayClosed 0 "closed by caller" false;
        Close; RelayClosed 0 "closed by caller" false]).2
  = [onclose "wss://r/" "closed by caller"; onAllClose ["closed by caller"];
     onclose "wss://r/" "closed by caller";
     onAllClose ["closed by caller"; "closed by caller"]].
Proof. reflexivity. Qed.


(** * Further properties *)

(** ** Timeline keys do not depend on the order of urls, fields and requests *)

Lemma ltb_asym (a b : string) : String.ltb a b = true -> String.ltb b a = false.
Proof.
  intros Hab. destruct (String.ltb b a) eqn:Hba; [|done].
  pose proof (ltb_trans _ _ _ Hab Hba) as Haa. by rewrite ltb_irrefl in Haa.
Qed.

Lemma leb_trans (a b c : string) :
  String.ltb b a = false -> String.ltb c b = false -> String.ltb c a = false.
Proof.
  intros Hab Hbc. destruct (String.ltb c a) eqn:Hca; [|done].
  destruct (decide (a = b)) as [-> | Hne]; [congruence|].
  pose proof (ltb_total _ _ Hab (not_eq_sym Hne)) as Hlt.
  pose proof (ltb_trans _ _ _ Hca Hlt). congruence.
Qed.

Lemma insertSorted_defaultSort {A} (str : A -> string) x l :
  StronglySorted (fun a b => String.ltb (str b) (str a) = false) l ->
  StronglySorted (fun a b => String.ltb (str b) (str a) = false)
                 (insertSorted (fun a b => String.ltb (str a) (str b)) x l).
Proof.
  induction 1 as [|y l Hs IH Hall]; simpl.
  - repeat constructor.
  - destruct (String.ltb (str y) (str x)) eqn:Hlt.
    + constructor; [done|]. rewrite insertSorted_perm. constructor; [by apply ltb_asym | done].
    + constructor; [by constructor|]. constructor; [done|].
      eapply Forall_impl; [exact Hall|]. simpl. intros z Hz. by eapply leb_trans.
Qed.

Lemma defaultSort_sorted {A} (str : A -> string) l :
  StronglySorted (fun a b => String.ltb (str b) (str a) = false) (defaultSort str l).
Proof.
  unfold defaultSort. induction l as [|x l IH]; simpl; [constructor|].
  by apply insertSorted_defaultSort.
Qed.

(** Two sorted lists with the same elements are the same list, when the
    order tells the elements apart. *)
Lemma sorted_perm_eq {A} (R : A -> A -> Prop) (l1 l2 : list A) :
  StronglySorted R l1 -> StronglySorted R l2 -> l1 ≡ₚ l2 ->
  (forall a b, a ∈ l1 -> b ∈ l1 -> R a b -> R b a -> a = b) ->
  l1 = l2.
Proof.
  intros Hs1. revert l2. induction Hs1 as [|x l1 Hs1 IH Hall1]; intros l2 Hs2 Hperm Hanti.
  - by apply Permutation_nil_l in Hperm.
  - destruct Hs2 as [|y l2 Hs2 Hall2]; [by apply Permutation_nil_r in Hperm|].
    assert (x = y) as <-.
    { assert (x ∈ y :: l2) as [-> | Hx]%elem_of_cons by (rewrite <- Hperm; by left); [done|].
      assert (y ∈ x :: l1) as [-> | Hy]%elem_of_cons by (rewrite Hperm; by left); [done|].
      rewrite Forall_forall in Hall1, Hall2.
      apply Hanti; [by left | by right | by apply Hall1 | by apply Hall2]. }
    f_equal. apply IH; [done | by eapply Permutation_cons_inv|].
    intros a b Ha Hb. apply Hanti; by right.
Qed.

Lemma defaultSort_perm {A} (str : A -> string) (l1 l2 : list A) :
  (forall a b, a ∈ l1 -> b ∈ l1 -> str a = str b -> a = b) ->
  l1 ≡ₚ l2 -> defaultSort str l1 = defaultSort str l2.
Proof.
  intros Hinj Hperm.
  apply (sorted_perm_eq (fun a b => String.ltb (str b) (str a) = false));
    try apply defaultSort_sorted.
  - unfold defaultSort. by rewrite !sortWith_perm.
  - unfold defaultSort. intros a b Ha Hb Hab Hba.
    rewrite sortWith_perm in Ha, Hb. apply Hinj; [done | done|].
    destruct (decide (str a = str b)) as [|Hne]; [done|].
    pose proof (ltb_total _ _ Hba Hne). congruence.
Qed.

Lemma entryString_key k1 v1 k2 v2 :
  hasChar "," k1 = false -> hasChar "," k2 = false ->
  k1 +:+ "," +:+ v1 = k2 +:+ "," +:+ v2 -> k1 = k2.
Proof.
  revert k2. induction k1 as [|c1 k1 IH]; intros [|c2 k2]; simpl; try done.
  - intros _ [Hc _]%orb_false_elim Heq. injection Heq as <- _.
    by rewrite bool_decide_eq_true_2 in Hc.
  - intros [Hc _]%orb_false_elim _ Heq. injection Heq as -> _.
    by rewrite bool_decide_eq_true_2 in Hc.
  - intros [_ H1]%orb_false_elim [_ H2]%orb_false_elim Heq. injection Heq as -> Heq.
    f_equal. by apply IH.
Qed.

Lemma NoDup_fmap_inj_on {A B} (f : A -> B) (l : list A) a b :
  NoDup (f <$> l) -> a ∈ l -> b ∈ l -> f a = f b -> a = b.
Proof.
  induction l as [|x l IH]; csimpl; [by intros _ ?%elem_of_nil|].
  rewrite NoDup_cons. intros [Hx Hl] [-> | Ha]%elem_of_cons [-> | Hb]%elem_of_cons Heq; auto.
  - exfalso. apply Hx. rewrite Heq. by apply list_elem_of_fmap_2.
  - exfalso. apply Hx. rewrite <- Heq. by apply list_elem_of_fmap_2.
Qed.

(** X1: the key of a timeline does not depend on the order the relay urls
    are given in, nor on the order of the fields of the filter, for a filter
    whose keys are distinct and hold no comma. *)
Theorem generateTimelineKey_order_of_urls_and_fields
    (sha256hex : string -> string) (urls1 urls2 : list string) (filter1 filter2 : Filter) :
  urls1 ≡ₚ urls2 -> filter1 ≡ₚ filter2 ->
  NoDup filter1.*1 -> Forall (fun entry => hasChar "," entry.1 = false) filter1 ->
  generateTimelineKey sha256hex urls1 filter1 = generateTimelineKey sha256hex urls2 filter2.
Proof.
  intros Hurls Hfilter Hkeys Hcomma. unfold generateTimelineKey, timelineParams, stableFilter.
  rewrite (defaultSort_perm (fun u => u) urls1 urls2) by done.
  rewrite (defaultSort_perm entryString filter1 filter2); [done | | done].
  intros a b Ha Hb Heq. apply (NoDup_fmap_inj_on fst filter1); [done | done | done|].
  rewrite Forall_forall in Hcomma. unfold entryString in Heq.
  eapply entryString_key; [by apply Hcomma | by apply Hcomma | exact Heq].
Qed.

Lemma generateTimelineKey_order_of_urls_and_fields_witness :
  generateTimelineKey (fun s => s) damusAndNos notesAndReposts
  = generateTimelineKey (fun s => s) nosAndDamus limitThenKinds.
Proof.
  apply generateTimelineKey_order_of_urls_and_fields.
  - apply Permutation_swap.
  - apply Permutation_swap.
  - vm_compute. repeat constructor; set_solver.
  - repeat constructor.
Defined.

(** X2: the key of a merged feed does not depend on the order of its
    sub-requests. *)
Theorem generateMultipleTimelinesKey_order_of_requests
    (sha256hex : string -> string) (subRequests1 subRequests2 : list (list string * Filter)) :
  subRequests1 ≡ₚ subRequests2 ->
  generateMultipleTimelinesKey sha256hex subRequests1
  = generateMultipleTimelinesKey sha256hex subRequests2.
Proof.
  intros Hperm. unfold generateMultipleTimelinesKey.
  rewrite (defaultSort_perm (fun k => k) _ ((fun r => generateTimelineKey sha256hex r.1 r.2)
                                              <$> subRequests2)); [done | done|].
  by apply fmap_Permutation.
Qed.

Lemma generateMultipleTimelinesKey_order_of_requests_witness :
  generateMultipleTimelinesKey (fun s => s) [(damusAndNos, notesAndReposts); (nosAndDamus, [])]
  = generateMultipleTimelinesKey (fun s => s) [(nosAndDamus, []); (damusAndNos, notesAndReposts)].
Proof.
  apply generateMultipleTimelinesKey_order_of_requests. apply Permutation_swap.
Defined.

(** ** The calls of [oneose] *)

Lemma step_eosedCount matchFilters hasStartLogin s x s' out :
  step matchFilters hasStartLogin s x = (s', out) ->
  (eoseFlags out = [] /\ eosed s' = eosed s /\ eosedCount s' = eosedCount s) \/
  (eosed s = false /\ eoseFlags out = [eosed s'] /\ eosedCount s' = S (eosedCount s)).
Proof.
  intros Hstep.
  unfold step, countEose, alreadyHaveEvent, handleClose, authSucceeded, startSub, setSub, close
    in Hstep.
  repeat case_match; simplify_eq; simpl in *; auto.
Qed.

(** X3: over a run of a subscription [oneose] is called once for every
    sub-subscription counted in [eosedCount], with [false] every time but the
    last one of all, and never again after it was called with [true]. *)
Theorem subscribe_oneose_false_then_true
    (matchFilters : NEvent -> bool) (hasStartLogin : bool)
    (urls : list string) (inputs : list transportInput) :
  let r := run matchFilters hasStartLogin (subscribe urls) inputs in
  eoseFlags r.2 =
    if eosed r.1 then replicate (eosedCount r.1 - 1) false ++ [true]
    else replicate (eosedCount r.1) false.
Proof.
  cut (let r := run matchFilters hasStartLogin (subscribe urls) inputs in
       (eoseFlags r.2 =
          if eosed r.1 then replicate (eosedCount r.1 - 1) false ++ [true]
          else replicate (eosedCount r.1) false) /\
       (eosed r.1 = true -> (1 <= eosedCount r.1)%nat)).
  { intros H. apply H. }
  simpl. apply (run_ind matchFilters hasStartLogin (subscribe urls)
    (fun s calls =>
       (eoseFlags calls =
          if eosed s then replicate (eosedCount s - 1) false ++ [true]
          else replicate (eosedCount s) false) /\
       (eosed s = true -> (1 <= eosedCount s)%nat))).
  - unfold subscribe.
    destruct (subscribe_fold (dedupe urls)
                {| relays := dedupe urls; _knownIds := ∅; startedCount := 0; eosedCount := 0;
                   eosed := false; closedCount := 0; closeReasons := []; hasAuthed := ∅;
                   subPromises := []; listening := true |}) as (_ & _ & -> & ->). done.
  - intros s calls x s' out [Hflags Hone] Hstep. rewrite eoseFlags_app, Hflags.
    destruct (step_eosedCount _ _ _ _ _ _ Hstep) as [(-> & -> & ->) | (He & -> & Hc)].
    + by rewrite app_nil_r.
    + rewrite He, Hc. simpl. rewrite Nat.sub_0_r. split; [|lia].
      destruct (eosed s'); [done|]. by rewrite <- replicate_S_end.
Qed.

(** ** Queries *)

Lemma run_app matchFilters hasStartLogin s xs ys :
  run matchFilters hasStartLogin s (xs ++ ys) =
  let '(s1, c1) := run matchFilters hasStartLogin s xs in
  let '(s2, c2) := run matchFilters hasStartLogin s1 ys in (s2, c1 ++ c2).
Proof.
  induction ys as [|y ys IH] using rev_ind.
  - rewrite app_nil_r. destruct (run matchFilters hasStartLogin s xs) as [s1 c1].
    rewrite run_nil. by rewrite app_nil_r.
  - rewrite app_assoc, run_snoc, IH.
    destruct (run matchFilters hasStartLogin s xs) as [s1 c1].
    rewrite run_snoc. destruct (run matchFilters hasStartLogin s1 ys) as [s2 c2].
    destruct (step matchFilters hasStartLogin s2 y) as [s3 out]. by rewrite app_assoc.
Qed.

Lemma deliveredEvents_app c1 c2 :
  deliveredEvents (c1 ++ c2) = deliveredEvents c1 ++ deliveredEvents c2.
Proof. apply omap_app. Qed.

Lemma deliveredEvents_ids calls : id <$> deliveredEvents calls = deliveredIds calls.
Proof.
  induction calls as [|c calls IH]; [done|].
  destruct c; simpl; rewrite <- ?IH; done.
Qed.

(** What the callbacks of [query] make of the calls of one step. *)
Lemma q_call_fold q out :
  let q' := foldl q_call q out in
  q_events q' = q_events q ++ deliveredEvents out /\
  q_resolved q' = q_resolved q || existsb resolves out /\
  q_sub q' = if existsb isEoseTrue out then close (q_sub q) else q_sub q.
Proof.
  revert q. induction out as [|c out IH]; intros q; simpl.
  - by rewrite app_nil_r, orb_false_r.
  - destruct (IH (q_call q c)) as (-> & -> & ->).
    destruct c as [evt | [] | url reason | reasons |]; simpl;
      rewrite <- ?app_assoc, ?orb_true_r, ?close_idem; split_and!; try done.
    all: try by destruct (existsb isEoseTrue out).
    all: try by rewrite orb_assoc, orb_true_r.
Qed.

Section QueryFacts.
Variable matchFilters : NEvent -> bool.

Abbreviation qstep := (q_step matchFilters).
Abbreviation qrun := (q_run matchFilters).

Lemma q_run_snoc q inputs x :
  qrun q (inputs ++ [x]) =
  let '(q', calls) := qrun q inputs in
  let '(q'', out) := qstep q' x in (q'', calls ++ out).
Proof. unfold q_run. rewrite foldl_app. simpl. by destruct (foldl _ _ inputs). Qed.

(** A step of a query is a step of its subscription, followed by [close()]
    when the step called [oneose(true)]. *)
Lemma q_step_sub q x q' out :
  qstep q x = (q', out) ->
  (exists xs, run matchFilters false (q_sub q) xs = (q_sub q', out)) /\
  q_events q' = q_events q ++ deliveredEvents out /\
  q_resolved q' = q_resolved q || existsb resolves out.
Proof.
  unfold q_step. intros Hstep.
  assert ((let '(s, out) := step matchFilters false (q_sub q) x in
           (foldl q_call {| q_sub := s; q_events := q_events q; q_resolved := q_resolved q |} out,
            out)) = (q', out) ->
          (exists xs, run matchFilters false (q_sub q) xs = (q_sub q', out)) /\
          q_events q' = q_events q ++ deliveredEvents out /\
          q_resolved q' = q_resolved q || existsb resolves out) as Hgen.
  { clear Hstep. intros Hstep.
    destruct (step matchFilters false (q_sub q) x) as [s out'] eqn:Hs. simplify_eq.
    pose proof (q_call_fold {| q_sub := s; q_events := q_events q; q_resolved := q_resolved q |}
                  out) as (He & Hr & Hsub). simpl in *.
    split; [|done]. rewrite Hsub.
    destruct (existsb isEoseTrue out).
    - exists [x; Close]. unfold run. simpl. rewrite Hs. simpl. by rewrite app_nil_r.
    - exists [x]. unfold run. simpl. by rewrite Hs. }
  destruct x; try exact (Hgen Hstep).
  simplify_eq. simpl. rewrite app_nil_r, orb_false_r. split; [by exists []|done].
Qed.

(** Every run of a query is a run of its subscription with the same calls;
    the array holds the events delivered, and the promise is resolved once a
    call resolving it was made. *)
Lemma q_run_sub q inputs :
  let r := qrun q inputs in
  (exists xs, run matchFilters false (q_sub q) xs = (q_sub r.1, r.2)) /\
  q_events r.1 = q_events q ++ deliveredEvents r.2 /\
  q_resolved r.1 = q_resolved q || existsb resolves r.2.
Proof.
  induction inputs as [|x inputs IH] using rev_ind.
  - simpl. rewrite app_nil_r, orb_false_r. split; [by exists []|done].
  - rewrite q_run_snoc. destruct (qrun q inputs) as [q1 calls]. simpl in IH.
    destruct IH as ([xs Hxs] & He & Hr).
    destruct (qstep q1 x) as [q2 out] eqn:Hstep.
    apply q_step_sub in Hstep as ([ys Hys] & He' & Hr'). simpl.
    split_and!.
    + exists (xs ++ ys). by rewrite run_app, Hxs, Hys.
    + by rewrite He', He, deliveredEvents_app, app_assoc.
    + by rewrite Hr', Hr, existsb_app, orb_assoc.
Qed.

(** X4: the array a query collects never holds two events of one id. *)
Theorem query_no_duplicate_ids (urls : list string) (inputs : list transportInput) :
  NoDup (id <$> q_events (qrun (query urls) inputs).1).
Proof.
  destruct (q_run_sub (query urls) inputs) as ([xs Hxs] & He & _).
  rewrite He. simpl. rewrite deliveredEvents_ids.
  pose proof (run_delivered_known matchFilters false (subscribe urls) xs) as [_ Hnodup].
  simpl in Hxs, Hnodup. by rewrite Hxs in Hnodup.
Qed.
End QueryFacts.

Lemma existsb_resolves calls :
  existsb resolves calls = true <-> exists c, c ∈ calls /\ resolves c = true.
Proof.
  rewrite existsb_exists. split; intros (c & Hin & Hc); exists c;
    (split; [by apply list_elem_of_In | done]).
Qed.

Lemma eoseTrueCalls_resolves calls :
  eoseTrueCalls calls = 1%nat -> existsb resolves calls = true.
Proof.
  unfold eoseTrueCalls. induction calls as [|c calls IH]; simpl; [done|].
  destruct c as [evt | [] | url reason | reasons |]; simpl; auto.
Qed.

(** With no sub-subscription nothing calls [oneose] or [onclose]. *)
Lemma step_no_subs_resolves matchFilters hasStartLogin s x s' out :
  subPromises s = [] -> step matchFilters hasStartLogin s x = (s', out) ->
  subPromises s' = [] /\ existsb resolves out = false.
Proof.
  intros Hnil Hstep. destruct x; simpl in Hstep; rewrite ?Hnil in Hstep; simpl in Hstep;
    simplify_eq; try done.
  - unfold alreadyHaveEvent in Hstep. repeat case_match; simplify_eq; done.
  - simpl. by rewrite Hnil.
Qed.

Lemma run_no_subs_resolves matchFilters hasStartLogin inputs :
  let r := run matchFilters hasStartLogin (subscribe []) inputs in
  subPromises r.1 = [] /\ existsb resolves r.2 = false.
Proof.
  simpl. apply (run_ind matchFilters hasStartLogin (subscribe [])
                  (fun s calls => subPromises s = [] /\ existsb resolves calls = false)).
  - done.
  - intros s calls x s' out [Hnil Hcalls] Hstep.
    eapply step_no_subs_resolves in Hstep as [Hnil' Hout]; [|done].
    by rewrite existsb_app, Hcalls, Hout.
Qed.

(** X5: a query is resolved as soon as every sub-subscription it started has
    reached its end of stored events or failed to connect, or a relay has
    closed, and not before; over an empty list of relays it is never
    resolved, and [fetchEvents] never queries an empty list. *)
Theorem query_resolved_when_relays_finish
    (matchFilters : NEvent -> bool) (urls : list string) (inputs : list transportInput) :
  let r := q_run matchFilters (query urls) inputs in
  (q_resolved r.1 = true <-> exists c, c ∈ r.2 /\ resolves c = true) /\
  ((0 < startedCount (q_sub r.1))%nat ->
   doneCount (q_sub r.1) = startedCount (q_sub r.1) -> q_resolved r.1 = true) /\
  (urls = [] -> q_resolved r.1 = false) /\
  fetchEventsRelays urls <> [].
Proof.
  simpl. destruct (q_run_sub matchFilters (query urls) inputs) as ([xs Hxs] & _ & Hr).
  simpl in Hxs, Hr. split_and!.
  - rewrite Hr. apply existsb_resolves.
  - intros Hstarted Hdone. rewrite Hr. apply eoseTrueCalls_resolves.
    pose proof (run_subInv matchFilters false urls xs) as Hinv. rewrite Hxs in Hinv.
    simpl in Hinv. destruct Hinv as (Hlen & _ & Hcount).
    destruct (eosed (q_sub (q_run matchFilters (query urls) inputs).1)).
    + apply Hcount.
    + destruct Hcount as (_ & Hlt & _).
      assert (subPromises (q_sub (q_run matchFilters (query urls) inputs).1) <> []) as Hne.
      { intros Hnil. rewrite Hnil in Hlen. simpl in Hlen. lia. }
      specialize (Hlt Hne). lia.
  - intros ->. rewrite Hr.
    pose proof (run_no_subs_resolves matchFilters false xs) as [_ Hnone].
    change (subscribe []) with (subscribe []) in Hnone. by rewrite Hxs in Hnone.
  - unfold fetchEventsRelays. by destruct (dedupe urls).
Qed.

Lemma closedAtEose_close s : eosed s = true -> closedAtEose (close s).
Proof.
  intros He. split_and!; [done | done|]. simpl. apply Forall_fmap, Forall_true.
  intros r. unfold releaseSub. destruct (rs_status r) eqn:Hst; simpl; rewrite ?Hst; by split.
Qed.

(** Once closed at its end of stored events, a subscription delivers
    nothing and stays closed. *)
Lemma closedAtEose_step matchFilters hasStartLogin s x s' out :
  closedAtEose s -> step matchFilters hasStartLogin s x = (s', out) ->
  closedAtEose s' /\ deliveredEvents out = [] /\ existsb isEoseTrue out = false.
Proof.
  intros (He & Hl & Hsubs) Hstep.
  assert (forall i r, subPromises s !! i = Some r ->
            rs_status r <> Opened /\ (rs_status r = Connecting -> rs_closeRequested r = true))
    as Hsub.
  { intros i r Hi. rewrite Forall_forall in Hsubs. apply Hsubs. by eapply list_elem_of_lookup_2. }
  unfold closedAtEose.
  destruct x; simpl in Hstep.
  - (* ConnectFailed *)
    destruct (subPromises s !! i) as [r|] eqn:Hi; [|by simplify_eq].
    destruct (Hsub i r Hi) as [Hopen Hreq].
    destruct (rs_status r) eqn:Hst; simplify_eq; try done.
    unfold countEose in Hstep. simpl in Hstep. rewrite He in Hstep. simplify_eq. simpl.
    split_and!; try done. apply Forall_insert; [done|]. simpl. done.
  - (* Connected *)
    destruct (subPromises s !! i) as [r|] eqn:Hi; [|by simplify_eq].
    destruct (Hsub i r Hi) as [Hopen Hreq].
    destruct (rs_status r) eqn:Hst; simplify_eq; try done.
    simpl. rewrite Hreq by done. split_and!; try done. apply Forall_insert; [done|]. simpl. done.
  - (* Received *)
    destruct (subPromises s !! i) as [r|] eqn:Hi; [|by simplify_eq].
    destruct (Hsub i r Hi) as [Hopen Hreq].
    destruct (rs_status r) eqn:Hst; simplify_eq; done.
  - (* Eose *)
    destruct (subPromises s !! i) as [r|] eqn:Hi; [|by simplify_eq].
    destruct (Hsub i r Hi) as [Hopen Hreq].
    destruct (rs_status r) eqn:Hst; simplify_eq; done.
  - (* RelayClosed *)
    destruct (subPromises s !! i) as [r|] eqn:Hi; [|by simplify_eq].
    destruct (Hsub i r Hi) as [Hopen Hreq].
    destruct (rs_status r) eqn:Hst; simplify_eq; try done.
    unfold handleClose in Hstep. repeat case_match; simplify_eq; simpl.
    all: split_and!; try done; apply Forall_insert; [done|]; simpl; done.
  - (* AuthDone *)
    destruct (subPromises s !! i) as [r|] eqn:Hi; [|by simplify_eq].
    destruct (Hsub i r Hi) as [Hopen Hreq].
    destruct (rs_authPending r); [|by simplify_eq].
    unfold authSucceeded in Hstep. simpl in Hstep. rewrite He in Hstep.
    destruct ok; simplify_eq; simpl.
    all: split_and!; try done; apply Forall_insert; [done|]; simpl; done.
  - (* NewEvent *)
    rewrite Hl in Hstep. simpl in Hstep. by simplify_eq.
  - (* Close *)
    simplify_eq. split; [|done]. by apply closedAtEose_close.
Qed.

Lemma isEoseTrue_flags out : existsb isEoseTrue out = true -> true ∈ eoseFlags out.
Proof.
  induction out as [|c out IH]; [done|].
  destruct c as [evt | [] | url reason | reasons |]; simpl; auto.
  - intros _. by left.
  - intros Hout. right. by apply IH.
Qed.

Lemma isEoseTrue_eosed matchFilters hasStartLogin s x s' out :
  step matchFilters hasStartLogin s x = (s', out) ->
  existsb isEoseTrue out = true -> eosed s' = true.
Proof.
  intros Hstep Hout%isEoseTrue_flags.
  destruct (step_eoseFlags _ _ _ _ _ _ Hstep) as [[Hnone _] | [_ Hone]].
  - rewrite Hnone in Hout. by apply elem_of_nil in Hout.
  - rewrite Hone in Hout. by apply list_elem_of_singleton in Hout.
Qed.

Section QueryStable.
Variable matchFilters : NEvent -> bool.

Lemma q_step_closed q x q' out :
  q_step matchFilters q x = (q', out) ->
  (closedAtEose (q_sub q) ->
   closedAtEose (q_sub q') /\ q_events q' = q_events q /\ deliveredEvents out = []) /\
  (existsb isEoseTrue out = true -> closedAtEose (q_sub q')).
Proof.
  unfold q_step. intros Hstep.
  assert ((let '(s, out) := step matchFilters false (q_sub q) x in
           (foldl q_call {| q_sub := s; q_events := q_events q; q_resolved := q_resolved q |} out,
            out)) = (q', out) ->
          (closedAtEose (q_sub q) ->
           closedAtEose (q_sub q') /\ q_events q' = q_events q /\ deliveredEvents out = []) /\
          (existsb isEoseTrue out = true -> closedAtEose (q_sub q'))) as Hgen.
  { clear Hstep. intros Hstep.
    destruct (step matchFilters false (q_sub q) x) as [s out'] eqn:Hs. simplify_eq.
    pose proof (q_call_fold {| q_sub := s; q_events := q_events q; q_resolved := q_resolved q |}
                  out) as (He & _ & Hsub). simpl in *.
    split.
    - intros Hclosed.
      destruct (closedAtEose_step _ _ _ _ _ _ Hclosed Hs) as (Hclosed' & Hnone & Hno).
      rewrite Hsub, Hno, He, Hnone, app_nil_r. done.
    - intros Hout. rewrite Hsub, Hout. apply closedAtEose_close.
      by eapply isEoseTrue_eosed. }
  destruct x; try exact (Hgen Hstep).
  simplify_eq. simpl. split; [done | discriminate].
Qed.

Lemma q_run_closed q inputs :
  let r := q_run matchFilters q inputs in
  (closedAtEose (q_sub q) ->
   closedAtEose (q_sub r.1) /\ q_events r.1 = q_events q /\ deliveredEvents r.2 = []) /\
  (existsb isEoseTrue r.2 = true -> closedAtEose (q_sub r.1)).
Proof.
  induction inputs as [|x inputs IH] using rev_ind; [done|].
  rewrite q_run_snoc. destruct (q_run matchFilters q inputs) as [q1 calls]. simpl in IH.
  destruct IH as [IHc IHe].
  destruct (q_step matchFilters q1 x) as [q2 out] eqn:Hstep.
  apply q_step_closed in Hstep as [Hc He]. simpl. split.
  - intros Hclosed. destruct (IHc Hclosed) as (Hc1 & He1 & Hd1).
    destruct (Hc Hc1) as (Hc2 & He2 & Hd2).
    by rewrite deliveredEvents_app, Hd1, Hd2, He2, He1.
  - rewrite existsb_app. intros [Hcalls | Hout]%orb_true_iff; [|by apply He].
    by apply Hc, IHe.
Qed.

(** X6: once a query has been resolved at the end of stored events, with
    its subscription closed, nothing is pushed to the array it was resolved
    with, whatever arrives afterwards. *)
Theorem query_array_final_after_eose
    (urls : list string) (inputs more : list transportInput) :
  let r := q_run matchFilters (query urls) inputs in
  oneose true ∈ r.2 ->
  q_events (q_run matchFilters r.1 more).1 = q_events r.1 /\
  deliveredEvents (q_run matchFilters r.1 more).2 = [].
Proof.
  intros r Hin.
  destruct (q_run_closed (query urls) inputs) as [_ Hclosed]. fold r in Hclosed.
  assert (existsb isEoseTrue r.2 = true) as He.
  { apply existsb_exists. exists (oneose true). split; [by apply list_elem_of_In | done]. }
  destruct (q_run_closed r.1 more) as [Hstay _].
  destruct (Hstay (Hclosed He)) as (_ & ? & ?). done.
Qed.
End QueryStable.

Lemma query_array_final_after_eose_witness :
  oneose true ∈ (q_run (fun _ => true) (query ["wss://r/"])
                   [Connected 0; Received 0 (note idA 100) true; Eose 0]).2 /\
  q_events (q_run (fun _ => true)
              (q_run (fun _ => true) (query ["wss://r/"])
                 [Connected 0; Received 0 (note idA 100) true; Eose 0]).1
              [Received 0 (note idD 50) true; NewEvent (note idB 100)]).1
  = [note idA 100].
Proof.
  split; [vm_compute; set_solver|].
  apply (query_array_final_after_eose (fun _ => true) ["wss://r/"]
           [Connected 0; Received 0 (note idA 100) true; Eose 0]
           [Received 0 (note idD 50) true; NewEvent (note idB 100)]).
  vm_compute. set_solver.
Defined.

(** ** Fetching single events *)

Lemma newestFirst_head events evt :
  head (sortByCreatedAtDesc events) = Some evt ->
  evt ∈ events /\ Forall (fun e => created_at e <= created_at evt) events.
Proof.
  intros Hhead. pose proof (sortByCreatedAtDesc_newestFirst events) as Hsorted.
  pose proof (sortWith_perm newerFirst events) as Hperm.
  fold sortByCreatedAtDesc in Hperm.
  destruct (sortByCreatedAtDesc events) as [|e sorted]; simplify_eq. simpl in Hhead. simplify_eq.
  split; [rewrite <- Hperm; by left|].
  rewrite <- Hperm. apply StronglySorted_inv in Hsorted as [_ Hall].
  constructor; [lia | done].
Qed.

Lemma head_sort_None events : head (sortByCreatedAtDesc events) = None -> events = [].
Proof.
  intros Hhead. pose proof (sortWith_perm newerFirst events) as Hperm.
  fold sortByCreatedAtDesc in Hperm.
  destruct (sortByCreatedAtDesc events); [|done]. by apply Permutation_nil_l in Hperm.
Qed.

(** X7: [tryHarderToFetchEvent] asks the relays it is given; given none, it
    asks the first four write relays of the relay list of the first author of
    the filter, in their order, or the first four of them that are no big
    relays when the big relays were asked already; and with no author either
    it falls back to the big relays, or asks nobody when they were asked
    already.  It answers with an event that is as new as any the relays
    delivered, and with [undefined] exactly when it asked nobody or nothing
    was delivered. *)
Theorem tryHarderToFetchEvent_newest_of_chosen_relays
    (getRelayListFromEvent : NEvent -> TRelayList)
    (getManyReplaceableEvents : list string -> Z -> list storedEvent)
    (loadManyFromBigRelays : list (string * Z) -> list loadedEvent)
    (queryResult : list string -> Filter -> list NEvent)
    (relayUrls : list string) (filter : Filter) (already : bool) :
  let chosen := tryHarderRelays getRelayListFromEvent getManyReplaceableEvents
                                loadManyFromBigRelays relayUrls filter already in
  let answer := tryHarderToFetchEvent getRelayListFromEvent getManyReplaceableEvents
                                      loadManyFromBigRelays queryResult relayUrls filter already in
  (relayUrls <> [] -> chosen = Some relayUrls) /\
  (relayUrls = [] -> filterAuthors filter = [] ->
   chosen = Some (if already then [] else BIG_RELAY_URLS)) /\
  (forall author authors relayList,
     relayUrls = [] -> filterAuthors filter = author :: authors ->
     fetchRelayList getRelayListFromEvent getManyReplaceableEvents
                    loadManyFromBigRelays author = Some relayList ->
     exists urls,
       chosen = Some urls /\
       urls = (if already
               then take 4 (List.filter (fun url => negb (bool_decide (url ∈ BIG_RELAY_URLS)))
                                        (write relayList))
               else take 4 (write relayList)) /\
       urls ⊆ write relayList /\ (length urls <= 4)%nat /\
       (already = true -> Forall (fun url => url ∉ BIG_RELAY_URLS) urls)) /\
  (forall urls, chosen = Some urls ->
     (forall evt, answer = Some (Some evt) ->
        evt ∈ queryResult urls filter /\
        Forall (fun e => created_at e <= created_at evt) (queryResult urls filter)) /\
     (answer = Some None <-> urls = [] \/ queryResult urls filter = [])).
Proof.
  intros chosen answer. subst chosen answer. unfold tryHarderToFetchEvent, tryHarderRelays.
  split_and!.
  - intros Hne. by destruct relayUrls, (filterAuthors filter).
  - intros -> ->. done.
  - intros author authors relayList -> -> ->. unfold slice0.
    eexists. split; [reflexivity|]. split_and!.
    + done.
    + destruct already; intros url Hin; apply subseteq_take in Hin; [|done].
      apply list_elem_of_In, List.filter_In in Hin as [Hin _]. by apply list_elem_of_In.
    + destruct already; rewrite length_take; lia.
    + intros ->. rewrite Forall_forall. intros url Hin.
      apply subseteq_take in Hin.
      apply list_elem_of_In, List.filter_In in Hin as [_ Hurl].
      apply negb_true_iff, bool_decide_eq_false in Hurl. done.
  - intros urls Hchosen. rewrite Hchosen. destruct urls as [|url urls].
    + split; [done|]. split; [by left | done].
    + split.
      * intros evt [= Hhead]. by apply newestFirst_head.
      * split.
        -- intros [= Hhead]. right. by apply head_sort_None.
        -- intros [? | ->]; [done|]. done.
Qed.

Lemma eventsMap_lookup (events : list NEvent) (m : gmap string NEvent) key :
  let m' := foldl (fun m event => <[id event := event]> m) m events in
  (forall evt, m' !! key = Some evt ->
     (evt ∈ events /\ id evt = key) \/ m !! key = Some evt) /\
  (m' !! key = None <-> m !! key = None /\ Forall (fun evt => id evt <> key) events).
Proof.
  revert m. induction events as [|event events IH]; intros m; simpl.
  - split; [by right|]. split; [done | by intros [? _]].
  - destruct (IH (<[id event := event]> m)) as [Hsome Hnone]. split.
    + intros evt Hevt. destruct (Hsome evt Hevt) as [[Hin Hid] | Hm].
      * left. split; [by right | done].
      * destruct (decide (id event = key)) as [Heq | Hne].
        -- rewrite Heq, lookup_insert_eq in Hm. simplify_eq. left. split; [by left | done].
        -- rewrite lookup_insert_ne in Hm by done. by right.
    + rewrite Hnone, Forall_cons. destruct (decide (id event = key)) as [Heq | Hne].
      * rewrite Heq, lookup_insert_eq. split; [by intros [? _] | by intros (_ & ? & _)].
      * rewrite lookup_insert_ne by done. tauto.
Qed.

(** X8: [fetchEventsFromBigRelays] answers in the order of the ids it was
    asked for: at the place of an id stands an event of that id which the
    relays delivered, and [undefined] stands there only when they delivered no
    event of that id. *)
Theorem fetchEventsFromBigRelays_aligned
    (queryResult : list string -> Filter -> list NEvent) (ids : list string) :
  let events := queryResult BIG_RELAY_URLS (idsFilter ids) in
  let answers := fetchEventsFromBigRelays queryResult ids in
  length answers = length ids /\
  forall i key, ids !! i = Some key ->
    (forall evt, answers !! i = Some (Some evt) -> id evt = key /\ evt ∈ events) /\
    (answers !! i = Some None <-> Forall (fun evt => id evt <> key) events).
Proof.
  intros events answers. subst answers. unfold fetchEventsFromBigRelays. fold events.
  split; [by rewrite length_fmap|].
  intros i key Hi. rewrite list_lookup_fmap, Hi. simpl.
  destruct (eventsMap_lookup events ∅ key) as [Hsome Hnone]. simpl in Hsome, Hnone. split.
  - intros evt [= Hevt]. destruct (Hsome evt Hevt) as [[? ?] | Hempty]; [done|].
    by rewrite lookup_empty in Hempty.
  - split.
    + intros [= Hevt]. by apply Hnone.
    + intros Hall. f_equal. apply Hnone. by rewrite lookup_empty.
Qed.

(** ** Publishing: relays that cannot be reached, and the local notification *)

Lemma publishRun_counts signer relayUrls done :
  let n := length (dedupe relayUrls) in
  let p := publishRun signer relayUrls done in
  uniqueRelayUrls p = dedupe relayUrls /\
  finishedCount p = length (List.filter (fun d => negb (isEnsureRelayFailed d)) done) /\
  (successCount p <= acks done)%nat /\
  (settled p = Some Resolved -> (n <= 3 * successCount p)%nat) /\
  (forall aggregate, settled p = Some (Rejected aggregate) -> (n <= finishedCount p)%nat).
Proof.
  intros n. induction done as [|d done IH] using rev_ind; [done|].
  unfold publishRun in *. rewrite foldl_app. simpl.
  set (q := foldl (finish signer) (publishEvent relayUrls) done) in *.
  cbn zeta in IH. destruct IH as (Hu & Hf & Hs & Hres & Hrej).
  rewrite List.filter_app, length_app, acks_snoc.
  unfold finish, isEnsureRelayFailed at 2, isPublished.
  destruct d as [u [| |isError message retried]]; cbn -[Nat.mul Nat.leb].
  - split_and!; try done; try lia.
  - unfold finally. cbn -[Nat.mul Nat.leb]. rewrite Hu. fold n.
    split_and!; try done; try lia.
    + destruct (n <=? 3 * S (successCount q))%nat eqn:Hle.
      * intros _. by apply Nat.leb_le in Hle.
      * destruct (settled q) as [[]|] eqn:Hq;
          destruct (n <=? S (finishedCount q))%nat; try done.
        all: intros _; specialize (Hres eq_refl); lia.
    + intros aggregate.
      destruct (n <=? 3 * S (successCount q))%nat;
        destruct (settled q) as [[]|] eqn:Hq;
        destruct (n <=? S (finishedCount q))%nat eqn:Hle; try done.
      all: try (intros _; by apply Nat.leb_le in Hle).
      all: intros [= <-]; specialize (Hrej _ eq_refl); lia.
  - assert (forall q' : Publishing,
              uniqueRelayUrls q' = uniqueRelayUrls q -> successCount q' = successCount q ->
              finishedCount q' = finishedCount q -> settled q' = settled q ->
              let p := finally q' in
              uniqueRelayUrls p = dedupe relayUrls /\
              finishedCount p =
                (length (List.filter (fun d => negb (isEnsureRelayFailed d)) done) + 1)%nat /\
              (successCount p <= acks done + 0)%nat /\
              (settled p = Some Resolved -> (n <= 3 * successCount p)%nat) /\
              (forall aggregate, settled p = Some (Rejected aggregate) ->
                 (n <= finishedCount p)%nat)) as Hfin.
    { intros q' Hu' Hs' Hf' Hset'. unfold finally. cbn -[Nat.mul Nat.leb].
      rewrite Hu', Hs', Hf', Hset', Hu. fold n. split_and!; try done; try lia.
      - destruct (n <=? 3 * successCount q)%nat eqn:Hle.
        + intros _. by apply Nat.leb_le in Hle.
        + destruct (settled q) as [[]|] eqn:Hq;
            destruct (n <=? S (finishedCount q))%nat; try done.
          all: intros _; by apply Hres.
      - intros aggregate.
        destruct (n <=? 3 * successCount q)%nat;
          destruct (settled q) as [[]|] eqn:Hq;
          destruct (n <=? S (finishedCount q))%nat eqn:Hle; try done.
        all: try (intros _; by apply Nat.leb_le in Hle).
        all: intros [= <-]; specialize (Hrej _ eq_refl); lia. }
    destruct (isError && startsWith "auth-required" message && signer); by apply Hfin.
Qed.

(** X9: in a publish in which the connection to one of the relays cannot be
    established, the operation is never rejected, however the other relays
    answer; when in addition fewer than a third of the relays acknowledge, it
    is never settled at all. *)
Theorem publishEvent_unreachable_relay_never_rejected
    (signer : bool) (relayUrls : list string) (done : list (string * publishOutcome)) :
  let n := length (dedupe relayUrls) in
  (length done <= n)%nat ->
  (exists d, d ∈ done /\ isEnsureRelayFailed d = true) ->
  let p := publishRun signer relayUrls done in
  (forall aggregate, settled p <> Some (Rejected aggregate)) /\
  ((acks done < ceilThird n)%nat -> settled p = None).
Proof.
  intros n Hlen (d & Hin & Hd) p.
  destruct (publishRun_counts signer relayUrls done) as (_ & Hf & Hs & Hres & Hrej).
  fold n p in Hf, Hs, Hres, Hrej.
  assert (length (List.filter (fun d => negb (isEnsureRelayFailed d)) done) < length done)%nat
    as Hlt.
  { clear -Hin Hd. induction done as [|x done IH]; [by apply elem_of_nil in Hin|].
    apply elem_of_cons in Hin as [<- | Hin]; simpl.
    - rewrite Hd. simpl.
      pose proof (List.filter_length_le (fun d => negb (isEnsureRelayFailed d)) done). lia.
    - specialize (IH Hin). destruct (negb (isEnsureRelayFailed x)); simpl; lia. }
  assert (forall aggregate, settled p <> Some (Rejected aggregate)) as Hnever.
  { intros aggregate Hset. specialize (Hrej _ Hset). lia. }
  split; [done|]. intros Hacks.
  destruct (settled p) as [[|aggregate]|] eqn:Hset; [|by destruct (Hnever aggregate)|done].
  specialize (Hres eq_refl). pose proof (ceilThird_le n (successCount p)). lia.
Qed.

Lemma publishEvent_unreachable_relay_never_rejected_witness :
  (forall aggregate,
     settled (publishRun false ["wss://a/"; "wss://b/"]
                [("wss://a/", EnsureRelayFailed);
                 ("wss://b/", PublishRejected true "blocked" false)])
     <> Some (Rejected aggregate)) /\
  ((acks [("wss://a/", EnsureRelayFailed); ("wss://b/", PublishRejected true "blocked" false)]
    < ceilThird 2)%nat ->
   settled (publishRun false ["wss://a/"; "wss://b/"]
              [("wss://a/", EnsureRelayFailed);
               ("wss://b/", PublishRejected true "blocked" false)]) = None).
Proof.
  apply (publishEvent_unreachable_relay_never_rejected false ["wss://a/"; "wss://b/"]
           [("wss://a/", EnsureRelayFailed); ("wss://b/", PublishRejected true "blocked" false)]).
  - vm_compute. lia.
  - exists ("wss://a/", EnsureRelayFailed). split; [by left | done].
Defined.

Lemma expectedEmits_snoc n done d :
  expectedEmits n (done ++ [d]) =
  (expectedEmits n done +
   if negb (isEnsureRelayFailed d) && (n <=? 3 * acks (done ++ [d]))%nat then 1 else 0)%nat.
Proof.
  unfold expectedEmits. rewrite length_app. cbn [length]. rewrite Nat.add_1_r, seq_S.
  cbn [Nat.add]. rewrite List.filter_app, length_app. f_equal.
  - f_equal. apply List.filter_ext_in. intros k Hk%in_seq. unfold emitsAt, quorumAt.
    rewrite lookup_app_l by lia. rewrite take_app_le by lia. done.
  - cbn [List.filter]. unfold emitsAt, quorumAt. rewrite list_lookup_middle by done.
    rewrite take_ge by (rewrite length_app; simpl; lia).
    by destruct (negb (isEnsureRelayFailed d) && (n <=? 3 * acks (done ++ [d]))%nat).
Qed.

(** X10: [successCount] counts the relays that acknowledged at the first
    attempt; a relay that acknowledges at the retry after authentication is
    not counted, so that [successCount] falls short of the number of relays
    that acknowledged by the number of those.  [emitNewEvent] is dispatched
    once for every relay whose chain ends with the quorum of counted
    acknowledgements reached, so more than once when more relays answer after
    the quorum. *)
Theorem publishEvent_emits_per_chain_after_quorum
    (signer : bool) (relayUrls : list string) (done : list (string * publishOutcome)) :
  let p := publishRun signer relayUrls done in
  successCount p = acks done /\
  (successCount p + length (List.filter (isRetryAck signer) done))%nat
    = acknowledgements signer done /\
  newEventEmitted p = expectedEmits (length (dedupe relayUrls)) done.
Proof.
  cut (let p := publishRun signer relayUrls done in
       uniqueRelayUrls p = dedupe relayUrls /\ successCount p = acks done /\
       newEventEmitted p = expectedEmits (length (dedupe relayUrls)) done).
  { intros (_ & Hs & He). split_and!; [done| |done]. cbn zeta in Hs. rewrite Hs.
    unfold acks, acknowledgements. clear.
    induction done as [|[u [| |isError message retried]] done IH]; simpl in *; try lia.
    unfold isPublished, isRetryAck in *. simpl.
    destruct (isError && startsWith "auth-required" message && signer && retried);
      simpl; lia. }
  induction done as [|d done IH] using rev_ind; [done|].
  unfold publishRun in *. rewrite foldl_app. simpl.
  set (q := foldl (finish signer) (publishEvent relayUrls) done) in *.
  cbn zeta in IH. destruct IH as (Hu & Hs & He).
  rewrite expectedEmits_snoc, acks_snoc.
  unfold finish, isEnsureRelayFailed, isPublished.
  destruct d as [u [| |isError message retried]]; cbn -[Nat.mul Nat.leb].
  - split_and!; try done; lia.
  - unfold finally. cbn -[Nat.mul Nat.leb]. rewrite Hu, Hs, He.
    replace (S (acks done)) with (acks done + 1)%nat by lia.
    split_and!; try done.
    destruct (length (dedupe relayUrls) <=? 3 * (acks done + 1))%nat; lia.
  - assert (forall q' : Publishing,
              uniqueRelayUrls q' = uniqueRelayUrls q -> successCount q' = successCount q ->
              newEventEmitted q' = newEventEmitted q ->
              let p := finally q' in
              uniqueRelayUrls p = dedupe relayUrls /\ successCount p = (acks done + 0)%nat /\
              newEventEmitted p =
                (expectedEmits (length (dedupe relayUrls)) done +
                 if (length (dedupe relayUrls) <=? 3 * (acks done + 0))%nat then 1 else 0)%nat)
      as Hfin.
    { intros q' Hu' Hs' He'. unfold finally. cbn -[Nat.mul Nat.leb].
      rewrite Hu', Hs', He', Hu, Hs, He, Nat.add_0_r. split_and!; try done.
      destruct (length (dedupe relayUrls) <=? 3 * acks done)%nat; lia. }
    destruct (isError && startsWith "auth-required" message && signer); by apply Hfin.
Qed.

(** ** Pages of older events *)

(** Collecting under an id set keeps the ids of the collected events apart. *)
Lemma pushNew_NoDup (events : list NEvent) (acc : gset string * list NEvent) :
  (forall evt, evt ∈ acc.2 -> id evt ∈ acc.1) -> NoDup (id <$> acc.2) ->
  let acc' := foldl pushNew acc events in
  (forall evt, evt ∈ acc'.2 -> id evt ∈ acc'.1) /\ NoDup (id <$> acc'.2).
Proof.
  revert acc. induction events as [|evt events IH]; intros acc Hids Hnodup; simpl; [done|].
  apply IH; unfold pushNew; case_bool_decide; simpl; try done.
  - intros e [He | He]%elem_of_app.
    + specialize (Hids e He). set_solver.
    + apply list_elem_of_singleton in He. subst e. set_solver.
  - rewrite fmap_app. apply NoDup_app. split; [done|]. split; [|apply NoDup_singleton].
    intros k Hk Hk'. apply list_elem_of_singleton in Hk'. subst k.
    apply list_elem_of_fmap in Hk as (e & Heq & He). apply Hids in He. congruence.
Qed.

Lemma sorted_page_NoDup (lim : nat) (events : list NEvent) :
  NoDup (id <$> events) -> NoDup (id <$> slice0 lim (sortByCreatedAtDesc events)).
Proof.
  intros Hnodup. unfold slice0. rewrite fmap_take.
  apply (sublist_NoDup _ (id <$> sortByCreatedAtDesc events)); [|apply sublist_take].
  unfold sortByCreatedAtDesc. by rewrite sortWith_perm.
Qed.

Lemma sorted_page_newestFirst (lim : nat) (events : list NEvent) :
  newestFirst (slice0 lim (sortByCreatedAtDesc events)).
Proof. apply StronglySorted_take, sortByCreatedAtDesc_newestFirst. Qed.

Section Pages.
Context `{EventLib}.
Variable _fetchEvent : string -> option NEvent.
Variable query : list string -> TSubRequestFilter -> Z -> nat -> list NEvent.

Lemma loadMany_length keys c :
  (length (loadMany _fetchEvent keys c).1 <= length keys)%nat.
Proof.
  revert c. induction keys as [|key keys IH]; intros c; simpl; [done|].
  destruct (load _fetchEvent key c) as [value c1].
  specialize (IH c1). destruct (loadMany _fetchEvent keys c1) as [events c2].
  destruct value; simpl in *; lia.
Qed.

Lemma _loadMoreTimeline_length key until lim now c :
  (length (_loadMoreTimeline _fetchEvent query key until lim now c).1 <= lim)%nat.
Proof.
  unfold _loadMoreTimeline.
  destruct (timelines c !! key) as [[refs filter urls | ks]|]; simpl; try lia.
  set (cached := match findIndex (fun ref : TTimelineRef => ref.2 <=? until) refs with
                 | Some startIdx => loadMany _fetchEvent (fst <$> take lim (drop startIdx refs)) c
                 | None => ([], c)
                 end).
  assert (length cached.1 <= lim)%nat as Hcached.
  { subst cached. destruct (findIndex _ refs) as [i|]; simpl; [|lia].
    etrans; [apply loadMany_length|]. rewrite length_fmap, length_take. lia. }
  destruct cached as [cachedEvents c1]. simpl in *.
  destruct (lim <=? length cachedEvents)%nat eqn:Hle; simpl; [done|].
  apply Nat.leb_gt in Hle. unfold slice0. rewrite length_app, length_take. lia.
Qed.

(** X11: a page of [loadMoreTimeline] never holds more than [limit] events;
    the page of a merged feed holds no two events of one id and is ordered
    newest first. *)
Theorem loadMoreTimeline_at_most_limit
    (key : string) (until : Z) (lim : nat) (now : Z) (c : ClientState) :
  let page := (loadMoreTimeline _fetchEvent query key until lim now c).1 in
  (length page <= lim)%nat /\
  (forall keys, timelines c !! key = Some (Multi keys) ->
     NoDup (id <$> page) /\ newestFirst page).
Proof.
  simpl. unfold loadMoreTimeline.
  destruct (timelines c !! key) as [[refs filter urls | ks]|] eqn:Hk.
  - split; [|done]. pose proof (_loadMoreTimeline_length key until lim now c) as Hlen.
    unfold _loadMoreTimeline in *. by rewrite Hk in *.
  - destruct (foldl _ _ ks) as [pages c']. simpl. split.
    + unfold slice0. rewrite length_take. lia.
    + intros _ _. split; [|apply sorted_page_newestFirst].
      apply sorted_page_NoDup.
      apply (pushNew_NoDup pages (∅, [])); simpl; [by intros ? ?%elem_of_nil | constructor].
  - split; [simpl; lia | done].
Qed.
End Pages.

(** ** What the aggregator hands to its caller *)

Lemma onEventsLists_app c1 c2 : onEventsLists (c1 ++ c2) = onEventsLists c1 ++ onEventsLists c2.
Proof. apply omap_app. Qed.

Lemma onNewEvents_app c1 c2 : onNewEvents (c1 ++ c2) = onNewEvents c1 ++ onNewEvents c2.
Proof. apply omap_app. Qed.

Lemma max_list_lookup (l : list nat) i n : l !! i = Some n -> (n <= max_list l)%nat.
Proof.
  revert i. induction l as [|x l IH]; intros [|i]; simpl; try done.
  - intros [= ->]. lia.
  - intros Hi. specialize (IH _ Hi). lia.
Qed.

(** A step keeps the merged list in order, and hands it to [onEvents] as it
    is after the step. *)
Lemma ag_step_merged a x :
  mergedInv a ->
  mergedInv (ag_step a x).1 /\
  ag_limits (ag_step a x).1 = ag_limits a /\
  Forall (fun events => events = ag_events (ag_step a x).1) (onEventsLists (ag_step a x).2).
Proof.
  intros (Hnodup & Hsorted & Hids & Hlen).
  destruct x as [i events eosed | i evt | url reason |]; simpl; try done.
  - destruct (ag_limits a !! i) as [lim|] eqn:Hi; [|done].
    pose proof (pushNew_NoDup events (ag_eventIdSet a, ag_events a) Hids Hnodup) as [Hids' Hnodup'].
    destruct (foldl pushNew (ag_eventIdSet a, ag_events a) events) as [ids collected] eqn:Hfold.
    simpl in Hids', Hnodup'.
    assert (events = [] -> ids = ag_eventIdSet a /\ collected = ag_events a) as Hnil.
    { intros ->. simpl in Hfold. by simplify_eq. }
    split_and!.
    + destruct events as [|e events]; simpl.
      * destruct (Hnil eq_refl) as [-> ->]. done.
      * split_and!.
        -- by apply sorted_page_NoDup.
        -- apply sorted_page_newestFirst.
        -- intros e' He'. apply elem_of_list_to_set. by apply list_elem_of_fmap_2.
        -- simpl. unfold slice0. rewrite length_take. apply max_list_lookup in Hi. lia.
    + by destruct events.
    + unfold ag_emit. destruct events; simpl;
        destruct (threshold a <=? _)%nat; destruct (ag_cleared a); simpl; by repeat constructor.
  - case_bool_decide; simpl; [done|]. split_and!; try done.
    unfold ag_emit. by destruct (ag_cleared a).
Qed.

(** X12: every list the aggregator hands to [onEvents] is ordered newest
    first, holds no two events of one id, and is no longer than the largest
    limit of the sub-requests. *)
Theorem subscribeTimeline_onEvents_lists
    (subRequests : list (list string * TSubRequestFilter)) (inputs : list aggregatorInput) :
  Forall (fun events =>
            newestFirst events /\ NoDup (id <$> events) /\
            (length events <= max_list ((fun r => limit r.2) <$> subRequests))%nat)
         (onEventsLists (ag_run (subscribeTimeline subRequests) inputs).2).
Proof.
  cut (let r := ag_run (subscribeTimeline subRequests) inputs in
       mergedInv r.1 /\ ag_limits r.1 = (fun r => limit r.2) <$> subRequests /\
       Forall (fun events =>
                 newestFirst events /\ NoDup (id <$> events) /\
                 (length events <= max_list ((fun r => limit r.2) <$> subRequests))%nat)
              (onEventsLists r.2)).
  { intros H. apply H. }
  induction inputs as [|x inputs IH] using rev_ind.
  - simpl. split; [|split; [done | constructor]]. unfold mergedInv. simpl.
    split_and!; [constructor | constructor | by intros ? ?%elem_of_nil | lia].
  - rewrite ag_run_snoc. destruct (ag_run (subscribeTimeline subRequests) inputs) as [a calls].
    cbn zeta in IH. simpl in IH. destruct IH as (Hinv & Hlim & Hcalls).
    pose proof (ag_step_merged a x Hinv) as (Hinv' & Hlim' & Hout).
    destruct (ag_step a x) as [a' out]. simpl in *.
    split_and!; [done | congruence|].
    rewrite onEventsLists_app. apply Forall_app. split; [done|].
    eapply Forall_impl; [exact Hout|]. simpl. intros events ->.
    destruct Hinv' as (? & ? & _ & Hlen). rewrite Hlim', Hlim in Hlen. done.
Qed.

Lemma ag_step_new a x :
  ag_newEventIdSet a ⊆ ag_newEventIdSet (ag_step a x).1 /\
  (onNewEvents (ag_step a x).2 = [] \/
   exists evt, onNewEvents (ag_step a x).2 = [evt] /\ (id evt ∉ ag_newEventIdSet a) /\
               id evt ∈ ag_newEventIdSet (ag_step a x).1).
Proof.
  destruct x as [i events eosed | i evt | url reason |]; simpl; try (split; [done | by left]).
  - destruct (ag_limits a !! i) as [lim|]; simpl; [|split; [done | by left]].
    destruct (foldl pushNew _ events) as [ids collected].
    split; [by destruct events|]. left.
    unfold ag_emit. destruct events; simpl;
      destruct (threshold a <=? _)%nat; destruct (ag_cleared a); done.
  - case_bool_decide; simpl; [split; [done | by left]|].
    split; [set_solver|]. unfold ag_emit. destruct (ag_cleared a); simpl; [by left|].
    right. exists evt. split; [done|]. split; [done | set_solver].
Qed.

(** X13: the aggregator calls [onNew] at most once with an event of a given
    id, however many sub-timelines announce it. *)
Theorem subscribeTimeline_onNew_once_per_id
    (subRequests : list (list string * TSubRequestFilter)) (inputs : list aggregatorInput) :
  NoDup (id <$> onNewEvents (ag_run (subscribeTimeline subRequests) inputs).2).
Proof.
  cut (let r := ag_run (subscribeTimeline subRequests) inputs in
       (forall evt, evt ∈ onNewEvents r.2 -> id evt ∈ ag_newEventIdSet r.1) /\
       NoDup (id <$> onNewEvents r.2)).
  { intros H. apply H. }
  induction inputs as [|x inputs IH] using rev_ind.
  - simpl. split; [by intros ? ?%elem_of_nil | constructor].
  - rewrite ag_run_snoc. destruct (ag_run (subscribeTimeline subRequests) inputs) as [a calls].
    cbn zeta in IH. simpl in IH. destruct IH as [Hknown Hnodup].
    pose proof (ag_step_new a x) as [Hsub Hout].
    destruct (ag_step a x) as [a' out]. simpl in *. rewrite onNewEvents_app.
    destruct Hout as [-> | (evt & -> & Hfresh & Hadded)].
    + rewrite app_nil_r. split; [|done]. intros evt Hin. apply Hsub, Hknown, Hin.
    + split.
      * intros e [Hin | Hin]%elem_of_app; [apply Hsub, Hknown, Hin|].
        apply list_elem_of_singleton in Hin. by subst e.
      * rewrite fmap_app. apply NoDup_app. split; [done|]. split; [|apply NoDup_singleton].
        intros k Hk Hk'. apply list_elem_of_singleton in Hk'. subst k.
        apply list_elem_of_fmap in Hk as (e & Heq & He). apply Hknown in He.
        rewrite <- Heq in He. done.
Qed.

(** ** What a timeline subscription hands to its caller *)

Section TimelineCalls.
Context `{EventLib}.

(** One callback of [_subscribeTimeline]: [onNew] is called only once
    [eosedAt] is set, with an event stamped later; a set [eosedAt] is never
    changed, and an unset one is set by [oneose(true)] alone. *)
Lemma ts_handle_new ts c x :
  let r := ts_handle ts c x in
  (truthy (ts_eosedAt ts) = true -> ts_eosedAt r.1.1 = ts_eosedAt ts) /\
  Forall (fun evt => exists t, ts_eosedAt ts = Some t /\ t <> 0 /\ t < created_at evt)
         (onNewEvents r.2) /\
  (truthy (ts_eosedAt ts) = false ->
   onNewEvents r.2 = [] /\ (x.1 <> oneose true -> truthy (ts_eosedAt r.1.1) = false)).
Proof.
  unfold ts_handle. destruct x as [[evt | eosed | url reason | reasons |] now]; simpl;
    try (split_and!; try done; by constructor).
  - unfold ts_onevent, emit.
    destruct (ts_eosedAt ts) as [t|] eqn:Ht; simpl; [|split_and!; try done; by constructor].
    destruct (t =? 0) eqn:Hz; simpl.
    { split; [done|]. split; [constructor|]. intros _. split; [done|]. intros _. by rewrite Hz. }
    apply Z.eqb_neq in Hz. split; [done|]. split; [|done].
    destruct (t <? created_at evt) eqn:Hlt; [|constructor].
    apply Z.ltb_lt in Hlt. destruct (ts_cleared ts); simpl; [constructor|].
    repeat constructor. by exists t.
  - unfold ts_oneose, emit. split_and!.
    + intros Htruthy. rewrite Htruthy, andb_false_r.
      repeat case_match; simpl; done.
    + repeat case_match; simpl; constructor.
    + intros Hfalsy. split.
      * repeat case_match; simpl; done.
      * intros Hne. assert (eosed = false) as -> by (destruct eosed; congruence).
        simpl. repeat case_match; simpl; done.
Qed.

(** X14: a timeline subscription calls [onNew] only after the feed has
    reached its end of stored events, and only with events stamped later than
    the moment it did; before that, events are only collected. *)
Theorem timeline_onNew_only_after_eose
    (ts : TimelineSub) (c : ClientState) (inputs : list (subscribeCall * Z)) :
  let r := ts_run ts c inputs in
  Forall (fun evt => exists t, ts_eosedAt r.1.1 = Some t /\ t <> 0 /\ t < created_at evt)
         (onNewEvents r.2) /\
  (truthy (ts_eosedAt ts) = false -> true ∉ eoseFlags (fst <$> inputs) ->
   onNewEvents r.2 = []).
Proof.
  cut (let r := ts_run ts c inputs in
       (truthy (ts_eosedAt ts) = true -> ts_eosedAt r.1.1 = ts_eosedAt ts) /\
       Forall (fun evt => exists t, ts_eosedAt r.1.1 = Some t /\ t <> 0 /\ t < created_at evt)
              (onNewEvents r.2) /\
       (truthy (ts_eosedAt ts) = false -> true ∉ eoseFlags (fst <$> inputs) ->
        onNewEvents r.2 = [] /\ truthy (ts_eosedAt r.1.1) = false)).
  { intros (_ & Hall & Hnone). split; [done|]. intros Hf Hno. by apply Hnone. }
  induction inputs as [|x inputs IH] using rev_ind.
  - simpl. split_and!; try done; try constructor.
  - unfold ts_run in *. rewrite foldl_app. simpl.
    destruct (foldl _ _ inputs) as [[ts1 c1] calls]. cbn zeta in IH. simpl in IH.
    destruct IH as (Hkeep & Hall & Hnone).
    pose proof (ts_handle_new ts1 c1 x) as (Hkeep' & Hall' & Hnone').
    destruct (ts_handle ts1 c1 x) as [[ts2 c2] out]. simpl in *.
    rewrite onNewEvents_app, fmap_app, eoseFlags_app.
    assert (forall t, ts_eosedAt ts1 = Some t -> t <> 0 -> ts_eosedAt ts2 = Some t) as Hstay.
    { intros t Ht Hz. rewrite Hkeep'; [done|]. rewrite Ht. simpl.
      by apply negb_true_iff, Z.eqb_neq. }
    split_and!.
    + intros Htruthy. specialize (Hkeep Htruthy). rewrite Hkeep' by (by rewrite Hkeep). done.
    + apply Forall_app. split.
      * eapply Forall_impl; [exact Hall|]. simpl. intros evt (t & Ht & Hz & Hlt).
        exists t. split; [by eapply Hstay | done].
      * eapply Forall_impl; [exact Hall'|]. simpl. intros evt (t & Ht & Hz & Hlt).
        exists t. split; [by eapply Hstay | done].
    + intros Hfalsy Hno.
      assert (true ∉ eoseFlags inputs.*1) as Hno1 by (intros ?; apply Hno, elem_of_app; by left).
      destruct (Hnone Hfalsy Hno1) as [-> Hfalsy1].
      destruct (Hnone' Hfalsy1) as [-> Hfalsy2]. split; [done|]. apply Hfalsy2.
      intros Hx. apply Hno, elem_of_app. right. csimpl. rewrite Hx. simpl. by left.
Qed.

Lemma ts_handle_lists ts c x :
  ts_needSort ts = true ->
  let r := ts_handle ts c x in
  ts_needSort r.1.1 = true /\ ts_filter r.1.1 = ts_filter ts /\
  Forall (fun events => (length events <= limit (ts_filter ts))%nat) (onEventsLists r.2).
Proof.
  intros Hsort. unfold ts_handle.
  destruct x as [[evt | eosed | url reason | reasons |] now]; simpl;
    try (split_and!; try done; by constructor).
  - unfold ts_onevent, emit. repeat case_match; simpl; split_and!; try done; by constructor.
  - unfold ts_oneose, emit. rewrite Hsort. simpl.
    repeat case_match; simpl; split_and!; try done; repeat constructor;
      unfold slice0; rewrite length_take; lia.
Qed.
End TimelineCalls.

(** X15: a timeline subscription that sorts never hands more than
    [filter.limit] events to [onEvents], neither with the events it has
    cached when it starts nor later. *)
Theorem timeline_onEvents_at_most_limit
    (lib : EventLib) (sha256hex : string -> string) (_fetchEvent : string -> option NEvent)
    (urls : list string) (filter : TSubRequestFilter) (c : ClientState)
    (inputs : list (subscribeCall * Z)) :
  let started := _subscribeTimeline sha256hex _fetchEvent urls filter true c in
  Forall (fun events => (length events <= limit filter)%nat)
         (onEventsLists (started.1.2 ++ (ts_run started.1.1.1 started.2 inputs).2)).
Proof.
  intros started. rewrite onEventsLists_app. apply Forall_app. split.
  - subst started. unfold _subscribeTimeline.
    set (key := generateTimelineKey sha256hex (dedupe urls) (toFilter filter)).
    destruct (cachedRefs (timelines c) key) as [[[refs f] u]|]; simpl; [|constructor].
    pose proof (loadMany_length _fetchEvent (fst <$> slice0 (limit filter) refs) c) as Hlen.
    destruct (loadMany _fetchEvent (fst <$> slice0 (limit filter) refs) c) as [cached c1].
    simpl in *. destruct cached as [|first cached]; simpl; [constructor|].
    repeat constructor. unfold slice0 in Hlen. rewrite length_fmap, length_take in Hlen.
    simpl in *. lia.
  - assert (ts_needSort started.1.1.1 = true /\ ts_filter started.1.1.1 = filter) as [Hs Hf].
    { subst started. unfold _subscribeTimeline.
      destruct (match cachedRefs _ _ with Some _ => _ | None => _ end) as [cached c1].
      by destruct cached. }
    generalize dependent (started.1.1.1). generalize (started.2). clear started.
    intros c0 ts Hs Hf.
    cut (let r := ts_run ts c0 inputs in
         ts_needSort r.1.1 = true /\ ts_filter r.1.1 = filter /\
         Forall (fun events => (length events <= limit filter)%nat) (onEventsLists r.2)).
    { intros H. apply H. }
    induction inputs as [|x inputs IH] using rev_ind; [simpl; split_and!; try done; constructor|].
    unfold ts_run in *. rewrite foldl_app. simpl.
    destruct (foldl _ _ inputs) as [[ts1 c1] calls]. cbn zeta in IH. simpl in IH.
    destruct IH as (Hs1 & Hf1 & Hcalls).
    pose proof (ts_handle_lists ts1 c1 x Hs1) as (Hs2 & Hf2 & Hout).
    destruct (ts_handle ts1 c1 x) as [[ts2 c2] out]. simpl in *.
    split_and!; [done | congruence|].
    rewrite onEventsLists_app. apply Forall_app. split; [done|]. by rewrite Hf1 in Hout.
Qed.

(** ** Where events were seen *)

Lemma getSeenEventRelays_track eventId relay key seenOn :
  getSeenEventRelays key (trackEventSeenOn eventId relay seenOn) =
  if bool_decide (key = eventId) then setAdd relay (getSeenEventRelays key seenOn)
  else getSeenEventRelays key seenOn.
Proof.
  unfold getSeenEventRelays, trackEventSeenOn. case_bool_decide as Hk.
  - subst key. by rewrite lookup_insert_eq.
  - by rewrite lookup_insert_ne.
Qed.

Lemma find_head_filter {A} (p : A -> bool) (l : list A) : List.find p l = head (List.filter p l).
Proof. induction l as [|x l IH]; simpl; [done|]. by destruct (p x). Qed.

(** X16: after any sequence of sightings, the relays an event was seen on
    are exactly the relays it was tracked on, each listed once; the hints of
    the event are its relay urls outside the local network, and
    [getEventHint] is the first of them, or the empty string. *)
Theorem seenOn_lists_tracked_relays_once
    (relayUrl : nat -> string) (isLocalNetworkUrl : string -> bool)
    (tracks : list (string * nat)) (eventId : string) :
  let seenOn := foldl (fun seenOn t => trackEventSeenOn t.1 t.2 seenOn) ∅ tracks in
  NoDup (getSeenEventRelays eventId seenOn) /\
  (forall relay, relay ∈ getSeenEventRelays eventId seenOn <-> (eventId, relay) ∈ tracks) /\
  (forall url, url ∈ getEventHints relayUrl isLocalNetworkUrl eventId seenOn <->
               url ∈ getSeenEventRelayUrls relayUrl eventId seenOn /\
               isLocalNetworkUrl url = false) /\
  getEventHint relayUrl isLocalNetworkUrl eventId seenOn
  = default "" (head (getEventHints relayUrl isLocalNetworkUrl eventId seenOn)).
Proof.
  intros seenOn. split_and!.
  - subst seenOn. induction tracks as [|[key relay] tracks IH] using rev_ind.
    + simpl. unfold getSeenEventRelays. rewrite lookup_empty. constructor.
    + rewrite foldl_app. simpl. rewrite getSeenEventRelays_track.
      case_bool_decide; [|done]. unfold setAdd. case_bool_decide; [done|].
      apply NoDup_app. split; [done|]. split; [|apply NoDup_singleton].
      intros r Hr Hr'. apply list_elem_of_singleton in Hr'. by subst r.
  - subst seenOn. induction tracks as [|[key relay] tracks IH] using rev_ind; intros r.
    + simpl. unfold getSeenEventRelays. rewrite lookup_empty. simpl. split; by intros ?%elem_of_nil.
    + rewrite foldl_app. simpl. rewrite getSeenEventRelays_track, elem_of_app, <- IH.
      rewrite list_elem_of_singleton. case_bool_decide as Hk.
      * subst key. unfold setAdd. case_bool_decide as Hr.
        -- naive_solver.
        -- rewrite elem_of_app, list_elem_of_singleton. naive_solver.
      * naive_solver.
  - intros url. unfold getEventHints. rewrite !list_elem_of_In, List.filter_In.
    by rewrite negb_true_iff.
  - unfold getEventHint, getEventHints. by rewrite find_head_filter.
Qed.

(** ** Choosing the relays to publish to *)

(** X17: except for a report of an event, whose relays are the ones the
    reported event was seen on, [determineTargetRelays] never answers with no
    relay; relay urls the caller specifies are taken as they are; and for a
    follow list or a mute list the relays do not depend on the tags, so the
    relay lists of the people listed are not looked up. *)
Theorem determineTargetRelays_never_empty
    (getRelayListFromEvent : NEvent -> TRelayList)
    (getManyReplaceableEvents : list string -> Z -> list storedEvent)
    (loadManyFromBigRelays : list (string * Z) -> list loadedEvent)
    (relayUrl : nat -> string) (tagNameEquals : string -> list string -> bool)
    (isValidPubkey : string -> bool)
    (event : NEvent) (options : TPublishOptions) (seenOn : SeenOn) :
  let target := determineTargetRelays getRelayListFromEvent getManyReplaceableEvents
                  loadManyFromBigRelays relayUrl tagNameEquals isValidPubkey in
  (forall targetEventId,
     kind event = ReportKind -> reportTarget tagNameEquals event = Some targetEventId ->
     target event options seenOn = getSeenEventRelayUrls relayUrl targetEventId seenOn) /\
  (kind event <> ReportKind \/ reportTarget tagNameEquals event = None ->
   target event options seenOn <> [] /\
   (forall url urls, specifiedRelayUrls options = Some (url :: urls) ->
      target event options seenOn = url :: urls)) /\
  (kind event = ContactsKind \/ kind event = MutelistKind ->
   forall tags', target (withTags tags' event) options seenOn = target event options seenOn).
Proof.
  intros target. subst target. unfold determineTargetRelays. split_and!.
  - intros targetEventId -> ->. by rewrite bool_decide_eq_true_2.
  - intros Hno.
    assert ((if bool_decide (kind event = ReportKind)
             then reportTarget tagNameEquals event else None) = None) as ->.
    { destruct Hno as [Hk | ->]; [by rewrite bool_decide_eq_false_2|]. by case_bool_decide. }
    split.
    + destruct (specifiedRelayUrls options) as [[|url urls]|]; simpl; try done.
      all: by destruct (_ ++ _).
    + intros url urls ->. done.
  - intros Hkind tags'.
    assert (kind event <> ReportKind) as Hne by (destruct Hkind as [-> | ->]; done).
    simpl. rewrite !bool_decide_eq_false_2 by done.
    unfold mentionRelays, bigRelaysFor. simpl.
    assert (bool_decide (kind event = ContactsKind) || bool_decide (kind event = MutelistKind)
            = true) as ->.
    { destruct Hkind as [-> | ->]; done. }
    done.
Qed.

(** ** Batched lookups on the big relays *)

Lemma groupPush_keys kind pubkey groups :
  (groupPush kind pubkey groups).*1 =
  if bool_decide (kind ∈ groups.*1) then groups.*1 else groups.*1 ++ [kind].
Proof.
  induction groups as [|[k0 pks0] groups IH]; csimpl; [done|].
  destruct (decide (k0 = kind)) as [-> | Hk].
  - rewrite bool_decide_eq_true_2 by done. csimpl.
    rewrite bool_decide_eq_true_2; [done | by left].
  - rewrite bool_decide_eq_false_2 by done. csimpl. rewrite IH.
    destruct (decide (kind ∈ groups.*1)) as [Hin | Hin].
    + rewrite !bool_decide_eq_true_2; [done | by right | done].
    + rewrite !bool_decide_eq_false_2; [done | | done].
      intros [? | ?]%elem_of_cons; by simplify_eq.
Qed.

Lemma groupPush_members kind pubkey groups k pk :
  (exists pks, (k, pks) ∈ groupPush kind pubkey groups /\ pk ∈ pks) <->
  (exists pks, (k, pks) ∈ groups /\ pk ∈ pks) \/ (k = kind /\ pk = pubkey).
Proof.
  induction groups as [|[k0 pks0] groups IH]; simpl.
  - split.
    + intros (pks & Hin & Hpk). apply list_elem_of_singleton in Hin. simplify_eq.
      apply list_elem_of_singleton in Hpk. by right.
    + intros [(pks & Hin & _) | [-> ->]]; [by apply elem_of_nil in Hin|].
      exists [pubkey]. split; by apply list_elem_of_singleton.
  - destruct (decide (k0 = kind)) as [Hk | Hk];
      [rewrite bool_decide_eq_true_2 by done | rewrite bool_decide_eq_false_2 by done].
    + subst k0. split.
      * intros (pks & [Heq | Hin]%elem_of_cons & Hpk).
        -- simplify_eq. apply elem_of_app in Hpk as [Hpk | Hpk%list_elem_of_singleton].
           ++ left. exists pks0. split; [by left | done].
           ++ by right.
        -- left. exists pks. split; [by right | done].
      * intros [(pks & [Heq | Hin]%elem_of_cons & Hpk) | [-> ->]].
        -- simplify_eq. exists (pks0 ++ [pubkey]). split; [by left|]. apply elem_of_app. by left.
        -- exists pks. split; [by right | done].
        -- exists (pks0 ++ [pubkey]). split; [by left|]. apply elem_of_app. right.
           by apply list_elem_of_singleton.
    + split.
      * intros (pks & [Heq | Hin]%elem_of_cons & Hpk).
        -- simplify_eq. left. exists pks0. split; [by left | done].
        -- destruct (proj1 IH) as [(pks' & Hin' & Hpk') | ?]; [by exists pks| |by right].
           left. exists pks'. split; [by right | done].
      * intros [(pks & [Heq | Hin]%elem_of_cons & Hpk) | Hnew].
        -- simplify_eq. exists pks0. split; [by left | done].
        -- destruct (proj2 IH) as (pks' & Hin' & Hpk'); [left; by exists pks|].
           exists pks'. split; [by right | done].
        -- destruct (proj2 IH) as (pks' & Hin' & Hpk'); [by right|].
           exists pks'. split; [by right | done].
Qed.

Lemma groupPush_size kind pubkey groups :
  length (mjoin (groupPush kind pubkey groups).*2) = S (length (mjoin groups.*2)).
Proof.
  induction groups as [|[k0 pks0] groups IH]; csimpl; [done|].
  case_bool_decide; csimpl in *; rewrite !length_app; csimpl; [lia|]. rewrite IH. lia.
Qed.

(** X18: the batch function of the big-relay loader asks one query per kind,
    and the queries together ask for exactly the public keys of the batch,
    each under its kind, as many as the batch holds. *)
Theorem groupByKind_one_query_per_kind (params : list (string * Z)) :
  NoDup (groupByKind params).*1 /\
  (forall kind pubkey,
     (exists pubkeys, (kind, pubkeys) ∈ groupByKind params /\ pubkey ∈ pubkeys) <->
     (pubkey, kind) ∈ params) /\
  length (mjoin (groupByKind params).*2) = length params.
Proof.
  unfold groupByKind. induction params as [|[pubkey kind] params IH] using rev_ind.
  - simpl. split; [constructor|]. split; [|done]. intros k pk. split.
    + intros (pks & Hin & _). by apply elem_of_nil in Hin.
    + by intros ?%elem_of_nil.
  - destruct IH as (Hnodup & Hmem & Hlen). rewrite foldl_app. simpl. split_and!.
    + rewrite groupPush_keys. case_bool_decide as Hin; [done|].
      apply NoDup_app. split; [done|]. split; [|apply NoDup_singleton].
      intros k Hk Hk'. apply list_elem_of_singleton in Hk'. by subst k.
    + intros k pk. rewrite groupPush_members, Hmem, elem_of_app, list_elem_of_singleton.
      naive_solver.
    + rewrite groupPush_size, Hlen, length_app. simpl. lia.
Qed.

Lemma keepNewest_fold (events : list NEvent) (m : gmap string NEvent) key :
  let m' := foldl keepNewest m events in
  (forall evt, m' !! key = Some evt ->
     ((evt ∈ events /\ bigRelaysKey (pubkey evt) (kind evt) = key) \/ m !! key = Some evt) /\
     (forall old, m !! key = Some old -> created_at old <= created_at evt) /\
     Forall (fun e => bigRelaysKey (pubkey e) (kind e) = key -> created_at e <= created_at evt)
            events) /\
  (m' !! key = None <->
   m !! key = None /\ Forall (fun e => bigRelaysKey (pubkey e) (kind e) <> key) events).
Proof.
  revert m. induction events as [|event events IH]; intros m; simpl.
  - split.
    + intros evt Hevt. split; [by right|]. split; [|constructor].
      intros old Hold. rewrite Hevt in Hold. simplify_eq. lia.
    + split; [done | by intros [? _]].
  - destruct (IH (keepNewest m event)) as [Hsome Hnone]. clear IH.
    set (k := bigRelaysKey (pubkey event) (kind event)) in *.
    assert (forall key', key' <> k -> keepNewest m event !! key' = m !! key') as Hother.
    { intros key' Hne. unfold keepNewest. fold k.
      destruct (m !! k) as [existing|]; [destruct (_ <? _)|]; by rewrite ?lookup_insert_ne. }
    assert (exists kept, keepNewest m event !! k = Some kept /\
                         created_at event <= created_at kept /\
                         (kept = event \/ m !! k = Some kept) /\
                         (forall old, m !! k = Some old -> created_at old <= created_at kept))
      as (kept & Hkept & Hle & Hwhich & Hold).
    { unfold keepNewest. fold k. destruct (m !! k) as [existing|] eqn:Hm.
      - destruct (created_at existing <? created_at event) eqn:Hlt.
        + apply Z.ltb_lt in Hlt. exists event. rewrite lookup_insert_eq.
          split_and!; [done | lia | by left|]. intros old [= <-]. lia.
        + apply Z.ltb_ge in Hlt. exists existing. rewrite Hm.
          split_and!; [done | lia | by right|]. intros old [= <-]. lia.
      - exists event. rewrite lookup_insert_eq. split_and!; [done | lia | by left | done]. }
    split.
    + intros evt Hevt. destruct (Hsome evt Hevt) as (Hfrom & Holder & Hall).
      destruct (decide (key = k)) as [-> | Hne].
      * specialize (Holder kept Hkept). split_and!.
        -- destruct Hfrom as [[Hin Hk] | Hm].
           ++ left. split; [by right | done].
           ++ rewrite Hkept in Hm. simplify_eq. destruct Hwhich as [-> | Hm]; [|by right].
              left. split; [by left | done].
        -- intros old Hm. specialize (Hold old Hm). lia.
        -- constructor; [intros _; lia | done].
      * rewrite Hother in Hfrom, Holder by done. split_and!.
        -- destruct Hfrom as [[Hin Hk] | Hm]; [|by right]. left. split; [by right | done].
        -- done.
        -- constructor; [|done]. intros Hk. by destruct Hne.
    + rewrite Hnone, Forall_cons. destruct (decide (key = k)) as [-> | Hne].
      * rewrite Hkept. split; [by intros [? _] | by intros (_ & ? & _)].
      * rewrite Hother by done. split; [intros [? ?]; split_and!; try done; by apply not_eq_sym|].
        intros (? & _ & ?). done.
Qed.

(** X19: the batch function answers in the order of the keys it was asked
    for: at the place of a key stands an event of that key which the big
    relays delivered, as new as any event of that key they delivered, and
    [null] stands there only when they delivered no event of that key;
    whatever the order in which the queries resolve. *)
Theorem replaceableEventFromBigRelaysBatchLoadFn_newest_per_key
    (queryResult : list string -> Filter -> list NEvent)
    (params : list (string * Z)) (completed : list (Z * list string)) :
  let delivered := batchDelivered queryResult completed in
  let answers := (replaceableEventFromBigRelaysBatchLoadFn queryResult params completed).1 in
  length answers = length params /\
  forall i pk k, params !! i = Some (pk, k) ->
    (forall evt, answers !! i = Some (Some evt) ->
       evt ∈ delivered /\ bigRelaysKey (pubkey evt) (kind evt) = bigRelaysKey pk k /\
       Forall (fun e => bigRelaysKey (pubkey e) (kind e) = bigRelaysKey pk k ->
                        created_at e <= created_at evt) delivered) /\
    (answers !! i = Some None <->
     Forall (fun e => bigRelaysKey (pubkey e) (kind e) <> bigRelaysKey pk k) delivered).
Proof.
  intros delivered answers. subst answers. unfold replaceableEventFromBigRelaysBatchLoadFn.
  fold delivered. simpl. split; [by rewrite length_fmap|].
  intros i pk k Hi. rewrite list_lookup_fmap, Hi. simpl.
  destruct (keepNewest_fold delivered ∅ (bigRelaysKey pk k)) as [Hsome Hnone].
  simpl in Hsome, Hnone. split.
  - intros evt [= Hevt]. destruct (Hsome evt Hevt) as ([[? ?] | Hempty] & _ & Hall).
    + done.
    + by rewrite lookup_empty in Hempty.
  - split.
    + intros [= Hevt]. by apply Hnone.
    + intros Hall. f_equal. apply Hnone. by rewrite lookup_empty.
Qed.

(** ** Favorite relays of the followings *)

Lemma setAdd_NoDup {A} `{EqDecision A} (x : A) (set : list A) :
  NoDup set -> NoDup (setAdd x set).
Proof.
  intros Hnodup. unfold setAdd. case_bool_decide; [done|].
  apply NoDup_app. split; [done|]. split; [|apply NoDup_singleton].
  intros y Hy Hy'. apply list_elem_of_singleton in Hy'. by subst y.
Qed.

Lemma setAdd_elem {A} `{EqDecision A} (x y : A) (set : list A) :
  y ∈ setAdd x set <-> y ∈ set \/ y = x.
Proof.
  unfold setAdd. case_bool_decide; [naive_solver|].
  rewrite elem_of_app, list_elem_of_singleton. done.
Qed.

Lemma relayMapAdd_keys {A} `{EqDecision A} url (pubkey : A) relayMap :
  (relayMapAdd url pubkey relayMap).*1 =
  if bool_decide (url ∈ relayMap.*1) then relayMap.*1 else relayMap.*1 ++ [url].
Proof.
  induction relayMap as [|[u pks] relayMap IH]; csimpl; [done|].
  destruct (decide (u = url)) as [-> | Hu].
  - rewrite bool_decide_eq_true_2 by done. csimpl.
    rewrite bool_decide_eq_true_2; [done | by left].
  - rewrite bool_decide_eq_false_2 by done. csimpl. rewrite IH.
    destruct (decide (url ∈ relayMap.*1)) as [Hin | Hin].
    + rewrite !bool_decide_eq_true_2; [done | by right | done].
    + rewrite !bool_decide_eq_false_2; [done | | done].
      intros [? | ?]%elem_of_cons; by simplify_eq.
Qed.

Lemma relayMapAdd_members {A} `{EqDecision A} url (pubkey : A) relayMap u pk :
  (exists pks, (u, pks) ∈ relayMapAdd url pubkey relayMap /\ pk ∈ pks) <->
  (exists pks, (u, pks) ∈ relayMap /\ pk ∈ pks) \/ (u = url /\ pk = pubkey).
Proof.
  induction relayMap as [|[u0 pks0] relayMap IH]; simpl.
  - split.
    + intros (pks & Hin & Hpk). apply list_elem_of_singleton in Hin. simplify_eq.
      apply list_elem_of_singleton in Hpk. by right.
    + intros [(pks & Hin & _) | [-> ->]]; [by apply elem_of_nil in Hin|].
      exists [pubkey]. split; by apply list_elem_of_singleton.
  - destruct (decide (u0 = url)) as [Hu | Hu];
      [rewrite bool_decide_eq_true_2 by done | rewrite bool_decide_eq_false_2 by done].
    + subst u0. split.
      * intros (pks & [Heq | Hin]%elem_of_cons & Hpk).
        -- simplify_eq. apply setAdd_elem in Hpk as [Hpk | ->].
           ++ left. exists pks0. split; [by left | done].
           ++ by right.
        -- left. exists pks. split; [by right | done].
      * intros [(pks & [Heq | Hin]%elem_of_cons & Hpk) | [-> ->]].
        -- simplify_eq. exists (setAdd pubkey pks0). split; [by left|].
           apply setAdd_elem. by left.
        -- exists pks. split; [by right | done].
        -- exists (setAdd pubkey pks0). split; [by left|]. apply setAdd_elem. by right.
    + split.
      * intros (pks & [Heq | Hin]%elem_of_cons & Hpk).
        -- simplify_eq. left. exists pks0. split; [by left | done].
        -- destruct (proj1 IH) as [(pks' & Hin' & Hpk') | ?]; [by exists pks| |by right].
           left. exists pks'. split; [by right | done].
      * intros [(pks & [Heq | Hin]%elem_of_cons & Hpk) | Hnew].
        -- simplify_eq. exists pks0. split; [by left | done].
        -- destruct (proj2 IH) as (pks' & Hin' & Hpk'); [left; by exists pks|].
           exists pks'. split; [by right | done].
        -- destruct (proj2 IH) as (pks' & Hin' & Hpk'); [by right|].
           exists pks'. split; [by right | done].
Qed.

Lemma relayMapAdd_sets {A} `{EqDecision A} url (pubkey : A) relayMap :
  Forall (fun entry : string * list A => NoDup entry.2 /\ entry.2 <> []) relayMap ->
  Forall (fun entry : string * list A => NoDup entry.2 /\ entry.2 <> [])
         (relayMapAdd url pubkey relayMap).
Proof.
  induction 1 as [|[u pks] relayMap [Hnodup Hne] Hall IH]; simpl.
  - repeat constructor; [set_solver | done].
  - case_bool_decide; constructor; try done. simpl in *. split; [by apply setAdd_NoDup|].
    unfold setAdd. case_bool_decide; [done|]. by destruct pks.
Qed.

Lemma relayMapAdd_ok {A} `{EqDecision A} url (pubkey : A) relayMap :
  relayMapOk relayMap -> relayMapOk (relayMapAdd url pubkey relayMap).
Proof.
  intros [Hkeys Hsets]. split; [|by apply relayMapAdd_sets].
  rewrite relayMapAdd_keys. case_bool_decide; [done|].
  apply NoDup_app. split; [done|]. split; [|apply NoDup_singleton].
  intros u Hu Hu'. apply list_elem_of_singleton in Hu'. by subst u.
Qed.

Section FavoriteRelayFacts.
Variable isWebsocketUrl : string -> bool.
Variable normalizeUrl : string -> string.

Abbreviation relayOf := (relayOfTag isWebsocketUrl normalizeUrl).



End FavoriteRelayFacts.




(** ** Warming up the user index *)

Lemma batchesFrom_spec aborted followings i :
  let batches := batchesFrom aborted followings i in
  mjoin batches = take (length batches * 20) (drop (i * 20) followings) /\
  Forall (fun batch => (1 <= length batch <= 20)%nat) batches /\
  ((forall j, aborted j = false) -> mjoin batches = drop (i * 20) followings).
Proof.
  funelim (batchesFrom aborted followings i); simpl.
  - split; [done|]. split; [constructor|]. intros _. by rewrite drop_ge by lia.
  - split; [done|]. split; [constructor|]. intros Hnever. congruence.
  - destruct H as (Hjoin & Hsizes & Hall). rewrite Hjoin. unfold slice.
    replace ((i + 1) * 20 - i * 20)%nat with 20%nat by lia.
    assert (drop (S i * 20) followings = drop 20 (drop (i * 20) followings)) as Hdrop.
    { rewrite drop_drop. f_equal. lia. }
    split_and!.
    + rewrite Hdrop.
      set (rest := drop (i * 20) followings).
      set (n := length (batchesFrom aborted followings (S i))).
      rewrite take_take_drop. reflexivity.
    + constructor; [|done]. rewrite length_take, length_drop. lia.
    + intros Hnever. rewrite <- Hjoin, (Hall Hnever), Hdrop. apply take_drop.
Qed.

(** X21: the profiles of the followings are fetched in batches of at most
    twenty, in order and without gaps; unless the signal aborts the loop,
    every following is fetched, exactly once. *)
Theorem initUserIndexFromFollowings_batches (aborted : nat -> bool) (followings : list string) :
  let batches := initUserIndexFromFollowings aborted followings in
  mjoin batches = take (length batches * 20) followings /\
  Forall (fun batch => (1 <= length batch <= 20)%nat) batches /\
  ((forall i, aborted i = false) -> mjoin batches = followings).
Proof. apply (batchesFrom_spec aborted followings 0). Qed.

(** ** Sub-requests of a feed of authors *)

Lemma filter_Permutation {A} (f : A -> bool) (l1 l2 : list A) :
  l1 ≡ₚ l2 -> List.filter f l1 ≡ₚ List.filter f l2.
Proof.
  induction 1 as [|x l1 l2 Hperm IH|x y l|l1 l2 l3 H12 IH12 H23 IH23]; simpl.
  - done.
  - destruct (f x); by rewrite IH.
  - destruct (f x), (f y); try done. apply Permutation_swap.
  - by etrans.
Qed.

Lemma filter_other_keys {A} (key : string) (l : list (string * A)) :
  key ∉ l.*1 -> List.filter (fun e : string * A => negb (bool_decide (e.1 = key))) l = l.
Proof.
  induction l as [|[k v] l IH]; csimpl; [done|]. intros Hin.
  rewrite bool_decide_eq_false_2; [|intros ->; apply Hin; by left]. simpl.
  rewrite IH; [done|]. intros ?. apply Hin. by right.
Qed.

Lemma coverOnce_fold (authors : list (option string)) coveredCount author :
  NoDup authors ->
  default 0%nat (foldl coverOnce coveredCount authors !! author) =
  (default 0%nat (coveredCount !! author) + if bool_decide (author ∈ authors) then 1 else 0)%nat.
Proof.
  revert coveredCount. induction authors as [|a authors IH]; intros coveredCount Hnodup; simpl.
  - lia.
  - apply NoDup_cons in Hnodup as [Ha Hnodup]. rewrite IH by done. unfold coverOnce.
    destruct (decide (author = a)) as [-> | Hne].
    + rewrite lookup_insert_eq. simpl.
      rewrite (bool_decide_eq_false_2 (a ∈ authors)) by done.
      rewrite bool_decide_eq_true_2; [lia | by left].
    + rewrite lookup_insert_ne by done.
      destruct (decide (author ∈ authors)) as [Hin | Hin].
      * rewrite !bool_decide_eq_true_2; [done | by right | done].
      * rewrite !bool_decide_eq_false_2; [done | | done].
        intros [? | ?]%elem_of_cons; done.
Qed.

Lemma requestsOf_app author l1 l2 :
  requestsOf author (l1 ++ l2) = requestsOf author l1 ++ requestsOf author l2.
Proof. apply List.filter_app. Qed.

(** The second loop, from any of its turns on: [kept] are the relays kept so
    far, [rest] the ones still to come. *)
Lemma pruneStep_fold relayCount (rest kept : AuthorGroup) group coveredCount :
  NoDup group.*1 -> group ≡ₚ kept ++ rest ->
  (forall author, default 0%nat (coveredCount !! author) = length (requestsOf author kept)) ->
  Forall (fun entry : string * list (option string) => NoDup entry.2) rest ->
  exists more,
    (foldl (pruneStep relayCount) (group, coveredCount) rest).1 ≡ₚ kept ++ more /\
    NoDup (foldl (pruneStep relayCount) (group, coveredCount) rest).1.*1 /\
    (forall entry, entry ∈ (foldl (pruneStep relayCount) (group, coveredCount) rest).1 ->
                   entry ∈ group) /\
    (forall entry, entry ∈ more -> entry ∈ rest) /\
    (forall entry author, entry ∈ rest -> author ∈ entry.2 ->
       entry ∈ more \/ (2 <= length (requestsOf author (kept ++ more)))%nat) /\
    ((relayCount <= 10)%nat -> more = rest).
Proof.
  revert kept group coveredCount.
  induction rest as [|entry rest IH]; intros kept group coveredCount Hkeys Hperm Hcount Hsets.
  - exists []. simpl. split_and!; try done. by intros ? ? ?%elem_of_nil.
  - apply Forall_cons in Hsets as [Hset Hsets]. cbn [foldl].
    destruct (pruneStep relayCount (group, coveredCount) entry) as [group1 covered1] eqn:Hstep.
    unfold pruneStep in Hstep.
    destruct ((10 <? relayCount)%nat && (length entry.2 <? 10)%nat
              && forallb (fun author => (2 <=? default 0%nat (coveredCount !! author))%nat)
                         entry.2) eqn:Hdelete; injection Hstep as <- <-.
    + (* the relay is deleted *)
      apply andb_true_iff in Hdelete as [[Hmany _]%andb_true_iff Hcovered].
      apply Nat.ltb_lt in Hmany.
      assert (NoDup (kept ++ entry :: rest).*1) as Hkeys' by by rewrite <- Hperm.
      assert (List.filter (fun e : string * list (option string) =>
                             negb (bool_decide (e.1 = entry.1))) group ≡ₚ kept ++ rest) as Hperm'.
      { rewrite (filter_Permutation _ _ _ Hperm), List.filter_app. simpl.
        rewrite bool_decide_eq_true_2 by done. simpl.
        rewrite fmap_app in Hkeys'. csimpl in Hkeys'.
        apply NoDup_app in Hkeys' as (Hk1 & Hk2 & Hk3). apply NoDup_cons in Hk3 as [Hk3 _].
        rewrite !filter_other_keys; [done | done|].
        intros Hin. by apply (Hk2 _ Hin); left. }
      destruct (IH kept (List.filter (fun e : string * list (option string) =>
                                        negb (bool_decide (e.1 = entry.1))) group) coveredCount)
        as (more & Hfinal & Hnodup & Hsub & Hmore & Hcover & Hfew); [|exact Hperm' | done | done |].
      { rewrite Hperm'. rewrite fmap_app in Hkeys'. csimpl in Hkeys'.
        rewrite fmap_app. apply NoDup_app in Hkeys' as (Hk1 & Hk2 & Hk3).
        apply NoDup_cons in Hk3 as [_ Hk3]. apply NoDup_app. split_and!; try done.
        intros k Hk Hk'. by apply (Hk2 k Hk); right. }
      exists more. split_and!; try done.
      * intros e He. apply Hsub in He.
        apply list_elem_of_In, List.filter_In in He as [He _]. by apply list_elem_of_In.
      * intros e He. right. by apply Hmore.
      * intros e author [-> | He]%elem_of_cons Hauthor; [|by apply Hcover].
        right. rewrite requestsOf_app, length_app, <- Hcount.
        rewrite forallb_forall in Hcovered.
        specialize (Hcovered author (proj1 (list_elem_of_In _ _) Hauthor)).
        apply Nat.leb_le in Hcovered. lia.
      * intros Hle. lia.
    + (* the relay is kept *)
      destruct (IH (kept ++ [entry]) group (foldl coverOnce coveredCount entry.2))
        as (more & Hfinal & Hnodup & Hsub & Hmore & Hcover & Hfew); [done | | | done |].
      { by rewrite <- app_assoc. }
      { intros author. rewrite coverOnce_fold by done.
        rewrite requestsOf_app, length_app, Hcount. unfold requestsOf at 2. simpl.
        by destruct (bool_decide (author ∈ entry.2)). }
      exists (entry :: more). rewrite <- app_assoc in Hfinal, Hcover. simpl in Hfinal, Hcover.
      split_and!; try done.
      * intros e [-> | He]%elem_of_cons; [by left|]. right. by apply Hmore.
      * intros e author [-> | He]%elem_of_cons Hauthor; [left; by left|].
        destruct (Hcover e author He Hauthor) as [? | ?]; [left; by right | by right].
      * intros Hle. by rewrite (Hfew Hle).
Qed.

Lemma urls_fold (author : option string) (urls : list string) (group : AuthorGroup) :
  let group' := foldl (fun group url => relayMapAdd url author group) group urls in
  (relayMapOk group -> relayMapOk group') /\
  (forall u a, (exists authors, (u, authors) ∈ group' /\ a ∈ authors) <->
               (exists authors, (u, authors) ∈ group /\ a ∈ authors) \/
               (a = author /\ u ∈ urls)).
Proof.
  revert group. induction urls as [|url urls IH]; intros group; simpl.
  - split; [done|]. intros u a. split; [by left|].
    intros [? | [_ Hin]]; [done | by apply elem_of_nil in Hin].
  - destruct (IH (relayMapAdd url author group)) as [Hok Hmem]. split.
    + intros H. by apply Hok, relayMapAdd_ok.
    + intros u a. rewrite Hmem, relayMapAdd_members, elem_of_cons. naive_solver.
Qed.

Lemma groupByWriteRelay_spec (pubkeys : list string) (relayLists : list TRelayList) :
  relayMapOk (groupByWriteRelay pubkeys relayLists) /\
  (forall url author,
     (exists authors, (url, authors) ∈ groupByWriteRelay pubkeys relayLists /\ author ∈ authors)
     <-> exists index relayList, relayLists !! index = Some relayList /\
                                 author = pubkeys !! index /\
                                 url ∈ slice0 4 (write relayList)).
Proof.
  unfold groupByWriteRelay. induction relayLists as [|relayList relayLists IH] using rev_ind.
  - simpl. split; [split; constructor|]. intros url author. split.
    + intros (authors & Hin & _). by apply elem_of_nil in Hin.
    + by intros (index & relayList & ? & _).
  - rewrite imap_app, foldl_app. simpl. rewrite Nat.add_0_r. destruct IH as [Hok Hmem].
    destruct (urls_fold (pubkeys !! length relayLists) (slice0 4 (write relayList))
                (foldl (fun group ir =>
                          foldl (fun group url => relayMapAdd url (pubkeys !! ir.1) group)
                                group (slice0 4 (write ir.2)))
                       [] (imap (fun index relayList => (index, relayList)) relayLists)))
      as [Hok' Hmem'].
    split; [by apply Hok'|]. intros url author. rewrite Hmem', Hmem. split.
    + intros [(index & rl & Hi & ? & ?) | [-> Hin]].
      * exists index, rl. split; [|done]. by apply lookup_app_l_Some.
      * exists (length relayLists), relayList. split; [|done].
        by rewrite list_lookup_middle.
    + intros (index & rl & Hi & Ha & Hin).
      apply lookup_app_Some in Hi as [Hi | [Hge Hi]]; [left; by exists index, rl|].
      apply list_lookup_singleton_Some in Hi as [Hz <-]. right.
      replace index with (length relayLists) in Ha by lia. done.
Qed.

(** The second loop only deletes relays, none when there are at most ten;
    and whenever it deletes a relay, every author of that relay is still asked
    for on at least two of the relays that are kept. *)
Lemma pruneGroup_spec (group : AuthorGroup) :
  relayMapOk group ->
  (forall entry, entry ∈ pruneGroup group -> entry ∈ group) /\
  NoDup (pruneGroup group).*1 /\
  ((length group <= 10)%nat -> pruneGroup group ≡ₚ group) /\
  (forall url authors author,
     (url, authors) ∈ group -> author ∈ authors ->
     (url, authors) ∈ pruneGroup group \/
     (2 <= length (requestsOf author (pruneGroup group)))%nat).
Proof.
  intros [Hkeys Hsets]. unfold pruneGroup.
  set (sorted := sortWith (fun a b : string * list (option string) =>
                             (length b.2 <? length a.2)%nat) group).
  assert (sorted ≡ₚ group) as Hperm by apply sortWith_perm.
  destruct (pruneStep_fold (length group) sorted [] group ∅) as
    (more & Hfinal & Hnodup & Hsub & Hmore & Hcover & Hfew);
    [done | by rewrite Hperm | done | |].
  { rewrite Hperm. eapply Forall_impl; [exact Hsets|]. by intros ? [? _]. }
  simpl in Hfinal, Hcover. split_and!.
  - done.
  - done.
  - intros Hle. rewrite Hfinal, (Hfew Hle). done.
  - intros url authors author Hin Hauthor.
    destruct (Hcover (url, authors) author) as [Hkept | Htwo]; [by rewrite Hperm | done | |].
    + left. by rewrite Hfinal.
    + right. unfold requestsOf in *. by rewrite (filter_Permutation _ _ _ Hfinal).
Qed.

(** X22: outside Safari, [generateSubRequestsForPubkeys] answers with one
    request per relay, no relay twice; an author is asked for only on one of
    the first four write relays of its relay list; and for every such relay
    of an author, the author is asked for on that relay, or else on at least
    two other relays. *)
Theorem generateSubRequestsForPubkeys_covers_every_author
    (getRelayListFromEvent : NEvent -> TRelayList)
    (getManyReplaceableEvents : list string -> Z -> list storedEvent)
    (loadManyFromBigRelays : list (string * Z) -> list loadedEvent)
    (pubkeys : list string) (myPubkey : option string) :
  let relayLists := fetchRelayLists getRelayListFromEvent getManyReplaceableEvents
                                    loadManyFromBigRelays pubkeys in
  exists requests,
    generateSubRequestsForPubkeys getRelayListFromEvent getManyReplaceableEvents
                                  loadManyFromBigRelays false pubkeys myPubkey = Some requests /\
    NoDup requests.*1 /\
    (forall urls authors author,
       (urls, authors) ∈ requests -> author ∈ authors ->
       exists url index relayList,
         urls = [url] /\ relayLists !! index = Some relayList /\
         author = pubkeys !! index /\ url ∈ slice0 4 (write relayList)) /\
    (forall index relayList url,
       relayLists !! index = Some relayList -> url ∈ slice0 4 (write relayList) ->
       (exists authors, ([url], authors) ∈ requests /\ pubkeys !! index ∈ authors) \/
       (2 <= length (List.filter (fun request : SubRequest =>
                                    bool_decide (pubkeys !! index ∈ request.2)) requests))%nat).
Proof.
  intros relayLists. unfold generateSubRequestsForPubkeys. fold relayLists.
  set (group := groupByWriteRelay pubkeys relayLists).
  destruct (groupByWriteRelay_spec pubkeys relayLists) as [Hok Hmem]. fold group in Hok, Hmem.
  destruct (pruneGroup_spec group Hok) as (Hsub & Hkeys & _ & Hcover).
  eexists. split; [reflexivity|]. split_and!.
  - rewrite <- list_fmap_compose.
    assert ((fst ∘ (fun entry : string * list (option string) => ([entry.1], entry.2)))
            = (fun url => [url]) ∘ fst) as -> by done.
    rewrite list_fmap_compose. apply NoDup_fmap_2; [|done]. by intros ? ? [= ->].
  - intros urls authors author Hin Hauthor.
    apply list_elem_of_fmap in Hin as ([url authors'] & [= -> ->] & Hin). simpl in *.
    apply Hsub in Hin.
    destruct (proj1 (Hmem url author)) as (index & relayList & ? & ? & ?); [by exists authors'|].
    by exists url, index, relayList.
  - intros index relayList url Hi Hurl.
    destruct (proj2 (Hmem url (pubkeys !! index))) as (authors & Hin & Hauthor);
      [by exists index, relayList|].
    destruct (Hcover url authors (pubkeys !! index) Hin Hauthor) as [Hkept | Htwo].
    + left. exists authors. split; [|done].
      apply list_elem_of_fmap. by exists (url, authors).
    + right. unfold requestsOf in Htwo.
      assert (forall l : AuthorGroup,
                length (List.filter (fun request : SubRequest =>
                                       bool_decide (pubkeys !! index ∈ request.2))
                          ((fun entry : string * list (option string) => ([entry.1], entry.2))
                           <$> l))
                = length (List.filter (fun entry : string * list (option string) =>
                                         bool_decide (pubkeys !! index ∈ entry.2)) l)) as ->.
      { induction l as [|e l IH]; csimpl; [done|]. destruct (bool_decide _); simpl; by rewrite IH. }
      done.
Qed.

(** ** Sub-subscriptions started again after authentication *)

Lemma dedupeFrom_spec seen l :
  NoDup (dedupeFrom seen l) /\
  forall x, x ∈ dedupeFrom seen l <-> x ∈ l /\ x ∉ seen.
Proof.
  revert seen. induction l as [|y l IH]; intros seen; simpl.
  - split; [constructor|]. intros x. split; [by intros ?%elem_of_nil | by intros [?%elem_of_nil _]].
  - case_bool_decide as Hy.
    + destruct (IH seen) as [Hnodup Hmem]. split; [done|]. intros x. rewrite Hmem, elem_of_cons.
      split; [naive_solver|]. intros [[-> | ?] ?]; done.
    + destruct (IH (y :: seen)) as [Hnodup Hmem]. split.
      * apply NoDup_cons. split; [|done]. rewrite Hmem. intros [_ Hno]. apply Hno. by left.
      * intros x. rewrite !elem_of_cons, Hmem, elem_of_cons.
        split; [|destruct (decide (x = y)); naive_solver].
        intros [-> | [? ?]]; [by split; [left|] | split; [by right | naive_solver]].
Qed.

Lemma dedupe_NoDup l : NoDup (dedupe l).
Proof. apply dedupeFrom_spec. Qed.

(** Replacing a sub-subscription by one of the same url, without an
    authentication under way unless none was done for the url. *)
Lemma authInv_setSub (s s' : Subscription) i r r' :
  authInv s -> subPromises s !! i = Some r ->
  rs_url r' = rs_url r ->
  (rs_authPending r' = true -> rs_url r ∉ hasAuthed s) ->
  relays s' = relays s -> hasAuthed s' = hasAuthed s ->
  subPromises s' = <[i := r']> (subPromises s) ->
  startedCount s' = startedCount s ->
  authInv s'.
Proof.
  intros (again & Hurls & Hr & Ha & Hagain & Hpending & Hcount) Hi Hurl Hp Hrel Hauth Hsubs Hst.
  exists again. rewrite Hrel, Hauth, Hsubs, Hst. split_and!; try done.
  - rewrite list_fmap_insert, Hurl, <- Hurls. apply list_insert_id.
    by rewrite list_lookup_fmap, Hi.
  - intros j r'' Hj Hpend. apply list_lookup_insert_Some in Hj as [(-> & <- & _) | [Hne Hj]].
    + rewrite Hurl. by apply Hp.
    + by eapply Hpending.
  - by rewrite length_insert.
Qed.

(** A change that leaves the sub-subscriptions, the relays and [hasAuthed]
    alone. *)
Lemma authInv_frame (s s' : Subscription) :
  authInv s -> relays s' = relays s -> hasAuthed s' = hasAuthed s ->
  subPromises s' = subPromises s -> startedCount s' = startedCount s -> authInv s'.
Proof.
  intros (again & H) Hrel Hauth Hsubs Hst. exists again.
  by rewrite Hrel, Hauth, Hsubs, Hst.
Qed.

Lemma authInv_countEose s : authInv s -> authInv (countEose s).1.
Proof.
  intros Hinv. unfold countEose. destruct (eosed s); [done|]. by eapply authInv_frame.
Qed.

Lemma authInv_alreadyHaveEvent key s : authInv s -> authInv (alreadyHaveEvent key s).2.
Proof.
  intros Hinv. unfold alreadyHaveEvent. case_bool_decide; [done|]. by eapply authInv_frame.
Qed.

Lemma authInv_close s : authInv s -> authInv (close s).
Proof.
  intros (again & Hurls & Hr & Ha & Hagain & Hpending & Hcount). exists again. simpl.
  split_and!; try done.
  - rewrite <- Hurls, <- list_fmap_compose. apply list_fmap_ext. intros j r _.
    unfold releaseSub. simpl. by destruct (rs_status r).
  - intros j r Hj Hpend. rewrite list_lookup_fmap in Hj.
    destruct (subPromises s !! j) as [r0|] eqn:Hr0; [|done]. simpl in Hj. simplify_eq.
    assert (rs_url (releaseSub r0) = rs_url r0 /\ rs_authPending (releaseSub r0) = rs_authPending r0)
      as [-> Hsame] by (unfold releaseSub; by destruct (rs_status r0)).
    rewrite Hsame in Hpend. by eapply Hpending.
  - by rewrite length_fmap.
Qed.

(** The authentication of a relay has succeeded: its sub-subscription is
    started again unless the subscription has reached its end of stored
    events. *)
Lemma authInv_authSucceeded s i r :
  authInv s -> subPromises s !! i = Some r -> rs_authPending r = true ->
  let s' := setSub i {| rs_url := rs_url r; rs_status := rs_status r; rs_eosed := rs_eosed r;
                        rs_closeRequested := rs_closeRequested r; rs_authPending := false |} s in
  authInv (authSucceeded r s').
Proof.
  intros (again & Hurls & Hr & Ha & Hagain & Hpending & Hcount) Hi Hpend s'.
  pose proof (Hpending i r Hi Hpend) as Hfresh.
  assert (rs_url r ∉ again) as Hnew by (intros Hin; by apply Hagain in Hin as [? _]).
  assert ((rs_url <$> subPromises s) !! i = Some (rs_url r)) as Hiu
    by by rewrite list_lookup_fmap, Hi.
  assert (relays s !! i = Some (rs_url r)) as Hir.
  { rewrite Hurls in Hiu. apply lookup_app_Some in Hiu as [? | [_ Hin]]; [done|].
    exfalso. apply Hnew. by eapply list_elem_of_lookup_2. }
  assert (rs_url <$> <[i := {| rs_url := rs_url r; rs_status := rs_status r;
                               rs_eosed := rs_eosed r;
                               rs_closeRequested := rs_closeRequested r;
                               rs_authPending := false |}]> (subPromises s)
          = relays s ++ again) as Hurls'.
  { rewrite list_fmap_insert. simpl. rewrite <- Hurls. by apply list_insert_id. }
  assert (forall j r', <[i := {| rs_url := rs_url r; rs_status := rs_status r;
                                 rs_eosed := rs_eosed r;
                                 rs_closeRequested := rs_closeRequested r;
                                 rs_authPending := false |}]> (subPromises s) !! j = Some r' ->
            rs_authPending r' = true -> rs_url r' ∉ {[rs_url r]} ∪ hasAuthed s) as Hpending'.
  { intros j r' Hj Hp. apply list_lookup_insert_Some in Hj as [(-> & <- & _) | [Hne Hj]]; [done|].
    pose proof (Hpending j r' Hj Hp) as Hfresh'.
    intros [Heq%elem_of_singleton | ?]%elem_of_union; [|done].
    assert ((rs_url <$> subPromises s) !! j = Some (rs_url r)) as Hju
      by (rewrite list_lookup_fmap, Hj; simpl; by rewrite Heq).
    rewrite Hurls in Hju. apply lookup_app_Some in Hju as [Hjr | [_ Hin]].
    - apply Hne. eapply NoDup_lookup; [exact Hr | exact Hir | exact Hjr].
    - apply Hnew. by eapply list_elem_of_lookup_2. }
  unfold authSucceeded. simpl. destruct (eosed s).
  - exists again. simpl. split_and!; try done.
    + intros url Hin. destruct (Hagain url Hin). split; [set_solver | done].
    + by rewrite length_insert.
  - exists (again ++ [rs_url r]). simpl. split_and!; try done.
    + rewrite fmap_app, Hurls'. simpl. by rewrite app_assoc.
    + apply NoDup_app. split; [done|]. split; [|apply NoDup_singleton].
      intros u Hu Hu'. apply list_elem_of_singleton in Hu'. by subst u.
    + intros url [Hin | Hin]%elem_of_app.
      * destruct (Hagain url Hin). split; [set_solver | done].
      * apply list_elem_of_singleton in Hin. subst url.
        split; [set_solver | by eapply list_elem_of_lookup_2].
    + intros j r' Hj Hp. apply lookup_app_Some in Hj as [Hj | [_ Hj]]; [by eapply Hpending'|].
      apply list_lookup_singleton_Some in Hj as [_ <-]. done.
    + rewrite length_app, length_insert. simpl. lia.
Qed.

Lemma authInv_step matchFilters hasStartLogin s x :
  authInv s -> authInv (step matchFilters hasStartLogin s x).1.
Proof.
  intros Hinv. destruct x; simpl.
  - destruct (subPromises s !! i) as [r|] eqn:Hi; [|done].
    destruct (rs_status r); try done. apply authInv_countEose.
    eapply (authInv_setSub s _ i r); [exact Hinv | exact Hi | | | | | simpl; reflexivity | ]; try done. intros Hp.
    destruct Hinv as (again & _ & _ & _ & _ & Hpending & _). by eapply Hpending.
  - destruct (subPromises s !! i) as [r|] eqn:Hi; [|done].
    destruct (rs_status r); try done. simpl.
    eapply (authInv_setSub s _ i r); [exact Hinv | exact Hi | | | | | simpl; reflexivity | ]; try done. intros Hp.
    destruct Hinv as (again & _ & _ & _ & _ & Hpending & _). by eapply Hpending.
  - destruct (subPromises s !! i) as [r|] eqn:Hi; [|done].
    destruct (rs_status r); try done.
    pose proof (authInv_alreadyHaveEvent (id evt) s Hinv) as Hinv'.
    by destruct (alreadyHaveEvent (id evt) s).
  - destruct (subPromises s !! i) as [r|] eqn:Hi; [|done].
    destruct (rs_status r); try done. destruct (rs_eosed r); [done|].
    apply authInv_countEose. eapply (authInv_setSub s _ i r); [exact Hinv | exact Hi | | | | | simpl; reflexivity | ]; try done. intros Hp.
    destruct Hinv as (again & _ & _ & _ & _ & Hpending & _). by eapply Hpending.
  - destruct (subPromises s !! i) as [r|] eqn:Hi; [|done].
    assert (authInv (handleClose hasStartLogin i r reason signer s).1) as Hclose.
    { unfold handleClose.
      destruct (startsWith "auth-required" reason && negb (bool_decide (rs_url r ∈ hasAuthed s))
                && signer) eqn:Hauth; simpl.
      - eapply (authInv_setSub s _ i r); [exact Hinv | exact Hi | | | | | simpl; reflexivity | ]; try done. intros _.
        apply andb_true_iff in Hauth as [[_ Hno]%andb_true_iff _].
        by apply negb_true_iff, bool_decide_eq_false in Hno.
      - destruct (startsWith "auth-required" reason
                  && negb (bool_decide (rs_url r ∈ hasAuthed s)) && hasStartLogin); simpl.
        + eapply (authInv_setSub s _ i r); [exact Hinv | exact Hi | | | | | simpl; reflexivity | ]; try done. intros Hp.
          destruct Hinv as (again & _ & _ & _ & _ & Hpending & _). by eapply Hpending.
        + eapply (authInv_setSub s _ i r); [exact Hinv | exact Hi | | | | | simpl; reflexivity | ]; try done. intros Hp.
          destruct Hinv as (again & _ & _ & _ & _ & Hpending & _). by eapply Hpending. }
    by destruct (rs_status r).
  - destruct (subPromises s !! i) as [r|] eqn:Hi; [|done].
    destruct (rs_authPending r) eqn:Hp; [|done]. simpl. destruct ok.
    + by apply authInv_authSucceeded.
    + eapply (authInv_setSub s _ i r); [exact Hinv | exact Hi | | | | | simpl; reflexivity | ]; try done.
  - destruct (listening s && matchFilters evt); [|done].
    pose proof (authInv_alreadyHaveEvent (id evt) s Hinv) as Hinv'.
    by destruct (alreadyHaveEvent (id evt) s).
  - by apply authInv_close.
Qed.

(** X23: a relay's sub-subscription is started again at most once, after
    its authentication: a subscription never starts more than twice as many
    sub-subscriptions as it has relays. *)
Theorem subscribe_restarts_once_per_relay
    (matchFilters : NEvent -> bool) (hasStartLogin : bool)
    (urls : list string) (inputs : list transportInput) :
  let s := (run matchFilters hasStartLogin (subscribe urls) inputs).1 in
  (length (dedupe urls) <= startedCount s <= 2 * length (dedupe urls))%nat /\
  startedCount s = length (subPromises s).
Proof.
  cut (let s := (run matchFilters hasStartLogin (subscribe urls) inputs).1 in
       authInv s /\ relays s = dedupe urls).
  { intros [(again & Hurls & Hr & Ha & Hagain & _ & Hcount) Hrel]. split; [|done].
    rewrite Hcount, <- (length_fmap rs_url), Hurls, length_app, Hrel.
    assert (length again <= length (dedupe urls))%nat; [|lia].
    apply submseteq_length, NoDup_submseteq; [done|]. intros u Hu. rewrite <- Hrel.
    by apply Hagain. }
  simpl. apply (run_ind matchFilters hasStartLogin (subscribe urls)
                  (fun s _ => authInv s /\ relays s = dedupe urls)).
  - unfold subscribe.
    destruct (subscribe_fold (dedupe urls)
                {| relays := dedupe urls; _knownIds := ∅; startedCount := 0; eosedCount := 0;
                   eosed := false; closedCount := 0; closeReasons := []; hasAuthed := ∅;
                   subPromises := []; listening := true |}) as (Hst & Hsubs & _ & _).
    assert (forall l s, relays (foldl (fun s url => startSub url s) s l) = relays s /\
                        hasAuthed (foldl (fun s url => startSub url s) s l) = hasAuthed s)
      as Hkeep.
    { induction l as [|u l IH]; intros s; simpl; [done|]. by destruct (IH (startSub u s)). }
    destruct (Hkeep (dedupe urls)
                {| relays := dedupe urls; _knownIds := ∅; startedCount := 0; eosedCount := 0;
                   eosed := false; closedCount := 0; closeReasons := []; hasAuthed := ∅;
                   subPromises := []; listening := true |}) as [Hrel Hauth].
    simpl in *. split; [|done]. exists []. rewrite Hrel, Hsubs, Hst, Hauth. simpl.
    split_and!.
    + rewrite app_nil_r, <- list_fmap_compose. simpl. by rewrite list_fmap_id.
    + apply dedupe_NoDup.
    + constructor.
    + by intros ? ?%elem_of_nil.
    + intros i r Hi Hp. rewrite list_lookup_fmap in Hi.
      destruct (dedupe urls !! i); simpl in Hi; by simplify_eq.
    + by rewrite length_fmap.
  - intros s calls x s' out [Hinv Hrel] Hstep.
    pose proof (authInv_step matchFilters hasStartLogin s x Hinv) as Hinv'.
    rewrite Hstep in Hinv'. split; [done|]. rewrite <- Hrel.
    clear -Hstep. unfold step, countEose, alreadyHaveEvent, handleClose, authSucceeded,
      startSub, setSub, close in Hstep.
    repeat case_match; simplify_eq; simpl in *; done.
Qed.
